(** * Local AI Orchestrator: the admission-and-dispatch engine

    A shallow embedding of the gateway's Python sources: configuration
    records, jobs, the typed errors, the concurrency rules, the queuing
    scheduler, the provider adapters, the registry and the request
    controller.  State that Python keeps in objects is threaded explicitly;
    everything the process reads from outside (files, HTTP backends, the
    clock) is an explicit input. *)

From Stdlib Require Import QArith Lqa ZArith Lia.
From stdpp Require Import gmap strings list fin_maps pretty sorting.

(* ===================================================================== *)
(** * Part I: the program                                                 *)
(* ===================================================================== *)

(** ** Python values held in untyped slots *)

(** [Job.normalized_error] is declared [Optional[str]] but assigned without
    validation, so the slot can hold whatever an exception carries. *)
Inductive pyval :=
  | PyStr (s : string)
  | PyInt (z : Z).

#[global] Instance pyval_eq_dec : EqDecision pyval.
Proof. solve_decision. Defined.

(** Python truthiness of a value. *)
Definition truthy (v : pyval) : bool :=
  match v with
  | PyStr s => negb (bool_decide (s = ""))
  | PyInt z => negb (z =? 0)%Z
  end.

(** [x or default] on an optional slot. *)
Definition py_or (x : option pyval) (default : pyval) : pyval :=
  match x with
  | Some v => if truthy v then v else default
  | None => default
  end.

(** ** Insertion-ordered dictionaries

    [Scheduler.queues] and [Registry.providers] are iterated, so the order
    of their keys matters: an association list with unique keys, new keys
    appended at the end. *)

Fixpoint dict_get {V} (k : string) (d : list (string * V)) : option V :=
  match d with
  | [] => None
  | (k', v) :: d' => if decide (k' = k) then Some v else dict_get k d'
  end.

Fixpoint dict_set {V} (k : string) (v : V) (d : list (string * V))
  : list (string * V) :=
  match d with
  | [] => [(k, v)]
  | (k', v') :: d' =>
      if decide (k' = k) then (k, v) :: d' else (k', v') :: dict_set k v d'
  end.

Definition dict_keys {V} (d : list (string * V)) : list string := d.*1.

(** ** Python floats

    IEEE 754 binary64 with rounding to nearest, ties to even, which is what
    CPython's [float] is.  Every finite float is a whole number of units of
    2^-1074 (the smallest subnormal), so a finite value is given by that
    number; the sign of zero is not kept.  A number of units that is not
    itself a float stands for the float nearest to it: every operation
    rounds what it reads. *)
Inductive float :=
  | FFinite (units : Z)
  | FPosInf
  | FNegInf
  | FNaN.

(** The multiple of the spacing of the floats around [p / r] that is
    nearest to [p / r], for [0 <= p] and [0 < r]: below 2^53 units the
    spacing is one unit, and it doubles with every further binade. *)
Definition nearest (p r : Z) : Z :=
  let s := Z.max 0 (Z.log2 (p / r) - 52) in
  let d := (r * 2 ^ s)%Z in
  let q := (p / d)%Z in
  let rem := (p mod d)%Z in
  let up :=
    if (2 * rem <? d)%Z then false
    else if (d <? 2 * rem)%Z then true
    else Z.odd q in
  ((if up then q + 1 else q) * 2 ^ s)%Z.

(** 2^1024, in units: what rounds up to it is infinite. *)
Definition overflow : Z := (2 ^ 2098)%Z.

Arguments nearest : simpl never.
Arguments overflow : simpl never.

Definition rounded (negative : bool) (v : Z) : float :=
  if (overflow <=? v)%Z then (if negative then FNegInf else FPosInf)
  else FFinite (if negative then - v else v).

Definition round (x : float) : float :=
  match x with
  | FFinite n => rounded (n <? 0)%Z (nearest (Z.abs n) 1)
  | _ => x
  end.

(** [float("...")] on a decimal numeral, as the YAML loader does for the
    figures of models.yaml. *)
Definition float_of_decimal (q : Q) : float :=
  rounded (Qnum q <? 0)%Z
          (nearest (Z.abs (Qnum q) * 2 ^ 1074) (Zpos (Qden q))).

(** [x + y] *)
Definition fadd (x y : float) : float :=
  match round x, round y with
  | FFinite a, FFinite b => round (FFinite (a + b))
  | FNaN, _ | _, FNaN => FNaN
  | FPosInf, FNegInf | FNegInf, FPosInf => FNaN
  | FPosInf, _ | _, FPosInf => FPosInf
  | FNegInf, _ | _, FNegInf => FNegInf
  end.

(** [x < y], [x <= y] and [x > y]: false as soon as one side is NaN. *)
Definition flt (x y : float) : bool :=
  match round x, round y with
  | FFinite a, FFinite b => (a <? b)%Z
  | FNegInf, FFinite _ | FNegInf, FPosInf | FFinite _, FPosInf => true
  | _, _ => false
  end.

Definition fle (x y : float) : bool :=
  match round x, round y with
  | FFinite a, FFinite b => (a <=? b)%Z
  | FNaN, _ | _, FNaN => false
  | FNegInf, _ | _, FPosInf => true
  | _, _ => false
  end.

Definition fgt (x y : float) : bool := flt y x.

(** [0.0] and [100.0] *)
Definition float_zero : float := FFinite 0.
Definition hundred : float := float_of_decimal 100.


(** ** src/config.py *)

(** The usage figures are percentages, [float] fields documented as
    [0-100] and not validated. *)
Record ModelResourceConfig := {
  cpu_usage : float;
  gpu_usage : float;
  vram_usage : float;
  exclusive : bool
}.

(** [ModelResourceConfig()] *)
Definition ModelResourceConfig_default : ModelResourceConfig :=
  {| cpu_usage := float_zero; gpu_usage := float_zero;
     vram_usage := float_zero; exclusive := false |}.

Record ModelScoreConfig := {
  base_priority : Z;
  load_penalty : Z;
  runtime_penalty : Z;
  always_run_last : bool;
  resources : ModelResourceConfig
}.

(** [ModelScoreConfig()] *)
Definition ModelScoreConfig_default : ModelScoreConfig :=
  {| base_priority := 0; load_penalty := 0; runtime_penalty := 0;
     always_run_last := false; resources := ModelResourceConfig_default |}.

Record RouteConfig := {
  primary_model : string;
  fallback_models : list string;
  fallback_on : list string
}.

Record RuntimeConfig := {
  auto_refresh_on_miss : bool;
  refresh_cooldown_seconds : Z;
  request_timeout_seconds : Z
}.

Definition RuntimeConfig_default : RuntimeConfig :=
  {| auto_refresh_on_miss := true; refresh_cooldown_seconds := 30;
     request_timeout_seconds := 600 |}.

Record RoutingConfig := {
  enable_fallback : bool;
  max_fallback_attempts : Z
}.

Definition RoutingConfig_default : RoutingConfig :=
  {| enable_fallback := true; max_fallback_attempts := 2 |}.

(** What the request controller reads from [global_config]:
    [load_routes()] and two sections of [config]. *)
Record Config := {
  routes : gmap string RouteConfig;
  runtime : RuntimeConfig;
  routing : RoutingConfig
}.

(** ** src/types.py *)

Record ChatMessage := { role : string; content : string }.

Record ChatCompletionRequest := {
  model : string;
  messages : list ChatMessage
}.

Record ChatCompletionResponse := {
  response_id : string;
  response_model : string;
  choices : list ChatMessage
}.

Inductive JobStatus := Pending | Running | Completed | Error.

#[global] Instance JobStatus_eq_dec : EqDecision JobStatus.
Proof. solve_decision. Defined.

Record Job := {
  job_id : string;
  original_model_id : string;
  resolved_model_id : string;
  provider_id : option string;
  route_name : option string;
  request : ChatCompletionRequest;
  status : JobStatus;
  error : option string;
  normalized_error : option pyval;
  response : option ChatCompletionResponse
}.

(** ** src/errors.py *)

(** An exception object: its message and, when the class defines it, the
    [normalized_code] attribute ([None] when [hasattr] is false). *)
Record exn := {
  exn_message : string;
  normalized_code : option pyval
}.

(** [GatewayError(message, normalized_code="other")]: the second positional
    parameter is the normalized code. *)
Definition GatewayError (message : string) (code : pyval) : exn :=
  {| exn_message := message; normalized_code := Some code |}.

Definition GatewayError_default (message : string) : exn :=
  GatewayError message (PyStr "other").

Definition ProviderUnreachableError (pid detail : string) : exn :=
  GatewayError ("Provider " +:+ pid +:+ " unreachable. " +:+ detail)
               (PyStr "unreachable").

Definition ProviderTimeoutError (pid : string) : exn :=
  GatewayError ("Provider " +:+ pid +:+ " timed out.") (PyStr "timeout").

Definition ModelNotFoundError (m : string) : exn :=
  GatewayError ("Model " +:+ m +:+ " not found.") (PyStr "other").

Definition ConfigError (message : string) : exn :=
  GatewayError message (PyStr "other").

Definition OOMError (pid : string) : exn :=
  GatewayError ("Provider " +:+ pid +:+ " OOM.") (PyStr "oom").

Definition ContextLengthError (pid : string) : exn :=
  GatewayError ("Provider " +:+ pid +:+ " exceeded context length.")
               (PyStr "context_length").

(** An exception raised by code outside the gateway's hierarchy
    ([KeyError], [AttributeError], ...): no [normalized_code]. *)
Definition PlainException (message : string) : exn :=
  {| exn_message := message; normalized_code := None |}.

Definition KeyError (key : string) : exn :=
  PlainException ("'" +:+ key +:+ "'").


(** The closed taxonomy of the specification. *)
Definition normalized_codes : list pyval :=
  [PyStr "unreachable"; PyStr "timeout"; PyStr "oom";
   PyStr "context_length"; PyStr "other"].

(** Results of fallible calls. *)
Inductive result (A : Type) :=
  | Ok (a : A)
  | Raise (e : exn).
Arguments Ok {A} a.
Arguments Raise {A} e.

(** ** src/concurrency/rules.py *)

(** The abstract base class: a name and the admission predicate.  The
  predicate reads the model records through [global_config.load_models()],
  here its first argument. *)
Module rules.

Record ConcurrencyRule := {
  name : string;
  can_run : gmap string ModelScoreConfig → Job → list Job → bool
}.

End rules.

Abbreviation ConcurrencyRule := rules.ConcurrencyRule.

(** ** src/concurrency/builtins.py *)

Module ExclusiveModelRule.

Definition _is_exclusive (models : gmap string ModelScoreConfig)
    (model_id : string) : bool :=
  match models !! model_id with
  | Some model_cfg => exclusive (resources model_cfg)
  | None => false
  end.

Definition can_run (models : gmap string ModelScoreConfig)
    (job : Job) (active_jobs : list Job) : bool :=
  if _is_exclusive models (resolved_model_id job)
     && negb (bool_decide (active_jobs = []))
  then false
  else
    if existsb (λ active_job,
                  _is_exclusive models (resolved_model_id active_job))
               active_jobs
    then false
    else true.

Definition rule : ConcurrencyRule :=
  {| rules.name := "ExclusiveModelRule"; rules.can_run := can_run |}.

End ExclusiveModelRule.

Definition Qgt_bool (x y : Q) : bool := negb (Qle_bool x y).

Module ResourceLimitRule.

Definition _get_resources (models : gmap string ModelScoreConfig)
    (model_id : string) : ModelResourceConfig :=
  match models !! model_id with
  | Some model_cfg => resources model_cfg
  | None => ModelResourceConfig_default
  end.

(** The two accumulators of the loop over [active_jobs]. *)
Definition total_cpu (models : gmap string ModelScoreConfig)
    (active_jobs : list Job) : float :=
  fold_left
    (λ total active_job,
       fadd total
         (cpu_usage (_get_resources models (resolved_model_id active_job))))
    active_jobs float_zero.

Definition total_gpu (models : gmap string ModelScoreConfig)
    (active_jobs : list Job) : float :=
  fold_left
    (λ total active_job,
       fadd total
         (gpu_usage (_get_resources models (resolved_model_id active_job))))
    active_jobs float_zero.

Definition can_run (models : gmap string ModelScoreConfig)
    (job : Job) (active_jobs : list Job) : bool :=
  let candidate_res := _get_resources models (resolved_model_id job) in
  if fgt (fadd (total_cpu models active_jobs) (cpu_usage candidate_res))
         hundred
  then false
  else if fgt (fadd (total_gpu models active_jobs) (gpu_usage candidate_res))
              hundred
  then false
  else true.

Definition rule : ConcurrencyRule :=
  {| rules.name := "ResourceLimitRule"; rules.can_run := can_run |}.

End ResourceLimitRule.

Module MaxConcurrencyRule.

Definition can_run (max_concurrent : Z)
    (models : gmap string ModelScoreConfig)
    (job : Job) (active_jobs : list Job) : bool :=
  (Z.of_nat (length active_jobs) <? max_concurrent)%Z.

Definition rule (max_concurrent : Z) : ConcurrencyRule :=
  {| rules.name := "MaxConcurrencyRule(" +:+ pretty max_concurrent +:+ ")";
     rules.can_run := can_run max_concurrent |}.

End MaxConcurrencyRule.

(** ** src/concurrency/manager.py *)

Module ConcurrencyManager.

(** [self.rules], in registration order. *)
Definition add_rule (rule : ConcurrencyRule) (rules : list ConcurrencyRule)
  : list ConcurrencyRule := rules ++ [rule].

(** The loop returns [False] at the first rule that refuses. *)
Fixpoint can_run (rules : list ConcurrencyRule)
    (models : gmap string ModelScoreConfig)
    (job : Job) (active_jobs : list Job) : bool :=
  match rules with
  | [] => true
  | rule :: rest =>
      if negb (rule.(rules.can_run) models job active_jobs) then false
      else can_run rest models job active_jobs
  end.

End ConcurrencyManager.

(** ** src/queuing/scheduler.py *)

Record Scheduler := {
  queues : list (string * list Job);
  active_jobs : list Job;
  concurrency_manager : list ConcurrencyRule;
  _shutdown_event : bool;
  _job_complete_event : bool;
  _new_job_event : bool
}.

Definition set_queues (qs : list (string * list Job)) (s : Scheduler) :=
  {| queues := qs; active_jobs := active_jobs s;
     concurrency_manager := concurrency_manager s;
     _shutdown_event := _shutdown_event s;
     _job_complete_event := _job_complete_event s;
     _new_job_event := _new_job_event s |}.

Definition set_active_jobs (l : list Job) (s : Scheduler) :=
  {| queues := queues s; active_jobs := l;
     concurrency_manager := concurrency_manager s;
     _shutdown_event := _shutdown_event s;
     _job_complete_event := _job_complete_event s;
     _new_job_event := _new_job_event s |}.

Definition set_events (shutdown job_complete new_job : bool) (s : Scheduler) :=
  {| queues := queues s; active_jobs := active_jobs s;
     concurrency_manager := concurrency_manager s;
     _shutdown_event := shutdown;
     _job_complete_event := job_complete;
     _new_job_event := new_job |}.

Definition _setup_default_rules (rules : list ConcurrencyRule)
  : list ConcurrencyRule :=
  ConcurrencyManager.add_rule (MaxConcurrencyRule.rule 10)
    (ConcurrencyManager.add_rule ResourceLimitRule.rule
       (ConcurrencyManager.add_rule ExclusiveModelRule.rule rules)).

(** [Scheduler.__init__] *)
Definition Scheduler_init : Scheduler :=
  {| queues := []; active_jobs := [];
     concurrency_manager := _setup_default_rules [];
     _shutdown_event := false;
     _job_complete_event := false;
     _new_job_event := false |}.

Definition enqueue_job (job : Job) (s : Scheduler) : Scheduler :=
  let m := resolved_model_id job in
  let qs :=
    match dict_get m (queues s) with
    | None => dict_set m [] (queues s)
    | Some _ => queues s
    end in
  let qs := dict_set m (default [] (dict_get m qs) ++ [job]) qs in
  set_events (_shutdown_event s) (_job_complete_event s) true
    (set_queues qs s).

(** Step 1 of the pass: [[m for m, q in self.queues.items() if q]]. *)
Definition candidate_models (s : Scheduler) : list string :=
  (filter (λ mq : string * list Job, mq.2 ≠ []) (queues s)).*1.

(** The set comprehension over [active_jobs]. *)
Definition active_models (s : Scheduler) : list string :=
  resolved_model_id <$> active_jobs s.

Definition sort_key (models : gmap string ModelScoreConfig)
    (default_model_score : ModelScoreConfig)
    (active_models : list string) (model_id : string) : Z * Z :=
  let is_active := if bool_decide (model_id ∈ active_models) then 0%Z else 1%Z in
  let score_config := default default_model_score (models !! model_id) in
  let prio := base_priority score_config in
  (is_active, - prio)%Z.

(** Python orders tuples lexicographically. *)
Definition tuple_le (a b : Z * Z) : bool :=
  (a.1 <? b.1)%Z || ((a.1 =? b.1)%Z && (a.2 <=? b.2)%Z).

(** [list.sort(key=...)] is stable: an element goes in front of the first
    later element whose key is not smaller. *)
Fixpoint insert_by_key {A} (key : A → Z * Z) (x : A) (l : list A) : list A :=
  match l with
  | [] => [x]
  | y :: l' =>
      if tuple_le (key x) (key y) then x :: y :: l'
      else y :: insert_by_key key x l'
  end.

Definition sort_by_key {A} (key : A → Z * Z) (l : list A) : list A :=
  foldr (insert_by_key key) [] l.

(** One iteration of the loop over the sorted candidates: the scheduler, the
    execution tasks created so far and the counter [started].  The lookup
    [self.queues[model_id]] cannot miss, the candidates being keys of the
    dictionary, from which nothing is ever deleted. *)
Definition schedule_head (models : gmap string ModelScoreConfig)
    (st : Scheduler * list Job * nat) (model_id : string)
  : Scheduler * list Job * nat :=
  let '(s, tasks, started) := st in
  match dict_get model_id (queues s) with
  | Some (job :: rest) =>                       (* [job = queue[0]] *)
      if ConcurrencyManager.can_run (concurrency_manager s) models job
           (active_jobs s)
      then (set_active_jobs (active_jobs s ++ [job])
              (set_queues (dict_set model_id rest (queues s)) s),
            tasks ++ [job], S started)
      else st
  | _ => st
  end.

Definition sorted_candidates (models : gmap string ModelScoreConfig)
    (default_model_score : ModelScoreConfig) (s : Scheduler) : list string :=
  sort_by_key (sort_key models default_model_score (active_models s))
    (candidate_models s).

(** The pass once the model records are loaded. *)
Definition schedule_heads (models : gmap string ModelScoreConfig)
    (default_model_score : ModelScoreConfig) (s : Scheduler)
  : Scheduler * list Job * nat :=
  foldl (schedule_head models) (s, [], 0)
    (sorted_candidates models default_model_score s).

(** [_schedule_pending_jobs]: the new scheduler, the execution tasks it
    created and the number of jobs started.  [load_models] is the outcome of
    reading the model records; the first read happens in [sort_key], so only
    when there is a candidate, and the pass has no suspension point in which
    the records could change. *)
Definition _schedule_pending_jobs
    (load_models : result (gmap string ModelScoreConfig))
    (default_model_score : ModelScoreConfig) (s : Scheduler)
  : result (Scheduler * list Job * nat) :=
  if decide (candidate_models s = []) then Ok (s, [], 0)
  else
    match load_models with
    | Raise e => Raise e
    | Ok models => Ok (schedule_heads models default_model_score s)
    end.

(** [list.remove]: drops the first element equal to [job].  The handler
    gives every job object an id of its own, and the jobs of a scheduler
    are compared by it: this is Python's comparison as long as the jobs
    listed under the id of [job] are [job] itself. *)
Fixpoint list_remove (job : Job) (l : list Job) : list Job :=
  match l with
  | [] => []
  | j :: l' =>
      if decide (job_id j = job_id job) then l' else j :: list_remove job l'
  end.

(** The [finally] block of [_execute_job], on the scheduler. *)
Definition finish_job (job : Job) (s : Scheduler) : Scheduler :=
  let active :=
    if bool_decide (job_id job ∈ job_id <$> active_jobs s)
    then list_remove job (active_jobs s)
    else active_jobs s in
  set_events (_shutdown_event s) true (_new_job_event s)
    (set_active_jobs active s).

(** ** The world outside the process

    What the adapters and the registry obtain by I/O is an input: the
    provider records on disk, the host path, and what each backend answers. *)

(** A provider record of [providers/*.yaml], with the keys the engine reads. *)
Record ProviderConfig := {
  config_provider_id : string;              (* "" when the key is absent *)
  provider_type : string;
  models_path : string;                     (* api.models.path *)
  declared_models : option (list string);   (* api.models.declared_models *)
  start_enabled : bool;                     (* start.enabled *)
  keep_warm : bool;                         (* policy.keep_warm *)
  detect_method : string;                   (* detect.method *)
  binary_name : option string;              (* detect.binary_name *)
  api_base_url : option string;             (* api.base_url *)
  health_timeout_seconds : option Q         (* api.health.timeout_seconds *)
}.

(** The answer to the GET on the models path: the client raised, or a
    status code with the model ids the adapter's comprehension extracts from
    the body ([None] when decoding or indexing the body raises). *)
Inductive models_reply :=
  | ModelsRaised
  | ModelsReply (status_code : Z) (listing : option (list string)).

(** The answer to the chat POST: a transport failure, or a status code with
    the body text and, when it decodes, the canonical envelope. *)
Inductive chat_reply :=
  | ChatConnectError
  | ChatReadTimeout
  | ChatOtherError (message : string)
  | ChatReply (status_code : Z) (text : string)
              (body : option ChatCompletionResponse).

Record World := {
  provider_files : list ProviderConfig;   (* parsed records, listing order *)
  which : string → bool;                  (* shutil.which finds the binary *)
  probe_health : string → bool;           (* provider id: health probe *)
  start_ok : string → bool;               (* provider id: start() result *)
  start_raises : string → option exn;     (* provider id: start() raises *)
  stop_raises : string → option exn;      (* provider id: stop() raises *)
  health_after_start : string → bool;
  models_get : string → string → models_reply;  (* provider id, path *)
  chat_post : string → ChatCompletionRequest → chat_reply
}.

(** Network requests issued by a call. *)
Inductive io_event := GET (pid path : string).

(** ** src/providers/openai_compat.py *)

Module OpenAICompatProvider.

Definition list_models (w : World) (config : ProviderConfig)
  : list string * list io_event :=
  let pid := config_provider_id config in
  match declared_models config with
  | Some (m :: declared) => (m :: declared, [])       (* [if declared:] *)
  | _ =>
      let path := models_path config in
      match models_get w pid path with
      | ModelsReply status_code listing =>
          if (status_code =? 200)%Z
          then (default [] listing, [GET pid path])
          else ([], [GET pid path])
      | ModelsRaised => ([], [GET pid path])
      end
  end.

Definition chat_completion (w : World) (config : ProviderConfig)
    (request : ChatCompletionRequest) : result ChatCompletionResponse :=
  let pid := config_provider_id config in
  match chat_post w pid request with
  | ChatReply status_code text body =>
      if negb (status_code =? 200)%Z
      then Raise (GatewayError_default
                    ("Provider error: " +:+ pretty status_code +:+ " - " +:+ text))
      else match body with
           | Some response => Ok response
           | None => Raise (GatewayError_default ("Unknown error: " +:+ text))
           end
  | ChatConnectError => Raise (ProviderUnreachableError pid "")
  | ChatReadTimeout => Raise (ProviderTimeoutError pid)
  | ChatOtherError message =>
      Raise (GatewayError_default ("Unknown error: " +:+ message))
  end.

End OpenAICompatProvider.

(** ** src/providers/ollama.py *)

Module OllamaProvider.

Definition list_models (w : World) (config : ProviderConfig)
  : list string * list io_event :=
  let pid := config_provider_id config in
  let path := models_path config in
  match models_get w pid path with
  | ModelsReply status_code listing =>
      if (status_code =? 200)%Z
      then (default [] listing, [GET pid path])
      else ([], [GET pid path])
  | ModelsRaised => ([], [GET pid path])
  end.

(** [body] is the reply already translated to the canonical envelope. *)
Definition chat_completion (w : World) (config : ProviderConfig)
    (request : ChatCompletionRequest) : result ChatCompletionResponse :=
  let pid := config_provider_id config in
  match chat_post w pid request with
  | ChatReply status_code text body =>
      if negb (status_code =? 200)%Z
      then Raise (GatewayError_default
                    ("Ollama error: " +:+ pretty status_code +:+ " - " +:+ text))
      else match body with
           | Some response => Ok response
           | None => Raise (GatewayError_default ("Unknown error: " +:+ text))
           end
  | ChatConnectError => Raise (ProviderUnreachableError pid "")
  | ChatReadTimeout => Raise (ProviderTimeoutError pid)
  | ChatOtherError message =>
      Raise (GatewayError_default ("Unknown error: " +:+ message))
  end.

End OllamaProvider.

(** ** src/providers/base.py: the adapter interface and its two variants *)

Inductive provider_class := Ollama | OpenAICompat.

Record Provider := {
  class : provider_class;
  config : ProviderConfig
}.

Definition is_managed (p : Provider) : bool := start_enabled (config p).

Definition health_check (w : World) (p : Provider) : bool :=
  probe_health w (config_provider_id (config p)).

Definition list_models (w : World) (p : Provider)
  : list string * list io_event :=
  match class p with
  | Ollama => OllamaProvider.list_models w (config p)
  | OpenAICompat => OpenAICompatProvider.list_models w (config p)
  end.

Definition chat_completion (w : World) (p : Provider)
    (request : ChatCompletionRequest) : result ChatCompletionResponse :=
  match class p with
  | Ollama => OllamaProvider.chat_completion w (config p) request
  | OpenAICompat => OpenAICompatProvider.chat_completion w (config p) request
  end.

Definition start (w : World) (p : Provider) : bool :=
  if negb (is_managed p) then true
  else start_ok w (config_provider_id (config p)).

(** What [start()] ends in when it does not return: on a managed provider
    it reads [start.command] and [start.args] ([KeyError] when the record
    lacks one), and the process manager joins the arguments for its log
    line before its own [try] ([TypeError] when one is not a string). *)
Definition start_error (w : World) (p : Provider) : option exn :=
  if negb (is_managed p) then None
  else start_raises w (config_provider_id (config p)).

(** What [stop()] ends in when it does not return: on a managed provider
    it reads [stop.method] ([KeyError] when the record has none). *)
Definition stop_error (w : World) (p : Provider) : option exn :=
  if negb (is_managed p) then None
  else stop_raises w (config_provider_id (config p)).

(** ** src/registry.py *)

Record Registry := {
  providers : list (string * Provider);     (* provider id -> adapter *)
  model_map : gmap string string;           (* model id -> provider id *)
  last_refresh_timestamp : Q
}.

Definition Registry_init : Registry :=
  {| providers := []; model_map := ∅; last_refresh_timestamp := 0 |}.

(** [OllamaProvider(config)] and [OpenAICompatProvider(config)]: the
    constructor reads [config["api"]["base_url"]] and
    [config["api"]["health"]["timeout_seconds"]], and raises [KeyError] on
    the first key it does not find. *)
Definition new_provider (cls : provider_class) (config : ProviderConfig)
  : result Provider :=
  match api_base_url config, health_timeout_seconds config with
  | None, _ => Raise (KeyError "base_url")
  | Some _, None => Raise (KeyError "timeout_seconds")
  | Some _, Some _ => Ok {| class := cls; config := config |}
  end.

Definition _register_provider (config : ProviderConfig)
    (providers : list (string * Provider))
  : result (list (string * Provider)) :=
  let p_type := provider_type config in
  let p_id := config_provider_id config in
  if bool_decide (p_id = "") then Ok providers
  else if bool_decide (p_type = "ollama")
  then match new_provider Ollama config with
       | Ok provider => Ok (dict_set p_id provider providers)
       | Raise e => Raise e
       end
  else if bool_decide (p_type = "openai_compat")
  then match new_provider OpenAICompat config with
       | Ok provider => Ok (dict_set p_id provider providers)
       | Raise e => Raise e
       end
  else Ok providers.

(** The body of the loop over the files: [except Exception] logs what
    [_register_provider] raises and goes on to the next file. *)
Definition register_or_skip (config : ProviderConfig)
    (providers : list (string * Provider)) : list (string * Provider) :=
  match _register_provider config providers with
  | Ok providers' => providers'
  | Raise _ => providers
  end.

Definition load_providers_from_disk (w : World)
    (providers : list (string * Provider)) : list (string * Provider) :=
  foldl (λ ps config, register_or_skip config ps) providers
        (provider_files w).

(** The inner loop over a provider's models: the first owner wins. *)
Definition register_models (p_id : string) (found : list string)
    (model_map : gmap string string) : gmap string string :=
  foldl (λ mm m, match mm !! m with
                 | Some _ => mm
                 | None => <[m := p_id]> mm
                 end)
        model_map found.

(** One iteration of the loop over the providers.  Besides the new map it
    gives the map another task can observe while this iteration is
    suspended: the health probe is an HTTP request, so every provider that
    is not skipped suspends the refresh with the map as it stands, and the
    start-up sleep and the listing request show that same map; the
    insertions that follow run without suspension ([stop] does not yield
    to the event loop). *)
Definition detect_provider (w : World) (p : Provider)
    (model_map : gmap string string)
  : list (gmap string string) * gmap string string :=
  let p_id := config_provider_id (config p) in
  let binary_missing :=
    match binary_name (config p) with
    | Some binary => negb (bool_decide (binary = "")) && negb (which w binary)
    | None => false
    end in
  if bool_decide (is_Some (String.index 0 "path" (detect_method (config p))))
     && binary_missing && is_managed p
  then ([], model_map)
  else
    let is_healthy := health_check w p in
    let is_healthy :=
      if negb is_healthy && is_managed p
      then (if start w p then health_after_start w p_id else is_healthy)
      else is_healthy in
    if is_healthy
    then ([model_map], register_models p_id (list_models w p).1 model_map)
    else ([model_map], model_map).

Fixpoint detect_loop (w : World) (ps : list (string * Provider))
    (model_map : gmap string string)
  : list (gmap string string) * gmap string string :=
  match ps with
  | [] => ([], model_map)
  | (_, p) :: ps' =>
      let '(seen, model_map') := detect_provider w p model_map in
      let '(seen', final) := detect_loop w ps' model_map' in
      (seen ++ seen', final)
  end.

(** [detect_and_register_models]: [self.model_map.clear()], then the loop.
    The first component lists, in order, the maps visible at the suspension
    points. *)
Definition detect_and_register_models (w : World) (reg : Registry)
  : list (gmap string string) * Registry :=
  let '(seen, final) := detect_loop w (providers reg) ∅ in
  (seen, {| providers := providers reg; model_map := final;
            last_refresh_timestamp := last_refresh_timestamp reg |}).

(** [refresh], called at event-loop time [now]. *)
Definition refresh (w : World) (now : Q) (reg : Registry)
  : list (gmap string string) * Registry :=
  let ps := load_providers_from_disk w [] in
  let '(seen, reg') :=
    detect_and_register_models w
      {| providers := ps; model_map := model_map reg;
         last_refresh_timestamp := last_refresh_timestamp reg |} in
  (seen, {| providers := providers reg'; model_map := model_map reg';
            last_refresh_timestamp := now |}).

Definition get_provider_for_model (reg : Registry) (model_id : string)
  : option Provider :=
  match model_map reg !! model_id with
  | Some p_id =>
      if bool_decide (p_id = "") then None else dict_get p_id (providers reg)
  | None => None
  end.

(** ** src/queuing/scheduler.py: the execution task *)

Definition set_status (st : JobStatus) (job : Job) : Job :=
  {| job_id := job_id job; original_model_id := original_model_id job;
     resolved_model_id := resolved_model_id job;
     provider_id := provider_id job; route_name := route_name job;
     request := request job; status := st; error := error job;
     normalized_error := normalized_error job; response := response job |}.

Definition set_provider_id (pid : option string) (job : Job) : Job :=
  {| job_id := job_id job; original_model_id := original_model_id job;
     resolved_model_id := resolved_model_id job;
     provider_id := pid; route_name := route_name job;
     request := request job; status := status job; error := error job;
     normalized_error := normalized_error job; response := response job |}.

Definition set_response (r : ChatCompletionResponse) (job : Job) : Job :=
  {| job_id := job_id job; original_model_id := original_model_id job;
     resolved_model_id := resolved_model_id job;
     provider_id := provider_id job; route_name := route_name job;
     request := request job; status := status job; error := error job;
     normalized_error := normalized_error job; response := Some r |}.

(** The [except Exception as e] block. *)
Definition job_failed (e : exn) (job : Job) : Job :=
  {| job_id := job_id job; original_model_id := original_model_id job;
     resolved_model_id := resolved_model_id job;
     provider_id := provider_id job; route_name := route_name job;
     request := request job; status := Error;
     error := Some (exn_message e);
     normalized_error :=
       match normalized_code e with            (* hasattr(e, "normalized_code") *)
       | Some code => Some code
       | None => normalized_error job
       end;
     response := response job |}.

(** The step [Ensure Running]: a provider whose probe fails is started,
    and the result of [start()] is not read; what [start()] raises ends the
    [try] block. *)
Definition ensure_running (w : World) (provider : Provider) : option exn :=
  if health_check w provider then None else start_error w provider.

(** [_execute_job], on the job object: the job as the task leaves it. *)
Definition _execute_job (w : World) (reg : Registry) (job : Job) : Job :=
  let job := set_status Running job in
  match get_provider_for_model reg (resolved_model_id job) with
  | None =>
      job_failed
        (GatewayError ("No provider found for " +:+ resolved_model_id job)
                      (PyInt 500))
        job
  | Some provider =>
      let job := set_provider_id (Some (config_provider_id (config provider))) job in
      match ensure_running w provider with
      | Some e => job_failed e job
      | None =>
          match chat_completion w provider (request job) with
          | Ok response => set_status Completed (set_response response job)
          | Raise e => job_failed e job
          end
      end
  end.

(** ** The dispatch loop *)








(** ** src/routing.py *)

Definition resolve_model (cfg : Config) (model_input : string)
  : string * option string * list string * list string :=
  if String.prefix "route:" model_input then
    let route_name :=
      String.substring 6 (String.length model_input - 6) model_input in
    match routes cfg !! route_name with
    | Some route_config =>
        (primary_model route_config, Some route_name,
         fallback_models route_config, fallback_on route_config)
    | None => (model_input, None, [], [])
    end
  else (model_input, None, [], []).

(** ** src/app.py: the chat-completion handler *)

(** An entry of [attempts_log]; a skipped candidate has no [normalized] key. *)
Record Attempt := {
  attempt_model : string;
  attempt_error : option string;
  attempt_normalized : option pyval
}.

(** The process state one request goes through. *)
Record Gateway := {
  registry : Registry;
  clock : Q;                    (* event-loop time, seconds *)
  refresh_calls : list Q;       (* the times [Registry.refresh] was called *)
  enqueued : list Job           (* jobs handed to [enqueue_job], in order *)
}.

(** How long the awaited operations take, and the ids given to new jobs. *)
Record Timing := {
  refresh_seconds : Q;
  job_seconds : Q;
  uuid4 : nat → string
}.

Definition gateway_refresh (w : World) (t : Timing) (g : Gateway) : Gateway :=
  {| registry := (refresh w (clock g) (registry g)).2;
     clock := (clock g + refresh_seconds t)%Q;
     refresh_calls := refresh_calls g ++ [clock g];
     enqueued := enqueued g |}.

Definition gateway_enqueue (t : Timing) (job : Job) (g : Gateway) : Gateway :=
  {| registry := registry g;
     clock := (clock g + job_seconds t)%Q;
     refresh_calls := refresh_calls g;
     enqueued := enqueued g ++ [job] |}.

(** The local variables of the handler that the loop updates.  The request
    object is shared with every job built from it. *)
Record Handler := {
  gateway : Gateway;
  shared_request : ChatCompletionRequest;
  attempts_log : list Attempt;
  last_error : option string
}.

Inductive loop_control :=
  | Continue
  | Break
  | Return (r : ChatCompletionResponse)
  | Polling.                    (* the job never leaves pending/running *)

Section ChatCompletions.

Variable cfg : Config.
Variable w : World.
Variable t : Timing.
(** The job object as the handler finds it when its polling ends: what the
    scheduler and the execution task made of the enqueued job. *)
Variable await_job : Gateway → Job → Job.

(** The check at the top of the loop body: a missing model triggers a
    refresh when [auto_refresh_on_miss] is set. *)
Definition after_miss (model_id : string) (g : Gateway) : Gateway :=
  if bool_decide (model_map (registry g) !! model_id = None)
     && auto_refresh_on_miss (runtime cfg)
  then gateway_refresh w t g
  else g.

(** [Job(...)] followed by [job.request.model = model_id]. *)
Definition new_job (route_name : option string) (model_id : string)
    (h : Handler) (g : Gateway) : Job :=
  {| job_id := uuid4 t (length (enqueued g));
     original_model_id := model (shared_request h);
     resolved_model_id := model_id;
     provider_id := None; route_name := route_name;
     request := {| model := model_id;
                   messages := messages (shared_request h) |};
     status := Pending; error := None;
     normalized_error := None; response := None |}.

Definition candidate_body (candidates : list string)
    (route_name : option string) (fallback_triggers : list string)
    (i : nat) (model_id : string) (h : Handler) : Handler * loop_control :=
  let g := after_miss model_id (gateway h) in
  if bool_decide (model_map (registry g) !! model_id = None) then
    let error_msg := "Model " +:+ model_id +:+ " not found" in
    ({| gateway := g; shared_request := shared_request h;
        attempts_log := attempts_log h ++
          [{| attempt_model := model_id; attempt_error := Some error_msg;
              attempt_normalized := None |}];
        last_error := Some error_msg |}, Continue)
  else
    let job := new_job route_name model_id h g in
    let g := gateway_enqueue t job g in
    let request' := request job in
    let job := await_job g job in
    if bool_decide (status job = Pending ∨ status job = Running) then
      ({| gateway := g; shared_request := request';
          attempts_log := attempts_log h; last_error := last_error h |},
       Polling)
    else
      match bool_decide (status job = Completed), response job with
      | true, Some r =>
          ({| gateway := g; shared_request := request';
              attempts_log := attempts_log h; last_error := last_error h |},
           Return r)
      | _, _ =>
          let norm_error := py_or (normalized_error job) (PyStr "other") in
          let h' :=
            {| gateway := g; shared_request := request';
               attempts_log := attempts_log h ++
                 [{| attempt_model := model_id; attempt_error := error job;
                     attempt_normalized := Some norm_error |}];
               last_error := error job |} in
          if (Z.of_nat i <? Z.of_nat (length candidates) - 1)%Z then
            if enable_fallback (routing cfg)
               && bool_decide (norm_error ∈ PyStr <$> fallback_triggers)
            then (h', Continue)
            else (h', Break)
          else (h', Break)
      end.

(** [for i, model_id in enumerate(candidates)], from index [i]. *)
Fixpoint for_candidates (candidates : list string)
    (route_name : option string) (fallback_triggers : list string)
    (i : nat) (remaining : list string) (h : Handler)
  : Handler * loop_control :=
  match remaining with
  | [] => (h, Break)
  | model_id :: remaining' =>
      match candidate_body candidates route_name fallback_triggers i model_id h with
      | (h', Continue) =>
          for_candidates candidates route_name fallback_triggers (S i)
            remaining' h'
      | (h', control) => (h', control)
      end
  end.

Inductive http_outcome :=
  | Response (r : ChatCompletionResponse)
  | HTTPException (status_code : Z) (attempts : list Attempt)
  | NoResponse.                 (* the handler polls for ever *)

(** [[primary_model] + fallback_models] *)
Definition candidates_of (request : ChatCompletionRequest) : list string :=
  let '(primary_model, _, fallback_models, _) :=
    resolve_model cfg (model request) in
  primary_model :: fallback_models.

Definition chat_completions (request : ChatCompletionRequest) (g : Gateway)
  : Gateway * http_outcome :=
  let '(primary_model, route_name, fallback_models, fallback_triggers) :=
    resolve_model cfg (model request) in
  let candidates := primary_model :: fallback_models in
  let h := {| gateway := g; shared_request := request;
              attempts_log := []; last_error := None |} in
  match for_candidates candidates route_name fallback_triggers 0 candidates h with
  | (h', Return r) => (gateway h', Response r)
  | (h', Polling) => (gateway h', NoResponse)
  | (h', _) => (gateway h', HTTPException 500 (attempts_log h'))
  end.

End ChatCompletions.

(** ** src/app.py: the health handler *)

(** What an attribute lookup yields, as far as the handler looks at it. *)
Inductive attr_value :=
  | AttrNone
  | AttrStr (s : string)
  | AttrObject.                 (* containers, events, bound methods *)

Definition AttributeError (class_name attr : string) : exn :=
  PlainException ("'" +:+ class_name +:+ "' object has no attribute '"
                  +:+ attr +:+ "'").

(** The attributes of an instance of the queuing [Scheduler]: those that
    [__init__] assigns and the methods of the class. *)
Definition Scheduler_attributes : list string :=
  ["queues"; "active_jobs"; "concurrency_manager"; "processing_task";
   "_shutdown_event"; "_job_complete_event"; "_new_job_event";
   "_setup_default_rules"; "enqueue_job"; "run_process_loop";
   "_schedule_pending_jobs"; "_execute_job"].

Definition Scheduler_getattr (s : Scheduler) (attr : string)
  : result attr_value :=
  if bool_decide (attr ∈ Scheduler_attributes) then Ok AttrObject
  else Raise (AttributeError "Scheduler" attr).

(** src/scheduler.py: the single-active-model scheduler. *)
Record LegacyScheduler := {
  legacy_queues : list (string * list Job);
  active_model_id : option string;
  active_provider_id : option string
}.

Definition LegacyScheduler_attributes : list string :=
  ["queues"; "global_lock"; "processing_task";
   "enqueue_job"; "process_queue"; "pick_next_model"].

Definition optional_str (o : option string) : attr_value :=
  match o with Some s => AttrStr s | None => AttrNone end.

Definition LegacyScheduler_getattr (s : LegacyScheduler) (attr : string)
  : result attr_value :=
  if bool_decide (attr = "active_model_id")
  then Ok (optional_str (active_model_id s))
  else if bool_decide (attr = "active_provider_id")
  then Ok (optional_str (active_provider_id s))
  else if bool_decide (attr ∈ LegacyScheduler_attributes) then Ok AttrObject
  else Raise (AttributeError "Scheduler" attr).

Record HealthPayload := {
  payload_status : string;
  active_model : attr_value;
  active_provider : attr_value;
  registry_models : gset string
}.

(** The dictionary display evaluates its values in order. *)
Definition health_of (getattr : string → result attr_value) (reg : Registry)
  : result HealthPayload :=
  match getattr "active_model_id" with
  | Raise e => Raise e
  | Ok am =>
      match getattr "active_provider_id" with
      | Raise e => Raise e
      | Ok ap =>
          Ok {| payload_status := "ok"; active_model := am;
                active_provider := ap;
                registry_models := dom (model_map reg) |}
      end
  end.

(** [global_scheduler] is imported from [.queuing.scheduler]. *)
Definition health (global_scheduler : Scheduler) (global_registry : Registry)
  : result HealthPayload :=
  health_of (Scheduler_getattr global_scheduler) global_registry.

(** ** Reachable scheduler states

    The scheduler starts from [Scheduler.__init__]; jobs are enqueued, the
    dispatch loop runs scheduling passes, and every execution task ends in
    the [finally] block.  The model records are the same at every step. *)
Inductive reachable (models : gmap string ModelScoreConfig)
    (default_model_score : ModelScoreConfig) : Scheduler → Prop :=
  | reach_init :
      reachable models default_model_score Scheduler_init
  | reach_enqueue job s :
      reachable models default_model_score s →
      reachable models default_model_score (enqueue_job job s)
  | reach_schedule s s' tasks started :
      reachable models default_model_score s →
      _schedule_pending_jobs (Ok models) default_model_score s
        = Ok (s', tasks, started) →
      reachable models default_model_score s'
  | reach_finish job s :
      reachable models default_model_score s →
      reachable models default_model_score (finish_job job s).


(** ** Notions used in the statements *)


(** The place of a non-negative float among the floats, in units, with
    [overflow] for infinity; the sum of two such floats, on their places;
    and the places floats can have. *)
Definition level (x : float) : Z :=
  match round x with
  | FFinite v => v
  | FPosInf => overflow
  | FNegInf => (- overflow)%Z
  | FNaN => (-1)%Z
  end.

Definition level_add (a b : Z) : Z := Z.min overflow (nearest (a + b) 1).

Definition level_fixed (a : Z) : Prop :=
  (0 ≤ a ≤ overflow)%Z ∧ (a = overflow ∨ nearest a 1 = a).

(** The order [list.sort] establishes. *)
Definition key_le {A} (key : A → Z * Z) (x y : A) : Prop :=
  tuple_le (key x) (key y) = true.

Definition exclusive_alone (models : gmap string ModelScoreConfig)
    (l : list Job) : Prop :=
  (∃ job, job ∈ l ∧
     ExclusiveModelRule._is_exclusive models (resolved_model_id job) = true) →
  length l = 1.


(** What the loop keeps: the counter is the number of tasks created, the
    active set grows by exactly those tasks, and the rule list is fixed. *)
Definition pass_progress (s : Scheduler) (st : Scheduler * list Job * nat)
  : Prop :=
  st.2 = length st.1.2 ∧
  active_jobs st.1.1 = active_jobs s ++ st.1.2 ∧
  concurrency_manager st.1.1 = concurrency_manager s ∧
  ∀ m, dict_get m (queues st.1.1) = dict_get m (queues s) ∨
       ∃ job rest, dict_get m (queues s) = Some (job :: rest) ∧
                   dict_get m (queues st.1.1) = Some rest ∧
                   job ∈ st.1.2.

(** ** The ordering the specification describes

    Following the specification's words: candidates are sorted by the key
    [(is_active ? 0 : 1, -base_priority)], where a model is active when its
    provider is already executing a job.  The provider of a model is the one
    the registry's model map gives. *)
Definition spec_sort_key (model_map : gmap string string)
    (models : gmap string ModelScoreConfig)
    (default_model_score : ModelScoreConfig)
    (active_jobs : list Job) (model_id : string) : Z * Z :=
  let busy_providers :=
    omap (λ job, model_map !! resolved_model_id job) active_jobs in
  let is_active :=
    match model_map !! model_id with
    | Some p_id => if bool_decide (p_id ∈ busy_providers) then 0%Z else 1%Z
    | None => 1%Z
    end in
  (is_active,
   (- base_priority (default default_model_score (models !! model_id)))%Z).

Definition spec_sorted_candidates (model_map : gmap string string)
    (models : gmap string ModelScoreConfig)
    (default_model_score : ModelScoreConfig) (s : Scheduler) : list string :=
  sort_by_key
    (spec_sort_key model_map models default_model_score (active_jobs s))
    (candidate_models s).

(** ** Scenarios *)

Definition job_for (id model_id : string) : Job :=
  {| job_id := id; original_model_id := model_id;
     resolved_model_id := model_id; provider_id := None; route_name := None;
     request := {| model := model_id;
                   messages := [{| role := "user"; content := "hi" |}] |};
     status := Pending; error := None; normalized_error := None;
     response := None |}.

Definition with_resources (r : ModelResourceConfig) : ModelScoreConfig :=
  {| base_priority := 0; load_penalty := 0; runtime_penalty := 0;
     always_run_last := false; resources := r |}.

Definition with_priority (p : Z) : ModelScoreConfig :=
  {| base_priority := p; load_penalty := 0; runtime_penalty := 0;
     always_run_last := false; resources := ModelResourceConfig_default |}.

(** [mX] runs alone; [mY] has no record. *)
Definition exclusive_models : gmap string ModelScoreConfig :=
  {[ "mX" := with_resources
               {| cpu_usage := float_of_decimal 0;
                  gpu_usage := float_of_decimal 0;
                  vram_usage := float_of_decimal 0; exclusive := true |} ]}.

(** One [mX] job enqueued and dispatched. *)
Definition exclusive_running : Scheduler :=
  (schedule_heads exclusive_models ModelScoreConfig_default
     (enqueue_job (job_for "j1" "mX") Scheduler_init)).1.1.

(** Two models that each need 60% of the gpu. *)
Definition gpu_models : gmap string ModelScoreConfig :=
  <[ "mA" := with_resources
               {| cpu_usage := float_of_decimal 10;
                  gpu_usage := float_of_decimal 60;
                  vram_usage := float_of_decimal 0; exclusive := false |} ]>
  {[ "mB" := with_resources
               {| cpu_usage := float_of_decimal 10;
                  gpu_usage := float_of_decimal 60;
                  vram_usage := float_of_decimal 0; exclusive := false |} ]}.

Definition gpu_queued : Scheduler :=
  enqueue_job (job_for "j2" "mB")
    (enqueue_job (job_for "j1" "mA") Scheduler_init).

Definition gpu_running : Scheduler :=
  (schedule_heads gpu_models ModelScoreConfig_default gpu_queued).1.1.

(** Three models, [m1] and [m2] served by the same provider; a job for
    [m1] is running, jobs for [m2] and [m3] wait, [m3] has the higher
    priority. *)
Definition shared_provider_map : gmap string string :=
  <[ "m1" := "pA" ]> (<[ "m2" := "pA" ]> {[ "m3" := "pB" ]}).

Definition priority_models : gmap string ModelScoreConfig :=
  {[ "m3" := with_priority 5 ]}.

Definition shared_provider_state : Scheduler :=
  enqueue_job (job_for "j3" "m3")
    (enqueue_job (job_for "j2" "m2")
       (schedule_heads priority_models ModelScoreConfig_default
          (enqueue_job (job_for "j1" "m1") Scheduler_init)).1.1).

Definition provider_record (pid ptype : string)
    (declared : option (list string)) : ProviderConfig :=
  {| config_provider_id := pid; provider_type := ptype;
     models_path := "/v1/models"; declared_models := declared;
     start_enabled := false; keep_warm := false;
     detect_method := "none"; binary_name := None;
     api_base_url := Some "http://127.0.0.1:8000";
     health_timeout_seconds := Some 2%Q |}.

Definition hello (m : string) : ChatCompletionResponse :=
  {| response_id := "chatcmpl-1"; response_model := m;
     choices := [{| role := "assistant"; content := "hello" |}] |}.

(** Two healthy unmanaged backends: [pA] declares [m1] and times out on
    chat, [pB] declares [m2] and answers. *)
Definition two_providers : World :=
  {| provider_files :=
       [provider_record "pA" "openai_compat" (Some ["m1"]);
        provider_record "pB" "openai_compat" (Some ["m2"])];
     which := λ _, true;
     probe_health := λ _, true;
     start_ok := λ _, true;
     start_raises := λ _, None;
     stop_raises := λ _, None;
     health_after_start := λ _, true;
     models_get := λ _ _, ModelsRaised;
     chat_post := λ pid req,
       if bool_decide (pid = "pA") then ChatReadTimeout
       else ChatReply 200 "" (Some (hello (model req))) |}.

(** The registry once it has probed the two backends. *)
Definition two_providers_registry : Registry :=
  (refresh two_providers 0 Registry_init).2.

(** No provider record on disk. *)
Definition no_providers : World :=
  {| provider_files := [];
     which := λ _, false;
     probe_health := λ _, false;
     start_ok := λ _, false;
     start_raises := λ _, None;
     stop_raises := λ _, None;
     health_after_start := λ _, false;
     models_get := λ _ _, ModelsRaised;
     chat_post := λ _ _, ChatConnectError |}.

Definition route_config (fallback_on : list string) : Config :=
  {| routes := {[ "r1" := {| primary_model := "m1";
                             fallback_models := ["m2"];
                             fallback_on := fallback_on |} ]};
     runtime := RuntimeConfig_default;
     routing := RoutingConfig_default |}.

Definition timing : Timing :=
  {| refresh_seconds := 1; job_seconds := 2;
     uuid4 := λ n, "job-" +:+ pretty n |}.

Definition gateway_at (reg : Registry) (now : Q) : Gateway :=
  {| registry := reg; clock := now; refresh_calls := []; enqueued := [] |}.

Definition route_request : ChatCompletionRequest :=
  {| model := "route:r1";
     messages := [{| role := "user"; content := "hi" |}] |}.

(** A handler that finds every job as its execution task leaves it. *)
Definition executed (w : World) (g : Gateway) (job : Job) : Job :=
  _execute_job w (registry g) job.

(** An Ollama record that declares its models, on a backend whose listing
    endpoint answers 500. *)
Definition ollama_declared : ProviderConfig :=
  {| config_provider_id := "pO"; provider_type := "ollama";
     models_path := "/api/tags"; declared_models := Some ["llama3"];
     start_enabled := false; keep_warm := false;
     detect_method := "none"; binary_name := None;
     api_base_url := Some "http://127.0.0.1:8000";
     health_timeout_seconds := Some 2%Q |}.

Definition listing_fails : World :=
  {| provider_files := [ollama_declared];
     which := λ _, true;
     probe_health := λ _, true;
     start_ok := λ _, true;
     start_raises := λ _, None;
     stop_raises := λ _, None;
     health_after_start := λ _, true;
     models_get := λ _ _, ModelsReply 500 None;
     chat_post := λ _ _, ChatConnectError |}.



(** ** Every job the scheduler holds *)

(** The jobs waiting in the queues, queue by queue, then the running ones. *)
Definition all_jobs (s : Scheduler) : list Job :=
  concat (queues s).*2 ++ active_jobs s.







(** ** What a provider contributes to the model map *)

(** The models [detect_and_register_models] inserts for a provider: its
    listing when it is probed and found healthy (after a start, if it is
    managed), nothing when it is skipped or unhealthy. *)
Definition probed_models (w : World) (p : Provider) : list string :=
  let p_id := config_provider_id (config p) in
  let binary_missing :=
    match binary_name (config p) with
    | Some binary => negb (bool_decide (binary = "")) && negb (which w binary)
    | None => false
    end in
  if bool_decide (is_Some (String.index 0 "path" (detect_method (config p))))
     && binary_missing && is_managed p
  then []
  else
    let is_healthy := health_check w p in
    let is_healthy :=
      if negb is_healthy && is_managed p
      then (if start w p then health_after_start w p_id else is_healthy)
      else is_healthy in
    if is_healthy then (list_models w p).1 else [].

(** A record [_register_provider] files an adapter for: it has an id and
    a known type, and the two keys the adapter's constructor reads. *)
Definition registrable (c : ProviderConfig) : Prop :=
  config_provider_id c ≠ "" ∧
  (provider_type c = "ollama" ∨ provider_type c = "openai_compat") ∧
  is_Some (api_base_url c) ∧ is_Some (health_timeout_seconds c).

#[local] Instance registrable_dec c : Decision (registrable c).
Proof. unfold registrable. apply _. Defined.

(** The adapter [_register_provider] builds for an accepted record. *)
Definition provider_of (c : ProviderConfig) : Provider :=
  {| class := if bool_decide (provider_type c = "ollama")
              then Ollama else OpenAICompat;
     config := c |}.

(** The record the handler logs for a candidate it cannot find. *)
Definition not_found_attempt (model_id : string) : Attempt :=
  {| attempt_model := model_id;
     attempt_error := Some ("Model " +:+ model_id +:+ " not found");
     attempt_normalized := None |}.

(** What the handler guarantees of a job at the moment it enqueues it. *)
Definition freshly_built (rn : option string) (job : Job) : Prop :=
  model (request job) = resolved_model_id job ∧
  status job = Pending ∧
  provider_id job = None ∧
  response job = None ∧
  route_name job = rn.

(** The route configuration with [auto_refresh_on_miss] switched off. *)
Definition no_refresh_config : Config :=
  {| routes := routes (route_config ["timeout"]);
     runtime := {| auto_refresh_on_miss := false;
                   refresh_cooldown_seconds := 30;
                   request_timeout_seconds := 600 |};
     routing := RoutingConfig_default |}.

(** ** src/app.py: the model listing *)

Record ModelCard := {
  card_id : string;
  owned_by : string
}.

(** [GET /v1/models]: a card per model of the map, then a card
    [route:<name>] per route.  Within each group Python follows the order
    of the dictionary; here the order is that of the finite map. *)
Definition list_models_handler (cfg : Config) (reg : Registry)
  : list ModelCard :=
  ((λ kv : string * string,
      {| card_id := kv.1; owned_by := "local-ai-orchestrator" |})
     <$> map_to_list (model_map reg))
  ++ ((λ kv : string * RouteConfig,
         {| card_id := "route:" +:+ kv.1;
            owned_by := "local-ai-orchestrator-route" |})
        <$> map_to_list (routes cfg)).

(** ** src/scheduler.py: picking the next model *)

(** The candidates of [pick_next_model], each with the job at the head of
    its queue ([self.queues[m][0]]). *)
Definition legacy_candidates (queues : list (string * list Job))
  : list (string * Job) :=
  omap (λ mq : string * list Job,
          match mq.2 with
          | oldest :: _ => Some (mq.1, oldest)
          | [] => None
          end) queues.

(** The score of a candidate.  [created_at] gives the creation time of a
    job, [now] is [time.time()]; times and the aging bonus are floats,
    taken here as the finite numbers they stand for, without rounding.
    What is proved of the processing loop below uses only that a candidate
    is picked whenever there is one, as the float comparison does unless a
    score is NaN or [-inf]. *)
Definition legacy_score (models : gmap string ModelScoreConfig)
    (default_model_score : ModelScoreConfig) (aging_bonus_per_second : Q)
    (created_at : Job → Q) (now : Q) (c : string * Job) : Q :=
  let score_config := default default_model_score (models !! c.1) in
  if always_run_last score_config then (-1000)%Q
  else
    let age := (now - created_at c.2)%Q in
    let bonus := (age * aging_bonus_per_second)%Q in
    (inject_Z (base_priority score_config)
     - inject_Z (load_penalty score_config) + bonus)%Q.

(** The loop over the candidates: [best_model] and [best_score], the latter
    [None] while it is [-inf]. *)
Definition pick_step (score : string * Job → Q)
    (best : option string * option Q) (c : string * Job)
  : option string * option Q :=
  match best.2 with
  | None => (Some c.1, Some (score c))
  | Some best_score =>
      if Qgt_bool (score c) best_score then (Some c.1, Some (score c))
      else best
  end.

Definition pick_next_model (models : gmap string ModelScoreConfig)
    (default_model_score : ModelScoreConfig) (aging_bonus_per_second : Q)
    (created_at : Job → Q) (now : Q) (s : LegacyScheduler) : option string :=
  (foldl (pick_step (legacy_score models default_model_score
                       aging_bonus_per_second created_at now))
         (None, None) (legacy_candidates (legacy_queues s))).1.

(** What the loop has found after the candidates [seen]: nothing when
    there were none, else the first of the candidates of highest score. *)
Definition pick_best (score : string * Job → Q) (seen : list (string * Job))
    (best : option string * option Q) : Prop :=
  match best.2 with
  | None => seen = [] ∧ best.1 = None
  | Some b =>
      ∃ pre c post, seen = pre ++ c :: post ∧ best.1 = Some c.1 ∧
                    b = score c ∧
                    (∀ c', c' ∈ pre → (score c' < score c)%Q) ∧
                    (∀ c', c' ∈ post → (score c' <= score c)%Q)
  end.

(** ** src/scheduler.py: the processing loop *)

(** What one turn of the loop reads from outside the scheduler: the clock,
    the model records, the registry and the backends. *)
Record Outside := {
  time_now : Q;
  loaded_models : gmap string ModelScoreConfig;
  the_registry : Registry;
  the_world : World
}.

(** [job.status = "error"; job.error = msg] *)
Definition set_error (msg : string) (job : Job) : Job :=
  {| job_id := job_id job; original_model_id := original_model_id job;
     resolved_model_id := resolved_model_id job;
     provider_id := provider_id job; route_name := route_name job;
     request := request job; status := Error; error := Some msg;
     normalized_error := normalized_error job; response := response job |}.

(** An optional string used as a condition: [None] and the empty string
    are false. *)
Definition str_truthy (o : option string) : bool :=
  match o with
  | Some s => negb (bool_decide (s = ""))
  | None => false
  end.

(** The result of [self.queues.get(m)] used as a condition: a missing or
    empty queue is false. *)
Definition queue_truthy (o : option (list Job)) : bool :=
  match o with
  | Some (_ :: _) => true
  | _ => false
  end.

(** One turn of [while True]: the function returns, or goes round again
    (having popped a job, or not), or an exception leaves it: the one of
    [self.queues[...]], of [stop()] or of [start()], none of which is
    inside a [try]. *)
Inductive turn_outcome :=
  | Returns (s : LegacyScheduler)
  | Continues (s : LegacyScheduler) (popped : option (string * Job))
  | Raises (e : exn).

Section ProcessQueue.

Variable default_model_score : ModelScoreConfig.
Variable aging_bonus_per_second : Q.
Variable created_at : Job → Q.

(** Step 1 of the loop body: keep the current model if it has jobs, else
    pick the next one. *)
Definition determine_active_model (o : Outside) (s : LegacyScheduler)
  : option string :=
  if negb (str_truthy (active_model_id s))
     || negb (queue_truthy
                (active_model_id s ≫= λ m, dict_get m (legacy_queues s)))
  then pick_next_model (loaded_models o) default_model_score
         aging_bonus_per_second created_at (time_now o) s
  else active_model_id s.

(** [if self.active_provider_id: ... await prev_provider.stop()]: what the
    stop of the previous provider raises, if anything. *)
Definition stop_previous (o : Outside) (s : LegacyScheduler)
  : option exn :=
  if str_truthy (active_provider_id s) then
    match dict_get (default "" (active_provider_id s))
                   (providers (the_registry o)) with
    | Some prev_provider => stop_error (the_world o) prev_provider
    | None => None
    end
  else None.

(** [if not await provider.health_check(): await provider.start()]: what
    the start of the new provider raises, if anything. *)
Definition start_next (o : Outside) (provider : Provider) : option exn :=
  if health_check (the_world o) provider then None
  else start_error (the_world o) provider.

Arguments stop_previous : simpl never.
Arguments start_next : simpl never.

(** The body of the loop.  [health_after_start] is the answer of the probe
    that follows the start, whose own result is not read. *)
Definition process_turn (o : Outside) (s : LegacyScheduler) : turn_outcome :=
  let queues := legacy_queues s in
  let active := determine_active_model o s in
  if negb (str_truthy active)
  then Returns {| legacy_queues := queues; active_model_id := active;
                  active_provider_id := None |}
  else
    let m := default "" active in
    (* 2. Get next job *)
    match dict_get m queues with
    | None => Raises (KeyError m)
    | Some [] =>
        Continues {| legacy_queues := queues; active_model_id := active;
                     active_provider_id := active_provider_id s |} None
    | Some (job :: rest) =>
        let popped := dict_set m rest queues in        (* [queue.popleft()] *)
        (* 3. Resolve provider *)
        match get_provider_for_model (the_registry o) m with
        | None =>
            Continues {| legacy_queues := popped; active_model_id := active;
                         active_provider_id := active_provider_id s |}
                      (Some (m, set_error ("No provider for model " +:+ m) job))
        | Some provider =>
            let pid := config_provider_id (config provider) in
            (* 4. Switch provider if needed *)
            let switch := negb (bool_decide (active_provider_id s = Some pid)) in
            let provider_now :=
              if switch then Some pid else active_provider_id s in
            match (if switch then stop_previous o s else None),
                  (if switch then start_next o provider else None) with
            | Some e, _ => Raises e
            | None, Some e => Raises e
            | None, None =>
                if switch && negb (health_check (the_world o) provider)
                   && negb (health_after_start (the_world o) pid)
                then
                  Continues {| legacy_queues := popped;
                               active_model_id := active;
                               active_provider_id := provider_now |}
                            (Some (m, set_error "Provider failed to start" job))
                else
                  (* 5. Execute job *)
                  let job :=
                    set_provider_id (Some pid) (set_status Running job) in
                  let job :=
                    match chat_completion (the_world o) provider
                            (request job) with
                    | Ok response =>
                        set_status Completed (set_response response job)
                    | Raise e => job_failed e job
                    end in
                  Continues {| legacy_queues := popped;
                               active_model_id := active;
                               active_provider_id := provider_now |}
                            (Some (m, job))
            end
        end
    end.

(** [process_queue] while no job arrives: [outside k] is what turn [k]
    reads.  The result lists the jobs popped, each with the key of its
    queue and as the loop left it; [None] when [fuel] turns were not
    enough. *)
Fixpoint process_queue (outside : nat → Outside) (fuel turn : nat)
    (s : LegacyScheduler)
  : option (result (LegacyScheduler * list (string * Job))) :=
  match fuel with
  | 0 => None
  | S fuel =>
      match process_turn (outside turn) s with
      | Returns s' => Some (Ok (s', []))
      | Raises e => Some (Raise e)
      | Continues s' popped =>
          match process_queue outside fuel (S turn) s' with
          | Some (Ok (s'', done)) =>
              Some (Ok (s'', option_list popped ++ done))
          | other => other
          end
      end
  end.

End ProcessQueue.

(** What the loop may do to a job: it ends it, and leaves its id, its
    model ids and its request alone. *)
Definition served (before after : Job) : Prop :=
  job_id after = job_id before ∧
  original_model_id after = original_model_id before ∧
  resolved_model_id after = resolved_model_id before ∧
  request after = request before ∧
  (status after = Completed ∨ status after = Error).

(** Backends whose adapters neither raise on [start()] nor on [stop()]. *)
Definition no_adapter_raises (w : World) : Prop :=
  ∀ pid, start_raises w pid = None ∧ stop_raises w pid = None.

(** A queue dictionary the loop can work on: its keys are distinct, as in
    any dictionary, and no job waits under the empty model id. *)
Definition workable (queues : list (string * list Job)) : Prop :=
  NoDup (dict_keys queues) ∧ queue_truthy (dict_get "" queues) = false.

(** ** src/app.py: the log tail *)

(** [lines[-limit:]], by Python's rules for a slice start. *)
Definition slice_from_end {A} (limit : Z) (lines : list A) : list A :=
  let n := Z.of_nat (length lines) in
  let start := (- limit)%Z in
  let start :=
    if (start <? 0)%Z then Z.max (start + n) 0 else Z.min start n in
  drop (Z.to_nat start) lines.

(** [GET /admin/logs]: [log_file] is [None] when gateway.jsonl is missing
    or cannot be read. *)
Definition get_logs (limit : Z) (log_file : option (list string))
  : list string :=
  match log_file with
  | None => []
  | Some lines => slice_from_end limit lines
  end.

(** ** src/logging_json.py: the request log *)

Section RequestLog.

(** Values of a log record's fields. *)
Context {V : Type}.

Record RequestLogger := {
  maxlen : nat;                           (* keep_last_n_requests_in_memory *)
  memory_buffer : list (gmap string V);   (* the bounded deque *)
  log_file : list (gmap string V)         (* the [props] of each
                                             [logger.info] call, which the
                                             handlers write to gateway.jsonl
                                             and to the console *)
}.

Definition RequestLogger_init (keep_last_n : nat) : RequestLogger :=
  {| maxlen := keep_last_n; memory_buffer := []; log_file := [] |}.

(** [deque.append] on a deque with [maxlen]: the item is added on the
    right, and an item is dropped on the left when the bound is passed. *)
Definition deque_append (n : nat) (x : gmap string V)
    (buffer : list (gmap string V)) : list (gmap string V) :=
  let buffer := buffer ++ [x] in
  if bool_decide (n < length buffer) then drop 1 buffer else buffer.

(** [if "timestamp" not in props: props["timestamp"] = ...]; [now] is the
    time it would write. *)
Definition with_timestamp (now : V) (props : gmap string V)
  : gmap string V :=
  match props !! "timestamp" with
  | None => <["timestamp" := now]> props
  | Some _ => props
  end.

Definition log_request (now : V) (props : gmap string V)
    (l : RequestLogger) : RequestLogger :=
  let props := with_timestamp now props in
  {| maxlen := maxlen l;
     memory_buffer := deque_append (maxlen l) props (memory_buffer l);
     log_file := log_file l ++ [props] |}.

Definition get_recent_requests (l : RequestLogger) : list (gmap string V) :=
  memory_buffer l.

(** The logger after a sequence of [log_request] calls. *)
Definition logged (calls : list (V * gmap string V)) (l : RequestLogger)
  : RequestLogger :=
  foldl (λ l call, log_request call.1 call.2 l) l calls.

End RequestLog.

Arguments RequestLogger : clear implicits.

(** ** src/process_manager.py *)

(** The operating system, as far as the supervisor sees it: the children
    that have not exited, and how many children were created so far (the
    handle of the next one). *)
Record Host := {
  alive : gset nat;
  children : nat
}.

(** What the platform decides: whether [Popen] succeeds on a command line,
    and whether stopping a child raises before the child is gone. *)
Record Platform := {
  can_spawn : list string → bool;
  signal_fails : nat → bool
}.

(** A child exits on its own. *)
Definition child_exits (h : nat) (host : Host) : Host :=
  {| alive := alive host ∖ {[h]}; children := children host |}.

Definition is_running (id : string) (host : Host)
    (processes : gmap string nat) : bool :=
  match processes !! id with
  | None => false
  | Some h => bool_decide (h ∈ alive host)          (* [poll() is None] *)
  end.

Definition stop_process (plat : Platform) (id : string) (host : Host)
    (processes : gmap string nat) : Host * gmap string nat :=
  match processes !! id with
  | None => (host, processes)
  | Some h =>
      if bool_decide (h ∉ alive host)               (* [poll() is not None] *)
      then (host, delete id processes)
      else
        (* terminate, wait five seconds, kill; an exception is logged *)
        let host := if signal_fails plat h then host else child_exits h host in
        (host, delete id processes)
  end.

Definition start_process (plat : Platform) (id command : string)
    (args : list string) (host : Host) (processes : gmap string nat)
  : bool * Host * gmap string nat :=
  if is_running id host processes then (true, host, processes)
  else
    let '(host, processes) :=
      match processes !! id with
      | Some _ => stop_process plat id host processes   (* dead handle *)
      | None => (host, processes)
      end in
    let full_cmd := command :: args in
    if can_spawn plat full_cmd then
      let h := children host in
      (true,
       {| alive := alive host ∪ {[h]}; children := S h |},
       <[id := h]> processes)
    else (false, host, processes).

(** The states the supervisor and its host go through. *)
Inductive supervised (plat : Platform) : Host → gmap string nat → Prop :=
  | supervised_init :
      supervised plat {| alive := ∅; children := 0 |} ∅
  | supervised_start id command args host processes :
      supervised plat host processes →
      supervised plat
        (start_process plat id command args host processes).1.2
        (start_process plat id command args host processes).2
  | supervised_stop id host processes :
      supervised plat host processes →
      supervised plat (stop_process plat id host processes).1
                      (stop_process plat id host processes).2
  | supervised_exit h host processes :
      supervised plat host processes →
      supervised plat (child_exits h host) processes.

(** The single-active-model scheduler with one job waiting for [m2] and one
    for [m3]. *)
Definition legacy_two_waiting : LegacyScheduler :=
  {| legacy_queues := [("m2", [job_for "j2" "m2"]); ("m3", [job_for "j3" "m3"])];
     active_model_id := None;
     active_provider_id := None |}.

(** A platform on which every spawn succeeds and every stop works. *)
Definition friendly_platform : Platform :=
  {| can_spawn := λ _, true; signal_fails := λ _, false |}.

(** The supervisor's table is in order: every live child is filed under an
    id, handles in the table were really created, and no handle is filed
    twice. *)
Definition all_tracked (host : Host) (processes : gmap string nat) : Prop :=
  (∀ h, h ∈ alive host → ∃ id, processes !! id = Some h) ∧
  (∀ id h, processes !! id = Some h → h < children host) ∧
  (∀ id1 id2 h, processes !! id1 = Some h → processes !! id2 = Some h →
                id1 = id2).

(** Every turn reads the same: the two probed backends, no model record,
    time standing still. *)
Definition quiet_outside (turn : nat) : Outside :=
  {| time_now := 10; loaded_models := ∅;
     the_registry := two_providers_registry; the_world := two_providers |}.

(** A job waits under the empty model id, none for [m2]. *)
Definition legacy_nameless_waiting : LegacyScheduler :=
  {| legacy_queues := [("", [job_for "j0" ""]); ("m2", [])];
     active_model_id := Some "m2";
     active_provider_id := None |}.

(* ===================================================================== *)
(** * Part II: properties                                                 *)
(* ===================================================================== *)

(** ** Dictionaries *)

Lemma dict_get_set_eq {V} k (v : V) d : dict_get k (dict_set k v d) = Some v.
Proof.
  induction d as [|[k' v'] d IH]; simpl.
  - by rewrite decide_True.
  - destruct (decide (k' = k)) as [->|Hne]; simpl.
    + by rewrite decide_True.
    + by rewrite decide_False.
Qed.

Lemma dict_get_set_ne {V} k k' (v : V) d :
  k ≠ k' → dict_get k' (dict_set k v d) = dict_get k' d.
Proof.
  intros Hne. induction d as [|[k0 v0] d IH]; simpl.
  - by rewrite decide_False.
  - destruct (decide (k0 = k)) as [->|Hk]; simpl.
    + by rewrite !decide_False.
    + destruct (decide (k0 = k')); [done | apply IH].
Qed.

Lemma dict_get_Some_elem {V} k (v : V) d : dict_get k d = Some v → (k, v) ∈ d.
Proof.
  induction d as [|[k' v'] d IH]; simpl; [done|].
  destruct (decide (k' = k)) as [->|Hne].
  - intros [= ->]. by left.
  - intros H. right. by apply IH.
Qed.

Lemma dict_get_NoDup {V} k (v : V) d :
  NoDup (dict_keys d) → (k, v) ∈ d → dict_get k d = Some v.
Proof.
  unfold dict_keys. induction d as [|[k' v'] d IH]; simpl.
  - intros _ H. by apply elem_of_nil in H.
  - intros Hnd Hin. apply NoDup_cons in Hnd as [Hk' Hnd].
    apply elem_of_cons in Hin as [[= <- <-]|Hin].
    + by rewrite decide_True.
    + destruct (decide (k' = k)) as [->|Hne]; [|by apply IH].
      exfalso. apply Hk'. apply list_elem_of_fmap. by exists (k, v).
Qed.

Lemma dict_keys_set_present {V} k (v : V) d :
  is_Some (dict_get k d) → dict_keys (dict_set k v d) = dict_keys d.
Proof.
  unfold dict_keys. induction d as [|[k' v'] d IH]; simpl.
  - by intros [? [=]].
  - destruct (decide (k' = k)) as [->|Hne]; simpl; [done|].
    intros H. f_equal. by apply IH.
Qed.

Lemma dict_keys_set_absent {V} k (v : V) d :
  dict_get k d = None → dict_keys (dict_set k v d) = dict_keys d ++ [k].
Proof.
  unfold dict_keys. induction d as [|[k' v'] d IH]; simpl; [done|].
  destruct (decide (k' = k)) as [->|Hne]; simpl; [done|].
  intros H. f_equal. by apply IH.
Qed.

Lemma dict_get_None_keys {V} k (d : list (string * V)) :
  dict_get k d = None → k ∉ dict_keys d.
Proof.
  unfold dict_keys. induction d as [|[k' v'] d IH]; simpl.
  - intros _. apply not_elem_of_nil.
  - destruct (decide (k' = k)) as [->|Hne]; [done|].
    intros H. apply not_elem_of_cons. split; [done | by apply IH].
Qed.

(** ** The rule manager *)

Lemma can_run_all rules models job active :
  ConcurrencyManager.can_run rules models job active = true ↔
  ∀ rule, rule ∈ rules → rules.can_run rule models job active = true.
Proof.
  induction rules as [|r rules IH]; simpl.
  - split; [|done]. intros _ rule H. by apply elem_of_nil in H.
  - destruct (rules.can_run r models job active) eqn:Hr; simpl.
    + rewrite IH. split.
      * intros H rule [->|Hin]%elem_of_cons; [done | by apply H].
      * intros H rule Hin. apply H. by right.
    + split; [done|]. intros H. rewrite <- Hr. apply H. by left.
Qed.

Lemma default_rules_can_run models job active :
  ConcurrencyManager.can_run (_setup_default_rules []) models job active = true →
  ExclusiveModelRule.can_run models job active = true ∧
  ResourceLimitRule.can_run models job active = true ∧
  MaxConcurrencyRule.can_run 10 models job active = true.
Proof.
  rewrite can_run_all. intros H.
  assert (∀ rule, rule ∈ [ExclusiveModelRule.rule; ResourceLimitRule.rule;
                          MaxConcurrencyRule.rule 10] →
                  rules.can_run rule models job active = true) as H' by exact H.
  split; [|split].
  - apply (H' ExclusiveModelRule.rule). apply list_elem_of_here.
  - apply (H' ResourceLimitRule.rule).
    apply list_elem_of_further, list_elem_of_here.
  - apply (H' (MaxConcurrencyRule.rule 10)).
    apply list_elem_of_further, list_elem_of_further, list_elem_of_here.
Qed.

(** ** The scheduling pass and the active set *)

Section ActiveSetInduction.

Variable models : gmap string ModelScoreConfig.
Variable default_model_score : ModelScoreConfig.

(** A property of the active set that admission preserves is preserved by
    one loop iteration, and the rule list is never touched. *)
Lemma schedule_head_active (P : list Job → Prop) rules st model_id :
  (∀ job l, P l → ConcurrencyManager.can_run rules models job l = true →
            P (l ++ [job])) →
  concurrency_manager st.1.1 = rules →
  P (active_jobs st.1.1) →
  concurrency_manager (schedule_head models st model_id).1.1 = rules ∧
  P (active_jobs (schedule_head models st model_id).1.1).
Proof.
  intros Hgrow Hrules HP. destruct st as [[s tasks] started]; simpl in *.
  destruct (dict_get model_id (queues s)) as [[|job rest]|]; simpl; [done| |done].
  destruct (ConcurrencyManager.can_run _ _ _ _) eqn:Hrun; simpl; [|done].
  split; [done|]. apply Hgrow; [done|]. by rewrite <- Hrules.
Qed.

Lemma schedule_loop_active (P : list Job → Prop) rules cands st :
  (∀ job l, P l → ConcurrencyManager.can_run rules models job l = true →
            P (l ++ [job])) →
  concurrency_manager st.1.1 = rules →
  P (active_jobs st.1.1) →
  concurrency_manager (foldl (schedule_head models) st cands).1.1 = rules ∧
  P (active_jobs (foldl (schedule_head models) st cands).1.1).
Proof.
  intros Hgrow. revert st.
  induction cands as [|m cands IH]; intros st Hrules HP; simpl; [done|].
  destruct (schedule_head_active P rules st m Hgrow Hrules HP) as [H1 H2].
  by apply IH.
Qed.

(** Induction over reachable states, for properties of the active set. *)
Lemma reachable_active_ind (P : list Job → Prop) :
  P [] →
  (∀ job l, P l →
     ConcurrencyManager.can_run (_setup_default_rules []) models job l = true →
     P (l ++ [job])) →
  (∀ job l, P l → P (list_remove job l)) →
  ∀ s, reachable models default_model_score s →
    concurrency_manager s = _setup_default_rules [] ∧ P (active_jobs s).
Proof.
  intros Hnil Hgrow Hremove s Hreach.
  induction Hreach as [|job s _ [IHr IHP]|s s' tasks started _ [IHr IHP] Hpass
                      |job s _ [IHr IHP]].
  - done.
  - done.
  - unfold _schedule_pending_jobs in Hpass.
    destruct (decide (candidate_models s = [])).
    + by injection Hpass as <- _ _.
    + injection Hpass as Hpass. unfold schedule_heads in Hpass.
      pose proof (schedule_loop_active P _
        (sorted_candidates models default_model_score s) (s, [], 0)
        Hgrow IHr IHP) as H.
      rewrite Hpass in H. exact H.
  - split; [done|]. unfold finish_job; simpl.
    case_bool_decide; [by apply Hremove | done].
Qed.

End ActiveSetInduction.

Lemma list_remove_subseteq job l : list_remove job l ⊆ l.
Proof.
  intros x. induction l as [|j l IH]; simpl; [done|].
  destruct (decide (job_id j = job_id job)) as [_|_]; rewrite !elem_of_cons.
  - by right.
  - intros [->|Hx]; [by left | right; by apply IH].
Qed.

Lemma list_remove_length job l : length (list_remove job l) ≤ length l.
Proof.
  induction l as [|j l IH]; simpl; [done|].
  destruct (decide (job_id j = job_id job)); simpl; lia.
Qed.

(** ** The exclusive flag *)

Lemma exclusive_alone_snoc models job l :
  exclusive_alone models l →
  ExclusiveModelRule.can_run models job l = true →
  exclusive_alone models (l ++ [job]).
Proof.
  intros _ Hrun [j [Hin Hex]]. unfold ExclusiveModelRule.can_run in Hrun.
  destruct (existsb _ l) eqn:Hany.
  { by destruct (_ && _). }
  apply elem_of_app in Hin as [Hin|Hin].
  - exfalso. apply not_true_iff_false in Hany. apply Hany.
    apply existsb_exists. exists j. split; [|done].
    by apply list_elem_of_In.
  - apply list_elem_of_singleton in Hin as ->. rewrite Hex in Hrun. simpl in Hrun.
    case_bool_decide as Hnil; [|done]. by rewrite Hnil.
Qed.

Lemma exclusive_alone_remove models job l :
  exclusive_alone models l → exclusive_alone models (list_remove job l).
Proof.
  intros Hinv [j [Hin Hex]].
  assert (length l = 1) as Hlen.
  { apply Hinv. exists j. split; [|done]. by apply (list_remove_subseteq job). }
  destruct l as [|x [|y l]]; simpl in *; try lia.
  destruct (decide (job_id x = job_id job)); [|done].
  by apply elem_of_nil in Hin.
Qed.

(** C1.  Exclusive-model invariant: in every state the scheduler reaches
    from its initial state by enqueuing jobs, running scheduling passes with
    the default rules and completing jobs, with the model records fixed, if
    some active job's model has [exclusive] set then the active set holds
    exactly one job. *)
Theorem exclusive_model_invariant
    (models : gmap string ModelScoreConfig)
    (default_model_score : ModelScoreConfig) (s : Scheduler) :
  reachable models default_model_score s →
  (∃ job, job ∈ active_jobs s ∧
     ExclusiveModelRule._is_exclusive models (resolved_model_id job) = true) →
  length (active_jobs s) = 1.
Proof.
  intros Hreach.
  apply (reachable_active_ind models default_model_score
           (exclusive_alone models)); [| | |done].
  - intros [j [Hin _]]. by apply elem_of_nil in Hin.
  - intros job l Hl Hrun. apply default_rules_can_run in Hrun as [Hex _].
    by apply exclusive_alone_snoc.
  - intros job l. apply exclusive_alone_remove.
Qed.

(** ** Rounding to the nearest float *)

Section Nearest.

Local Open Scope Z_scope.

Lemma nearest_unfold a :
  nearest a 1 =
  let s := Z.max 0 (Z.log2 a - 52) in
  let q := a / 2 ^ s in
  let rem := a mod 2 ^ s in
  (if (if 2 * rem <? 2 ^ s then false
       else if 2 ^ s <? 2 * rem then true else Z.odd q)
   then q + 1 else q) * 2 ^ s.
Proof.
  unfold nearest. rewrite Z.div_1_r. cbv zeta.
  by rewrite !Z.mul_1_l.
Qed.

(** The spacing [2 ^ s] of the floats around [a]: [a] has at most 53
    binary digits in front of it, and exactly 53 when the spacing is more
    than a unit. *)
Lemma shift_facts a :
  0 ≤ a →
  let s := Z.max 0 (Z.log2 a - 52) in
  0 ≤ s ∧ 0 < 2 ^ s ∧ a < 2 ^ 53 * 2 ^ s ∧
  (0 < s → 2 ^ 52 * 2 ^ s ≤ a).
Proof.
  intros Ha s. assert (0 ≤ s) as Hs by lia.
  split; [done|]. split; [by apply Z.pow_pos_nonneg|].
  rewrite <- !Z.pow_add_r by lia. split.
  - destruct (decide (a = 0)) as [->|Hne].
    + by apply Z.pow_pos_nonneg; lia.
    + pose proof (Z.log2_spec a ltac:(lia)) as [_ Hlt].
      eapply Z.lt_le_trans; [exact Hlt|].
      apply Z.pow_le_mono_r; lia.
  - intros Hpos. assert (0 < a) as Hapos.
    { destruct (decide (a = 0)) as [->|]; [|lia]. simpl in s. lia. }
    pose proof (Z.log2_spec a Hapos) as [Hle _].
    replace (52 + s) with (Z.log2 a) by lia. done.
Qed.

Lemma nearest_bounds a :
  0 ≤ a →
  let s := Z.max 0 (Z.log2 a - 52) in
  (a / 2 ^ s) * 2 ^ s ≤ nearest a 1 ≤ (a / 2 ^ s + 1) * 2 ^ s.
Proof.
  intros Ha s. rewrite nearest_unfold. cbv zeta. fold s.
  pose proof (shift_facts a Ha) as (_ & Hd & _). fold s in Hd.
  destruct (if 2 * (a mod 2 ^ s) <? 2 ^ s then false
            else if 2 ^ s <? 2 * (a mod 2 ^ s) then true
                 else Z.odd (a / 2 ^ s)); nia.
Qed.

(** Up to 2^53 units every whole number of units is a float. *)
Lemma nearest_exact a : 0 ≤ a < 2 ^ 53 → nearest a 1 = a.
Proof.
  intros [Ha Hlt]. rewrite nearest_unfold. cbv zeta.
  assert (Z.max 0 (Z.log2 a - 52) = 0) as ->.
  { destruct (decide (a = 0)) as [->|Hne]; [done|].
    assert (Z.log2 a < 53); [|lia].
    apply Z.log2_lt_pow2; lia. }
  rewrite Z.pow_0_r, Z.mod_1_r, Z.div_1_r. simpl. lia.
Qed.

Lemma nearest_nonneg a : 0 ≤ a → 0 ≤ nearest a 1.
Proof.
  intros Ha. pose proof (nearest_bounds a Ha) as [Hlo _].
  pose proof (shift_facts a Ha) as (_ & Hd & _).
  cbv zeta in *.
  assert (0 ≤ a / 2 ^ Z.max 0 (Z.log2 a - 52)) by (apply Z.div_pos; lia).
  nia.
Qed.

(** Rounding is monotone. *)
Lemma nearest_mono a b : 0 ≤ a ≤ b → nearest a 1 ≤ nearest b 1.
Proof.
  intros [Ha Hab].
  assert (0 ≤ b) as Hb by lia.
  pose proof (shift_facts a Ha) as (Hsa & Hda & Haup & Halo).
  pose proof (shift_facts b Hb) as (Hsb & Hdb & Hbup & Hblo).
  cbv zeta in *.
  assert (Z.max 0 (Z.log2 a - 52) ≤ Z.max 0 (Z.log2 b - 52)) as Hss.
  { pose proof (Z.log2_le_mono a b Hab). lia. }
  destruct (decide (Z.max 0 (Z.log2 a - 52) = Z.max 0 (Z.log2 b - 52)))
    as [Heq|Hne].
  - rewrite !nearest_unfold. cbv zeta. rewrite <- Heq.
    set (s := Z.max 0 (Z.log2 a - 52)) in *.
    set (d := 2 ^ s) in *.
    pose proof (Z.div_mod a d ltac:(lia)) as Hdiva.
    pose proof (Z.div_mod b d ltac:(lia)) as Hdivb.
    pose proof (Z.mod_pos_bound a d Hda) as Hra.
    pose proof (Z.mod_pos_bound b d Hda) as Hrb.
    pose proof (Z.div_le_mono a b d Hda Hab) as Hq.
    destruct (decide (a / d = b / d)) as [Hqq|Hqq].
    + rewrite <- Hqq in *.
      assert (a mod d ≤ b mod d) as Hr by lia.
      destruct (Z.ltb_spec (2 * (a mod d)) d);
        destruct (Z.ltb_spec (2 * (b mod d)) d);
        destruct (Z.ltb_spec d (2 * (a mod d)));
        destruct (Z.ltb_spec d (2 * (b mod d)));
        destruct (Z.odd (a / d)); nia.
    + destruct (if 2 * (a mod d) <? d then false
                else if d <? 2 * (a mod d) then true else Z.odd (a / d));
        destruct (if 2 * (b mod d) <? d then false
                  else if d <? 2 * (b mod d) then true else Z.odd (b / d));
        nia.
  - pose proof (nearest_bounds a Ha) as [_ Hhi].
    pose proof (nearest_bounds b Hb) as [Hlo _]. cbv zeta in *.
    set (sa := Z.max 0 (Z.log2 a - 52)) in *.
    set (sb := Z.max 0 (Z.log2 b - 52)) in *.
    assert (0 < sb) as Hsbpos by lia. specialize (Hblo Hsbpos).
    assert (a / 2 ^ sa < 2 ^ 53) as Hqa.
    { apply Z.div_lt_upper_bound; lia. }
    assert (2 ^ 52 ≤ b / 2 ^ sb) as Hqb.
    { apply Z.div_le_lower_bound; lia. }
    assert (2 ^ 53 * 2 ^ sa ≤ 2 ^ 52 * 2 ^ sb) as Hpow.
    { rewrite <- !Z.pow_add_r by lia. apply Z.pow_le_mono_r; lia. }
    nia.
Qed.

(** What rounding returns is a float: rounding it again changes nothing. *)
Lemma nearest_idem a : 0 ≤ a → nearest (nearest a 1) 1 = nearest a 1.
Proof.
  intros Ha.
  pose proof (shift_facts a Ha) as (Hs & Hd & Haup & Halo). cbv zeta in *.
  destruct (decide (Z.max 0 (Z.log2 a - 52) = 0)) as [Hz|Hnz].
  - assert (nearest a 1 = a) as Hexact.
    { apply nearest_exact. rewrite Hz, Z.pow_0_r in Haup. lia. }
    by rewrite Hexact, Hexact.
  - set (s := Z.max 0 (Z.log2 a - 52)) in *.
    assert (0 < s) as Hspos by lia. specialize (Halo Hspos).
    assert (2 ^ 52 ≤ a / 2 ^ s < 2 ^ 53) as Hq.
    { split; [apply Z.div_le_lower_bound; lia
             | apply Z.div_lt_upper_bound; lia]. }
    assert (∃ m, nearest a 1 = m * 2 ^ s ∧ 2 ^ 52 ≤ m ≤ 2 ^ 53)
      as (m & -> & Hm).
    { rewrite nearest_unfold. cbv zeta. fold s.
      destruct (if 2 * (a mod 2 ^ s) <? 2 ^ s then false
                else if 2 ^ s <? 2 * (a mod 2 ^ s) then true
                     else Z.odd (a / 2 ^ s));
        eexists; (split; [reflexivity|lia]). }
    rewrite nearest_unfold. cbv zeta.
    destruct (decide (m = 2 ^ 53)) as [->|Hm'].
    + assert (Z.log2 (2 ^ 53 * 2 ^ s) = 53 + s) as Hlog.
      { rewrite <- Z.pow_add_r by lia. apply Z.log2_pow2. lia. }
      rewrite Hlog.
      replace (Z.max 0 (53 + s - 52)) with (s + 1) by lia.
      replace (2 ^ 53 * 2 ^ s) with (2 ^ 52 * 2 ^ (s + 1))
        by (rewrite <- !Z.pow_add_r by lia; f_equal; lia).
      assert (0 < 2 ^ (s + 1)) as Hd' by (apply Z.pow_pos_nonneg; lia).
      rewrite Z.mod_mul, Z.div_mul by lia. simpl.
      destruct (Z.ltb_spec (2 * 0) (2 ^ (s + 1))); [done | lia].
    + assert (Z.log2 (m * 2 ^ s) = 52 + s) as Hlog.
      { rewrite Z.log2_mul_pow2 by lia.
        assert (Z.log2 m = 52); [|lia].
        apply Z.log2_unique; lia. }
      rewrite Hlog. replace (Z.max 0 (52 + s - 52)) with s by lia.
      rewrite Z.mod_mul, Z.div_mul by lia. simpl.
      destruct (Z.ltb_spec (2 * 0) (2 ^ s)); [done | lia].
Qed.


Lemma overflow_pos : 0 < overflow.
Proof. unfold overflow. by apply Z.pow_pos_nonneg. Qed.

Lemma nearest_pos a : 0 < a → 0 < nearest a 1.
Proof.
  intros Ha. pose proof (nearest_mono 1 a ltac:(lia)) as H.
  rewrite (nearest_exact 1) in H; [lia|]. split; [lia|]. by vm_compute.
Qed.

(** ** Sums of non-negative floats *)

Lemma level_add_fixed a b : 0 ≤ a → 0 ≤ b → level_fixed (level_add a b).
Proof.
  intros Ha Hb. unfold level_fixed, level_add.
  pose proof overflow_pos. pose proof (nearest_nonneg (a + b) ltac:(lia)).
  split; [lia|].
  destruct (Z.min_spec overflow (nearest (a + b) 1)) as [[_ ->]|[_ ->]];
    [by left | right; apply nearest_idem; lia].
Qed.




Lemma round_zero : round float_zero = FFinite 0.
Proof. reflexivity. Qed.

(** A non-negative float is its level. *)
Lemma nonneg_round x :
  fle float_zero x = true →
  level_fixed (level x) ∧
  round x = (if level x <? overflow then FFinite (level x) else FPosInf).
Proof.
  unfold fle, level. rewrite round_zero.
  destruct x as [n| | |]; simpl; try done.
  - unfold rounded.
    destruct (Z.leb_spec overflow (nearest (Z.abs n) 1)) as [Hov|Hfin].
    + destruct (Z.ltb_spec n 0); [done|]. intros _.
      pose proof overflow_pos. split.
      * split; [lia | by left].
      * destruct (Z.ltb_spec overflow overflow); [lia | done].
    + destruct (Z.ltb_spec n 0) as [Hneg|Hpos].
      * pose proof (nearest_pos (Z.abs n) ltac:(lia)).
        intros Hle. apply Z.leb_le in Hle. lia.
      * intros _. rewrite Z.abs_eq in * by lia.
        pose proof (nearest_nonneg n Hpos). split.
        -- split; [lia|]. right. by apply nearest_idem.
        -- destruct (Z.ltb_spec (nearest n 1) overflow); [done|lia].
  - intros _. pose proof overflow_pos. split.
    + split; [lia | by left].
    + destruct (Z.ltb_spec overflow overflow); [lia | done].
Qed.




End Nearest.


(** The accumulator loop on non-negative figures, from any non-negative
    start. *)
Section FloatSum.

Variable usage : Job → float.
Hypothesis usage_nonneg : ∀ job, fle float_zero (usage job) = true.

Lemma usage_level job : level_fixed (level (usage job)).
Proof. apply nonneg_round, usage_nonneg. Qed.



Lemma level_sum_fixed l t :
  level_fixed t →
  level_fixed (fold_left (λ t x, level_add t (level (usage x))) l t).
Proof.
  revert t. induction l as [|j l IH]; intros t Ht; simpl; [done|].
  apply IH. apply level_add_fixed; [apply Ht | apply usage_level].
Qed.




End FloatSum.


(** ** Resource sums *)











(** ** The queue dictionary keeps its keys distinct *)

Lemma dict_set_keys_NoDup {V} k (v : V) d :
  NoDup (dict_keys d) → NoDup (dict_keys (dict_set k v d)).
Proof.
  intros Hnd. destruct (dict_get k d) as [v'|] eqn:Hget.
  - by rewrite dict_keys_set_present.
  - rewrite dict_keys_set_absent by done.
    apply NoDup_app. split; [done|]. split; [|apply NoDup_singleton].
    intros k' Hin ->%list_elem_of_singleton.
    by apply (dict_get_None_keys k d).
Qed.

Lemma schedule_loop_keys_NoDup models cands st :
  NoDup (dict_keys (queues st.1.1)) →
  NoDup (dict_keys (queues (foldl (schedule_head models) st cands).1.1)).
Proof.
  revert st. induction cands as [|m cands IH]; intros st Hnd; simpl; [done|].
  apply IH. destruct st as [[s tasks] started]; simpl in *.
  destruct (dict_get m (queues s)) as [[|job rest]|]; simpl; [done| |done].
  destruct (ConcurrencyManager.can_run _ _ _ _); simpl; [|done].
  by apply dict_set_keys_NoDup.
Qed.

(** Every reachable scheduler meets the hypothesis of the pass theorem. *)
Lemma reachable_queues_NoDup models dflt s :
  reachable models dflt s → NoDup (dict_keys (queues s)).
Proof.
  induction 1 as [|job s _ IH|s s' tasks started _ IH Hpass|job s _ IH].
  - apply NoDup_nil_2.
  - unfold enqueue_job; simpl. apply dict_set_keys_NoDup.
    destruct (dict_get _ (queues s)); [done|]. by apply dict_set_keys_NoDup.
  - unfold _schedule_pending_jobs in Hpass.
    destruct (decide (candidate_models s = [])).
    + by injection Hpass as <- _ _.
    + injection Hpass as Hpass.
      pose proof (schedule_loop_keys_NoDup models
                    (sorted_candidates models dflt s) (s, [], 0) IH) as H.
      unfold schedule_heads in Hpass. by rewrite Hpass in H.
  - done.
Qed.

(** ** Sorting the candidates *)

Lemma tuple_le_total a b : tuple_le a b = false → tuple_le b a = true.
Proof.
  unfold tuple_le. destruct a as [a1 a2], b as [b1 b2]; simpl.
  rewrite orb_false_iff, andb_false_iff, orb_true_iff, andb_true_iff.
  rewrite !Z.ltb_ge, !Z.ltb_lt, !Z.eqb_neq, !Z.eqb_eq, Z.leb_gt, Z.leb_le. lia.
Qed.

Lemma tuple_le_trans a b c :
  tuple_le a b = true → tuple_le b c = true → tuple_le a c = true.
Proof.
  unfold tuple_le. destruct a as [a1 a2], b as [b1 b2], c as [c1 c2]; simpl.
  rewrite !orb_true_iff, !andb_true_iff.
  rewrite !Z.ltb_lt, !Z.eqb_eq, !Z.leb_le. lia.
Qed.

Section SortByKey.

Context {A : Type} (key : A → Z * Z).

Local Abbreviation key_le := (key_le key).

Lemma insert_by_key_perm x l : insert_by_key key x l ≡ₚ x :: l.
Proof.
  induction l as [|y l IH]; simpl; [done|].
  destruct (tuple_le (key x) (key y)); [done|].
  rewrite IH. apply Permutation_swap.
Qed.

Lemma sort_by_key_perm l : sort_by_key key l ≡ₚ l.
Proof.
  induction l as [|x l IH]; simpl; [done|].
  rewrite insert_by_key_perm. by f_equiv.
Qed.

Lemma insert_by_key_sorted x l :
  StronglySorted key_le l → StronglySorted key_le (insert_by_key key x l).
Proof.
  induction l as [|y l IH]; simpl; intros Hl.
  - repeat constructor.
  - apply StronglySorted_cons in Hl as [Hy Hl].
    destruct (tuple_le (key x) (key y)) eqn:Hxy.
    + apply StronglySorted_cons. split; [|by apply StronglySorted_cons].
      constructor; [done|].
      eapply Forall_impl; [exact Hy|]. intros z Hz.
      unfold key_le in *. by eapply tuple_le_trans.
    + apply StronglySorted_cons. split; [|by apply IH].
      rewrite insert_by_key_perm. constructor; [|done].
      by apply tuple_le_total.
Qed.

Lemma sort_by_key_sorted l : StronglySorted key_le (sort_by_key key l).
Proof.
  induction l as [|x l IH]; simpl; [constructor|].
  by apply insert_by_key_sorted.
Qed.

End SortByKey.

(** ** Candidates of a pass *)

Lemma candidate_models_NoDup s :
  NoDup (dict_keys (queues s)) → NoDup (candidate_models s).
Proof.
  unfold candidate_models, dict_keys. intros Hnd.
  eapply sublist_NoDup; [exact Hnd | apply fmap_sublist, sublist_filter].
Qed.

Lemma candidate_models_spec s m :
  NoDup (dict_keys (queues s)) →
  m ∈ candidate_models s ↔
  ∃ job rest, dict_get m (queues s) = Some (job :: rest).
Proof.
  intros Hnd. unfold candidate_models. rewrite list_elem_of_fmap. split.
  - intros [[m' q] [-> [Hq Hin]%list_elem_of_filter]]. simpl in *.
    destruct q as [|job rest]; [done|]. exists job, rest.
    by apply dict_get_NoDup.
  - intros (job & rest & Hget). exists (m, job :: rest). split; [done|].
    apply list_elem_of_filter. split; [done|]. by apply dict_get_Some_elem.
Qed.

Lemma sort_key_spec models dflt s m :
  sort_key models dflt (active_models s) m =
    (if bool_decide (m ∈ resolved_model_id <$> active_jobs s) then 0 else 1,
     - base_priority (default dflt (models !! m)))%Z.
Proof. done. Qed.

(** ** One pass, candidate by candidate *)

Lemma schedule_head_other models st m m' :
  m ≠ m' →
  dict_get m' (queues (schedule_head models st m).1.1)
  = dict_get m' (queues st.1.1).
Proof.
  intros Hne. destruct st as [[s tasks] started]; simpl.
  destruct (dict_get m (queues s)) as [[|job rest]|]; simpl; [done| |done].
  destruct (ConcurrencyManager.can_run _ _ _ _); simpl; [|done].
  by apply dict_get_set_ne.
Qed.

Lemma schedule_loop_other models st cands m' :
  m' ∉ cands →
  dict_get m' (queues (foldl (schedule_head models) st cands).1.1)
  = dict_get m' (queues st.1.1).
Proof.
  revert st. induction cands as [|m cands IH]; intros st Hnin; simpl; [done|].
  apply not_elem_of_cons in Hnin as [Hne Hnin].
  rewrite IH by done. by apply schedule_head_other.
Qed.

Lemma schedule_loop_progress models s st cands :
  NoDup cands →
  (∀ m, m ∈ cands → dict_get m (queues st.1.1) = dict_get m (queues s)) →
  pass_progress s st →
  pass_progress s (foldl (schedule_head models) st cands).
Proof.
  revert st. induction cands as [|m cands IH]; intros st Hnd Hsame Hst;
    simpl; [done|].
  apply NoDup_cons in Hnd as [Hm Hnd].
  apply IH; [done| |].
  - intros m' Hin. rewrite schedule_head_other by (intros ->; done).
    apply Hsame. by right.
  - assert (dict_get m (queues st.1.1) = dict_get m (queues s)) as Hget
      by (apply Hsame; by left).
    destruct Hst as (Hcount & Hact & Hrules & Hq).
    destruct st as [[t tasks] started]; simpl in *.
    destruct (dict_get m (queues t)) as [[|job rest]|] eqn:Ht; simpl;
      [done| |done].
    destruct (ConcurrencyManager.can_run _ _ _ _); simpl; [|done].
    repeat split; simpl.
    + rewrite length_app. simpl. lia.
    + by rewrite Hact, app_assoc.
    + done.
    + intros m'. destruct (decide (m = m')) as [<-|Hne].
      * right. exists job, rest. rewrite dict_get_set_eq.
        repeat split; [done|]. apply elem_of_app. right. by left.
      * rewrite dict_get_set_ne by done.
        destruct (Hq m') as [Hsame'|(j & r & H1 & H2 & H3)]; [by left|].
        right. exists j, r. repeat split; [done..|].
        apply elem_of_app. by left.
Qed.

Lemma pass_progress_start s : pass_progress s (s, [], 0).
Proof.
  repeat split; simpl; [by rewrite app_nil_r|]. intros m. by left.
Qed.

(** C4 (as the code has it).  A pass considers exactly the models whose
    queue is non-empty, each once, sorted by the key (0 if some active job
    is for that very model, else 1; then decreasing base priority).  When a
    candidate's turn comes its queue still starts with the job that headed
    it before the pass; that head is dispatched if and only if every rule of
    the manager passes on the current active set; on admission the head is
    popped, appended to the active set and handed to an execution task; on
    refusal nothing changes, so a queue gives at most its head in a pass.
    The pass returns the number of admissions. *)
Theorem scheduling_pass
    (models : gmap string ModelScoreConfig)
    (default_model_score : ModelScoreConfig) (s : Scheduler) :
  NoDup (dict_keys (queues s)) →
  let cands := sorted_candidates models default_model_score s in
  let key := sort_key models default_model_score (active_models s) in
  (NoDup cands ∧
   ∀ m, m ∈ cands ↔ ∃ job rest, dict_get m (queues s) = Some (job :: rest)) ∧
  (StronglySorted (key_le key) cands ∧
   ∀ m, key m =
     (if bool_decide (m ∈ resolved_model_id <$> active_jobs s) then 0 else 1,
      - base_priority (default default_model_score (models !! m)))%Z) ∧
  (∀ pre m post, cands = pre ++ m :: post →
     let st := foldl (schedule_head models) (s, [], 0) pre in
     ∃ job rest,
       dict_get m (queues s) = Some (job :: rest) ∧
       dict_get m (queues st.1.1) = Some (job :: rest) ∧
       ((∀ rule, rule ∈ concurrency_manager s →
           rules.can_run rule models job (active_jobs st.1.1) = true) →
        schedule_head models st m =
          (set_active_jobs (active_jobs st.1.1 ++ [job])
             (set_queues (dict_set m rest (queues st.1.1)) st.1.1),
           st.1.2 ++ [job], S st.2)) ∧
       (¬ (∀ rule, rule ∈ concurrency_manager s →
             rules.can_run rule models job (active_jobs st.1.1) = true) →
        schedule_head models st m = st)) ∧
  ∃ s' tasks started,
    _schedule_pending_jobs (Ok models) default_model_score s
      = Ok (s', tasks, started) ∧
    (s', tasks, started) = foldl (schedule_head models) (s, [], 0) cands ∧
    started = length tasks ∧
    active_jobs s' = active_jobs s ++ tasks ∧
    ∀ m, dict_get m (queues s') = dict_get m (queues s) ∨
         ∃ job rest, dict_get m (queues s) = Some (job :: rest) ∧
                     dict_get m (queues s') = Some rest ∧ job ∈ tasks.
Proof.
  intros Hwf cands key.
  assert (cands ≡ₚ candidate_models s) as Hperm by apply sort_by_key_perm.
  assert (NoDup cands) as Hnd.
  { rewrite Hperm. by apply candidate_models_NoDup. }
  assert (∀ m, m ∈ cands ↔
               ∃ job rest, dict_get m (queues s) = Some (job :: rest)) as Hcand.
  { intros m. rewrite Hperm. by apply candidate_models_spec. }
  split; [done|]. split.
  { split; [apply sort_by_key_sorted | done]. }
  split.
  - intros pre m post Hsplit st.
    rewrite Hsplit in Hnd. apply NoDup_app in Hnd as (Hpre & Hdisj & Hpost).
    assert (m ∉ pre) as Hm.
    { intros Hin. apply (Hdisj m Hin). by left. }
    destruct (proj1 (Hcand m)) as (job & rest & Hget).
    { rewrite Hsplit. apply elem_of_app. right. by left. }
    exists job, rest. split; [done|].
    assert (dict_get m (queues st.1.1) = Some (job :: rest)) as Hst.
    { subst st. by rewrite schedule_loop_other. }
    split; [done|].
    assert (concurrency_manager st.1.1 = concurrency_manager s) as Hrules.
    { subst st. eapply (schedule_loop_progress models s (s, [], 0) pre);
        [done | done | apply pass_progress_start]. }
    pose proof (can_run_all (concurrency_manager s) models job
                  (active_jobs st.1.1)) as Hall.
    clearbody st. destruct st as [[t tasks] started]; simpl in *.
    rewrite Hst, Hrules.
    destruct (ConcurrencyManager.can_run _ _ _ _).
    + split; [done|]. intros Hnot. exfalso. apply Hnot. by apply Hall.
    + split; [|done]. intros Hyes. apply Hall in Hyes. done.
  - destruct (foldl (schedule_head models) (s, [], 0) cands)
      as [[s' tasks] started] eqn:Hrun.
    exists s', tasks, started.
    pose proof (schedule_loop_progress models s (s, [], 0) cands Hnd
                  (λ _ _, eq_refl) (pass_progress_start s)) as Hprog.
    rewrite Hrun in Hprog. destruct Hprog as (Hcount & Hact & _ & Hq).
    simpl in *. repeat split; [|done..].
    unfold _schedule_pending_jobs. destruct (decide (candidate_models s = [])) as [Hnil|_].
    + subst cands. unfold sorted_candidates in Hrun. rewrite Hnil in Hrun.
      simpl in Hrun. by rewrite Hrun.
    + unfold schedule_heads. fold cands. by rewrite Hrun.
Qed.

(** ** Registry refresh *)




Lemma refresh_unfold w now reg :
  refresh w now reg =
    ((detect_loop w (load_providers_from_disk w []) ∅).1,
     {| providers := load_providers_from_disk w [];
        model_map := (detect_loop w (load_providers_from_disk w []) ∅).2;
        last_refresh_timestamp := now |}).
Proof.
  unfold refresh, detect_and_register_models; simpl.
  by destruct (detect_loop w (load_providers_from_disk w []) ∅).
Qed.


(** ** Scenarios, evaluated *)

Example exclusive_running_active :
  job_id <$> active_jobs exclusive_running = ["j1"].
Proof. reflexivity. Qed.

(** Scenario 5 of the specification: of two 60% jobs one runs, one waits. *)
Example gpu_one_runs :
  job_id <$> active_jobs gpu_running = ["j1"] ∧
  (schedule_heads gpu_models ModelScoreConfig_default gpu_queued).2 = 1 ∧
  dict_get "mB" (queues gpu_running) = Some [job_for "j2" "mB"].
Proof. vm_compute. done. Qed.

Example two_providers_registry_map :
  model_map two_providers_registry = <[ "m1" := "pA" ]> {[ "m2" := "pB" ]}.
Proof. vm_compute. reflexivity. Qed.

Lemma schedule_pass_ok models dflt s :
  candidate_models s ≠ [] →
  _schedule_pending_jobs (Ok models) dflt s
  = Ok ((schedule_heads models dflt s).1.1,
        (schedule_heads models dflt s).1.2,
        (schedule_heads models dflt s).2).
Proof.
  intros Hne. unfold _schedule_pending_jobs.
  destruct (decide (candidate_models s = [])); [done|].
  by destruct (schedule_heads models dflt s) as [[??]?].
Qed.

Lemma exclusive_running_reachable :
  reachable exclusive_models ModelScoreConfig_default exclusive_running.
Proof.
  eapply reach_schedule.
  - apply (reach_enqueue _ _ (job_for "j1" "mX")), reach_init.
  - by apply schedule_pass_ok.
Qed.

Lemma exclusive_model_invariant_witness :
  length (active_jobs exclusive_running) = 1.
Proof.
  apply (exclusive_model_invariant exclusive_models ModelScoreConfig_default).
  - exact exclusive_running_reachable.
  - exists (job_for "j1" "mX"). split; [|reflexivity].
    vm_compute. left.
Defined.







Lemma shared_provider_state_wf :
  NoDup (dict_keys (queues shared_provider_state)).
Proof. apply (bool_decide_unpack _). vm_compute. reflexivity. Qed.

Lemma scheduling_pass_witness :
  NoDup (sorted_candidates priority_models ModelScoreConfig_default
           shared_provider_state) ∧
  sorted_candidates priority_models ModelScoreConfig_default
    shared_provider_state = ["m3"; "m2"].
Proof.
  split; [|reflexivity].
  apply (scheduling_pass priority_models ModelScoreConfig_default
           shared_provider_state shared_provider_state_wf).
Defined.

(** C4, as stated, fails: with [m1] and [m2] on the same provider and a job
    for [m1] running, the key of the specification puts [m2] first, the pass
    takes [m3] first. *)
Lemma sticky_order_is_per_model :
  sorted_candidates priority_models ModelScoreConfig_default
    shared_provider_state = ["m3"; "m2"] ∧
  spec_sorted_candidates shared_provider_map priority_models
    ModelScoreConfig_default shared_provider_state = ["m2"; "m3"] ∧
  sorted_candidates priority_models ModelScoreConfig_default
    shared_provider_state
  ≠ spec_sorted_candidates shared_provider_map priority_models
      ModelScoreConfig_default shared_provider_state.
Proof. vm_compute. repeat split. discriminate. Qed.



(** ** The fallback walker *)

Section FallbackChain.

Variable cfg : Config.
Variable w : World.
Variable t : Timing.
Variable await_job : Gateway → Job → Job.

Lemma has_next_candidate (done remaining : list string) (m : string) :
  (Z.of_nat (length done)
     <? Z.of_nat (length (done ++ m :: remaining)) - 1)%Z
  = bool_decide (remaining ≠ []).
Proof.
  rewrite length_app. destruct remaining as [|m' remaining].
  - rewrite bool_decide_eq_false_2 by (intros H; by apply H).
    simpl. apply Z.ltb_ge. lia.
  - rewrite bool_decide_eq_true_2 by done. simpl. apply Z.ltb_lt. lia.
Qed.

(** Every pass through the loop body that does not return adds exactly one
    record, for the candidate at hand. *)
Lemma candidate_body_log candidates rn triggers i m h :
  let r := candidate_body cfg w t await_job candidates rn triggers i m h in
  match r.2 with
  | Continue | Break =>
      attempt_model <$> attempts_log r.1
      = (attempt_model <$> attempts_log h) ++ [m]
  | Return _ | Polling => attempts_log r.1 = attempts_log h
  end.
Proof.
  unfold candidate_body. simpl.
  repeat (case_match; simpl; try done).
  all: by rewrite ?fmap_app.
Qed.

(** The loop ends in a [return], in a poll that never ends, or by leaving
    the [for]; it never ends on a [continue]. *)
Lemma for_candidates_ends candidates rn triggers i remaining h :
  (for_candidates cfg w t await_job candidates rn triggers i remaining h).2
  ≠ Continue.
Proof.
  revert i h. induction remaining as [|m remaining IH]; intros i h; simpl.
  - done.
  - destruct (candidate_body _ _ _ _ _ _ _ _ _ _) as [h1 c1].
    destruct c1; first [apply IH | done].
Qed.

(** A [break] follows a record with a [normalized] key; where a further
    candidate is left, the fallback test has failed on it. *)
Lemma candidate_body_break candidates rn triggers i m h h' :
  candidate_body cfg w t await_job candidates rn triggers i m h
  = (h', Break) →
  ∃ a code,
    last (attempts_log h') = Some a ∧ attempt_normalized a = Some code ∧
    ((Z.of_nat i <? Z.of_nat (length candidates) - 1)%Z = true →
     ¬ (enable_fallback (routing cfg) = true ∧
        code ∈ PyStr <$> triggers)).
Proof.
  unfold candidate_body. cbv zeta.
  destruct (bool_decide (model_map _ !! m = None)); [done|].
  set (g := after_miss cfg w t m (gateway h)).
  set (job0 := new_job t rn m h g).
  set (job := await_job (gateway_enqueue t job0 g) job0).
  destruct (bool_decide (status job = Pending ∨ status job = Running));
    [done|].
  assert (∀ x : Handler * loop_control,
            x = (let norm_error :=
                   py_or (normalized_error job) (PyStr "other") in
                 let h' :=
                   {| gateway := gateway_enqueue t job0 g;
                      shared_request := request job0;
                      attempts_log := attempts_log h ++
                        [{| attempt_model := m; attempt_error := error job;
                            attempt_normalized := Some norm_error |}];
                      last_error := error job |} in
                 if (Z.of_nat i <? Z.of_nat (length candidates) - 1)%Z then
                   if enable_fallback (routing cfg)
                      && bool_decide (norm_error ∈ PyStr <$> triggers)
                   then (h', Continue)
                   else (h', Break)
                 else (h', Break)) →
            x = (h', Break) →
            ∃ a code,
              last (attempts_log h') = Some a ∧
              attempt_normalized a = Some code ∧
              ((Z.of_nat i <? Z.of_nat (length candidates) - 1)%Z = true →
               ¬ (enable_fallback (routing cfg) = true ∧
                  code ∈ PyStr <$> triggers))) as Herr.
  { intros x -> Hx. cbv zeta in Hx.
    destruct (Z.of_nat i <? Z.of_nat (length candidates) - 1)%Z.
    - destruct (enable_fallback (routing cfg)) eqn:Hen; simpl in Hx.
      + destruct (bool_decide _) eqn:Hin in Hx; [discriminate Hx|].
        injection Hx as <-. eexists _, _. cbn [attempts_log].
        rewrite last_snoc. split; [reflexivity|]. split; [reflexivity|].
        intros _ [_ Hmem]. apply bool_decide_eq_false_1 in Hin. by apply Hin.
      + injection Hx as <-. eexists _, _. cbn [attempts_log].
        rewrite last_snoc. split; [reflexivity|]. split; [reflexivity|].
        by intros _ [? _].
    - injection Hx as <-. eexists _, _. cbn [attempts_log].
      rewrite last_snoc. split; [reflexivity|]. split; [reflexivity|].
      done. }
  destruct (bool_decide (status job = Completed)); [|by apply Herr].
  destruct (response job); [done | by apply Herr].
Qed.

(** What the log holds when the loop is left without a response. *)
Lemma for_candidates_break before remaining rn triggers h h' :
  remaining ≠ [] →
  for_candidates cfg w t await_job (before ++ remaining) rn triggers
    (length before) remaining h = (h', Break) →
  ∃ tried rest,
    remaining = tried ++ rest ∧ tried ≠ [] ∧
    attempt_model <$> attempts_log h'
    = (attempt_model <$> attempts_log h) ++ tried ∧
    (rest ≠ [] →
     ∃ a code,
       last (attempts_log h') = Some a ∧ attempt_normalized a = Some code ∧
       ¬ (enable_fallback (routing cfg) = true ∧
          code ∈ PyStr <$> triggers)).
Proof.
  revert before h. induction remaining as [|m remaining IH]; intros before h;
    [done|]. intros _. simpl.
  pose proof (candidate_body_log (before ++ m :: remaining) rn triggers
                (length before) m h) as Hlog. simpl in Hlog.
  destruct (candidate_body cfg w t await_job (before ++ m :: remaining) rn
              triggers (length before) m h) as [h1 c] eqn:Hbody;
    simpl in Hlog.
  destruct c; try done.
  - destruct remaining as [|m' remaining].
    + simpl. intros [= <-]. exists [m], []. by rewrite Hlog.
    + replace (before ++ m :: m' :: remaining)
        with ((before ++ [m]) ++ m' :: remaining) by by rewrite <- app_assoc.
      replace (S (length before)) with (length (before ++ [m]))
        by (rewrite length_app; simpl; lia).
      intros Hloop.
      destruct (IH (before ++ [m]) h1 ltac:(done) Hloop)
        as (tried & rest & Hsplit & _ & Heq & Hrest).
      exists (m :: tried), rest. rewrite Hsplit.
      split; [done|]. split; [done|]. split; [|done].
      by rewrite Heq, Hlog, <- app_assoc.
  - intros [= <-]. exists [m], remaining.
    split; [done|]. split; [done|]. split; [done|]. intros Hrest.
    destruct (candidate_body_break _ _ _ _ _ _ _ Hbody)
      as (a & code & Hlast & Hnorm & Hno).
    exists a, code. split; [done|]. split; [done|]. apply Hno.
    rewrite has_next_candidate. by apply bool_decide_eq_true_2.
Qed.

(** C3.  Fallback-chain decision: when the job of a candidate ends in
    [error], the handler appends the record [{model, error, normalized}]
    and goes on to the next candidate if and only if there is a next
    candidate, [routing.enable_fallback] is set and the job's normalized
    code (read as [other] when the job carries none) is among the route's
    triggers; with no triggers it never goes on after an error.  A request
    whose walk over the candidates is left without a response fails with
    status 500 and the whole log of that walk.  The log then names the
    candidates tried, one record each, in order, the first candidate among
    them; and candidates are left untried only after a record whose code
    failed the fallback test. *)
Theorem fallback_chain_decision :
  (∀ done model_id remaining route_name triggers h,
     let candidates := done ++ model_id :: remaining in
     let g := after_miss cfg w t model_id (gateway h) in
     let job0 := new_job t route_name model_id h g in
     let job := await_job (gateway_enqueue t job0 g) job0 in
     let norm_error := py_or (normalized_error job) (PyStr "other") in
     let h' :=
       {| gateway := gateway_enqueue t job0 g;
          shared_request := request job0;
          attempts_log := attempts_log h ++
            [{| attempt_model := model_id; attempt_error := error job;
                attempt_normalized := Some norm_error |}];
          last_error := error job |} in
     let next :=
       remaining ≠ [] ∧ enable_fallback (routing cfg) = true ∧
       norm_error ∈ PyStr <$> triggers in
     model_map (registry g) !! model_id ≠ None →
     status job = Error →
     candidate_body cfg w t await_job candidates route_name triggers
       (length done) model_id h
       = (h', if bool_decide next then Continue else Break) ∧
     for_candidates cfg w t await_job candidates route_name triggers
       (length done) (model_id :: remaining) h
       = (if bool_decide next
          then for_candidates cfg w t await_job candidates route_name triggers
                 (S (length done)) remaining h'
          else (h', Break)) ∧
     (triggers = [] →
      for_candidates cfg w t await_job candidates route_name triggers
        (length done) (model_id :: remaining) h = (h', Break))) ∧
  (∀ request g,
     let candidates := candidates_of cfg request in
     let route_name := (resolve_model cfg (model request)).1.1.2 in
     let triggers := (resolve_model cfg (model request)).2 in
     let walk :=
       for_candidates cfg w t await_job candidates route_name triggers 0
         candidates
         {| gateway := g; shared_request := request;
            attempts_log := []; last_error := None |} in
     chat_completions cfg w t await_job request g
     = (gateway walk.1,
        match walk.2 with
        | Return r => Response r
        | Polling => NoResponse
        | Break | Continue => HTTPException 500 (attempts_log walk.1)
        end) ∧
     walk.2 ≠ Continue ∧
     (walk.2 = Break →
      ∃ tried rest,
        candidates = tried ++ rest ∧ tried ≠ [] ∧
        attempt_model <$> attempts_log walk.1 = tried ∧
        (rest ≠ [] →
         ∃ a code,
           last (attempts_log walk.1) = Some a ∧
           attempt_normalized a = Some code ∧
           ¬ (enable_fallback (routing cfg) = true ∧
              code ∈ PyStr <$> triggers)))).
Proof.
  split.
  - intros done model_id remaining route_name triggers h
      candidates g job0 job norm_error h' next Hpresent Herror.
    assert (candidate_body cfg w t await_job candidates route_name triggers
              (length done) model_id h
            = (h', if bool_decide next then Continue else Break)) as Hbody.
    { unfold candidate_body. fold g.
      rewrite (bool_decide_eq_false_2 _ Hpresent). fold job0. simpl. fold job.
      rewrite Herror. simpl. fold norm_error. fold h'.
      subst candidates. rewrite has_next_candidate. subst next.
      destruct (decide (remaining ≠ [])) as [Hrem|Hrem].
      - rewrite (bool_decide_eq_true_2 _ Hrem).
        destruct (enable_fallback (routing cfg)); simpl.
        + destruct (decide (norm_error ∈ PyStr <$> triggers)) as [Hin|Hin].
          * rewrite (bool_decide_eq_true_2 _ Hin).
            by rewrite bool_decide_eq_true_2.
          * rewrite (bool_decide_eq_false_2 _ Hin).
            rewrite bool_decide_eq_false_2; [done|]. by intros (_ & _ & ?).
        + rewrite bool_decide_eq_false_2; [done|]. by intros (_ & ? & _).
      - rewrite (bool_decide_eq_false_2 _ Hrem).
        rewrite bool_decide_eq_false_2; [done|]. by intros (? & _ & _). }
    split; [done|]. split.
    + simpl. rewrite Hbody. by destruct (bool_decide next).
    + intros ->. simpl. rewrite Hbody.
      rewrite bool_decide_eq_false_2; [done|].
      intros (_ & _ & Hin). by apply elem_of_nil in Hin.
  - intros request g. cbv zeta. unfold chat_completions, candidates_of.
    destruct (resolve_model cfg (model request))
      as [[[primary route_name] fallbacks] triggers]. cbn [fst snd].
    pose proof (for_candidates_ends (primary :: fallbacks) route_name
                  triggers 0 (primary :: fallbacks)
                  {| gateway := g; shared_request := request;
                     attempts_log := []; last_error := None |}) as Hends.
    destruct (for_candidates _ _ _ _ _ _ _ _ _ _) as [h' c] eqn:Hloop.
    cbn [fst snd] in *.
    split; [by destruct c|]. split; [done|]. intros ->.
    destruct (for_candidates_break [] (primary :: fallbacks) route_name
                triggers _ h' ltac:(done) Hloop)
      as (tried & rest & Hsplit & Hne & Hlog & Hrest).
    exists tried, rest. by rewrite Hlog.
Qed.

End FallbackChain.

(** Scenario 2 of the specification: [m1] times out, the route falls back
    on [timeout], [m2] answers. *)
Example route_fallback_on_timeout :
  (chat_completions (route_config ["timeout"]) two_providers timing
     (executed two_providers) route_request
     (gateway_at two_providers_registry 0)).2
  = Response (hello "m2").
Proof. vm_compute. reflexivity. Qed.

(** Scenario 3: the trigger set does not hold the code, one attempt only. *)
Example fallback_suppressed :
  let r := chat_completions (route_config ["unreachable"]) two_providers
             timing (executed two_providers) route_request
             (gateway_at two_providers_registry 0) in
  r.2 = HTTPException 500
          [{| attempt_model := "m1";
              attempt_error := Some "Provider pA timed out.";
              attempt_normalized := Some (PyStr "timeout") |}] ∧
  resolved_model_id <$> enqueued r.1 = ["m1"].
Proof. vm_compute. done. Qed.

Lemma fallback_chain_decision_witness :
  (candidate_body (route_config ["timeout"]) two_providers timing
     (executed two_providers) ["m1"; "m2"] (Some "r1") ["timeout"] 0 "m1"
     {| gateway := gateway_at two_providers_registry 0;
        shared_request := route_request;
        attempts_log := []; last_error := None |}).2
  = Continue.
Proof.
  destruct (proj1 (fallback_chain_decision (route_config ["timeout"])
                     two_providers timing (executed two_providers))
              [] "m1" ["m2"] (Some "r1") ["timeout"]
              {| gateway := gateway_at two_providers_registry 0;
                 shared_request := route_request;
                 attempts_log := []; last_error := None |})
    as (Hbody & _ & _).
  - vm_compute. discriminate.
  - vm_compute. reflexivity.
  - etrans; [exact (f_equal snd Hbody)|]. vm_compute. reflexivity.
Defined.

(** ** Refresh on a miss *)

(** The top of the loop body consults neither the clock nor
    [last_refresh_timestamp] nor [refresh_cooldown_seconds]. *)
Lemma after_miss_refreshes cfg w t model_id g :
  model_map (registry g) !! model_id = None →
  auto_refresh_on_miss (runtime cfg) = true →
  refresh_calls (after_miss cfg w t model_id g) = refresh_calls g ++ [clock g].
Proof.
  intros Hmiss Hauto. unfold after_miss.
  by rewrite (bool_decide_eq_true_2 _ Hmiss), Hauto.
Qed.

(** C7 fails on the code: a request for the route [r1] whose two candidates
    are both unknown, at time 100 with the default cooldown of 30 seconds
    and a refresh that takes one second, makes the handler refresh the
    registry at 100 and again at 101. *)
Theorem refresh_ignores_cooldown :
  let r := chat_completions (route_config []) no_providers timing
             (executed no_providers) route_request
             (gateway_at Registry_init 100) in
  refresh_calls r.1 = [100; 101]%Q ∧
  (101 - 100 < inject_Z (refresh_cooldown_seconds
                           (runtime (route_config []))))%Q ∧
  attempt_model <$> match r.2 with
                    | HTTPException _ attempts => attempts
                    | _ => []
                    end = ["m1"; "m2"].
Proof. vm_compute. done. Qed.

(** ** Normalized codes of failed jobs *)

Lemma execute_job_no_provider w reg job :
  get_provider_for_model reg (resolved_model_id job) = None →
  status (_execute_job w reg job) = Error ∧
  normalized_error (_execute_job w reg job) = Some (PyInt 500).
Proof. intros Hnone. unfold _execute_job. simpl. by rewrite Hnone. Qed.

(** With a provider at hand that is up or starts, a failed job carries a
    code of the taxonomy. *)
Lemma execute_job_adapter_code w reg job provider :
  get_provider_for_model reg (resolved_model_id job) = Some provider →
  ensure_running w provider = None →
  status (_execute_job w reg job) = Error →
  ∃ code, normalized_error (_execute_job w reg job) = Some code ∧
          code ∈ normalized_codes.
Proof.
  intros Hsome Hup. unfold _execute_job. simpl. rewrite Hsome, Hup.
  unfold chat_completion, OllamaProvider.chat_completion,
    OpenAICompatProvider.chat_completion, normalized_codes.
  destruct (class provider); simpl;
    destruct (chat_post _ _ _) as [| | |code text [body|]]; simpl;
    try destruct (negb _); simpl; try done;
    intros _; eexists; (split; [reflexivity|]);
    apply (bool_decide_unpack _); reflexivity.
Qed.

(** C6 fails on the code: a job whose model has no provider in the registry
    ends in [error] with the integer 500 in its normalized-code slot; that
    is outside the taxonomy and it is what the handler then reads. *)
Theorem no_provider_code_is_500 :
  let job := _execute_job two_providers two_providers_registry
               (job_for "j9" "ghost") in
  status job = Error ∧
  error job = Some "No provider found for ghost" ∧
  normalized_error job = Some (PyInt 500) ∧
  (PyInt 500 ∉ normalized_codes) ∧
  py_or (normalized_error job) (PyStr "other") = PyInt 500.
Proof.
  repeat split; try reflexivity.
  apply (bool_decide_unpack _). vm_compute. reflexivity.
Qed.

(** ** Listing models *)

Lemma openai_compat_declared w config m declared :
  declared_models config = Some (m :: declared) →
  OpenAICompatProvider.list_models w config = (m :: declared, []).
Proof. intros H. unfold OpenAICompatProvider.list_models. by rewrite H. Qed.

Lemma ollama_always_asks w config :
  (OllamaProvider.list_models w config).2
  = [GET (config_provider_id config) (models_path config)].
Proof.
  unfold OllamaProvider.list_models.
  destruct (models_get _ _ _) as [|code listing]; [done|].
  by destruct (code =? 200)%Z.
Qed.

(** C9 fails on the code for the Ollama adapter: with [llama3] declared in
    the record and a listing endpoint that answers 500, it issues the GET
    and returns the empty list; the OpenAI-compatible adapter, given the
    same record, returns the declared list without any request. *)
Theorem ollama_ignores_declared_models :
  OllamaProvider.list_models listing_fails ollama_declared
    = ([], [GET "pO" "/api/tags"]) ∧
  OpenAICompatProvider.list_models listing_fails ollama_declared
    = (["llama3"], []).
Proof. split; reflexivity. Qed.

(** ** The health handler *)

(** C10.  Every call of the health handler raises an attribute error: it
    reads [active_model_id] and [active_provider_id] on the queuing
    scheduler, whose instances have neither; the single-active-model
    scheduler has both and would give the payload. *)
Theorem health_raises_attribute_error :
  (∀ (s : Scheduler) (reg : Registry),
     health s reg = Raise (AttributeError "Scheduler" "active_model_id")) ∧
  ("active_model_id" ∉ Scheduler_attributes) ∧
  ("active_provider_id" ∉ Scheduler_attributes) ∧
  (∀ (s : LegacyScheduler) (reg : Registry),
     health_of (LegacyScheduler_getattr s) reg
     = Ok {| payload_status := "ok";
             active_model := optional_str (active_model_id s);
             active_provider := optional_str (active_provider_id s);
             registry_models := dom (model_map reg) |}).
Proof.
  split; [|split; [|split]].
  - intros s reg. reflexivity.
  - apply (bool_decide_unpack _). vm_compute. reflexivity.
  - apply (bool_decide_unpack _). vm_compute. reflexivity.
  - intros s reg. reflexivity.
Qed.

(** ** The dispatch loop *)







(* ===================================================================== *)
(** * Part III: further properties of the code                            *)
(* ===================================================================== *)

(** ** The concurrency cap *)

(** X1.  The cap of [MaxConcurrencyRule(10)] holds in every reachable
    scheduler: at no time are more than ten jobs running. *)
Theorem active_jobs_capped
    (models : gmap string ModelScoreConfig)
    (default_model_score : ModelScoreConfig) (s : Scheduler) :
  reachable models default_model_score s →
  length (active_jobs s) ≤ 10.
Proof.
  intros Hreach.
  apply (reachable_active_ind models default_model_score
           (λ l, length l ≤ 10)); [| | |done].
  - simpl. lia.
  - intros job l Hl Hrun. apply default_rules_can_run in Hrun as (_ & _ & Hmax).
    unfold MaxConcurrencyRule.can_run in Hmax. apply Z.ltb_lt in Hmax.
    rewrite length_app. simpl. lia.
  - intros job l Hl. pose proof (list_remove_length job l). lia.
Qed.

Lemma active_jobs_capped_witness : length (active_jobs gpu_running) ≤ 10.
Proof.
  apply (active_jobs_capped gpu_models ModelScoreConfig_default).
  eapply reach_schedule.
  - apply (reach_enqueue _ _ (job_for "j2" "mB")),
          (reach_enqueue _ _ (job_for "j1" "mA")), reach_init.
  - by apply schedule_pass_ok.
Defined.

(** A pass in which the manager refuses every job starts nothing. *)
Lemma schedule_loop_refused models s cands :
  (∀ job, ConcurrencyManager.can_run (concurrency_manager s) models job
            (active_jobs s) = false) →
  foldl (schedule_head models) (s, [], 0) cands = (s, [], 0).
Proof.
  intros Hno. induction cands as [|m cands IH]; simpl; [done|].
  destruct (dict_get m (queues s)) as [[|job rest]|]; simpl; try done.
  by rewrite Hno.
Qed.

(** X2.  A manager that holds [MaxConcurrencyRule(N)] while [N] or more jobs
    are running lets nothing through: the pass returns 0 and leaves the
    scheduler as it is.  With [N = 0] this is every pass. *)
Theorem max_concurrency_blocks_pass
    (models : gmap string ModelScoreConfig)
    (default_model_score : ModelScoreConfig) (s : Scheduler) (N : Z) :
  MaxConcurrencyRule.rule N ∈ concurrency_manager s →
  (N ≤ Z.of_nat (length (active_jobs s)))%Z →
  _schedule_pending_jobs (Ok models) default_model_score s = Ok (s, [], 0).
Proof.
  intros Hin Hfull. unfold _schedule_pending_jobs.
  destruct (decide (candidate_models s = [])); [done|].
  unfold schedule_heads. rewrite schedule_loop_refused; [done|].
  intros job. apply not_true_iff_false. rewrite can_run_all. intros Hall.
  specialize (Hall _ Hin). simpl in Hall.
  unfold MaxConcurrencyRule.can_run in Hall. apply Z.ltb_lt in Hall. lia.
Qed.

Lemma max_concurrency_blocks_pass_witness :
  _schedule_pending_jobs (Ok gpu_models) ModelScoreConfig_default
    (set_active_jobs [] {| queues := queues gpu_queued; active_jobs := [];
                           concurrency_manager := [MaxConcurrencyRule.rule 0];
                           _shutdown_event := false;
                           _job_complete_event := false;
                           _new_job_event := true |})
  = Ok (set_active_jobs []
          {| queues := queues gpu_queued; active_jobs := [];
             concurrency_manager := [MaxConcurrencyRule.rule 0];
             _shutdown_event := false; _job_complete_event := false;
             _new_job_event := true |}, [], 0).
Proof.
  apply (max_concurrency_blocks_pass gpu_models ModelScoreConfig_default _ 0).
  - simpl. left.
  - simpl. lia.
Defined.

(** ** The order of the rules *)



(** ** Ties in the candidate order *)

Lemma tuple_le_refl a : tuple_le a a = true.
Proof.
  unfold tuple_le. rewrite Z.eqb_refl, Z.leb_refl. simpl. apply orb_true_r.
Qed.

Lemma insert_by_key_filter {A} (key : A → Z * Z) (k : Z * Z) x l :
  filter (λ y, key y = k) (insert_by_key key x l)
  = filter (λ y, key y = k) (x :: l).
Proof.
  induction l as [|y l IH]; simpl; [done|].
  destruct (tuple_le (key x) (key y)) eqn:Hle; [done|].
  rewrite (filter_cons _ y (insert_by_key key x l)), IH.
  rewrite !filter_cons.
  destruct (decide (key y = k)) as [Hy|Hy], (decide (key x = k)) as [Hx|Hx];
    try done.
  exfalso. rewrite Hx, <- Hy, tuple_le_refl in Hle. done.
Qed.

(** X4.  The candidate sort is stable: models with the same key keep the
    order in which their queues were created. *)
Theorem sort_by_key_stable {A} (key : A → Z * Z) (k : Z * Z) (l : list A) :
  filter (λ y, key y = k) (sort_by_key key l) = filter (λ y, key y = k) l.
Proof.
  induction l as [|x l IH]; simpl; [done|].
  rewrite insert_by_key_filter, !filter_cons. by rewrite IH.
Qed.

(** ** Jobs are neither lost nor duplicated *)

Lemma dict_set_pop_concat (m : string) (job : Job) rest
    (d : list (string * list Job)) :
  dict_get m d = Some (job :: rest) →
  concat d.*2 ≡ₚ job :: concat (dict_set m rest d).*2.
Proof.
  induction d as [|[k q] d IH]; simpl; [done|].
  destruct (decide (k = m)) as [->|Hne]; simpl.
  - by intros [= ->].
  - intros Hget. rewrite (IH Hget).
    by rewrite Permutation_middle.
Qed.

Lemma dict_set_push_concat (m : string) (job : Job) q
    (d : list (string * list Job)) :
  dict_get m d = Some q →
  concat (dict_set m (q ++ [job]) d).*2 ≡ₚ job :: concat d.*2.
Proof.
  induction d as [|[k q'] d IH]; simpl; [done|].
  destruct (decide (k = m)) as [->|Hne]; simpl.
  - intros [= ->]. rewrite <- app_assoc. simpl.
    by rewrite <- Permutation_middle.
  - intros Hget. rewrite (IH Hget). by rewrite Permutation_middle.
Qed.

Lemma dict_set_new_concat (m : string) (d : list (string * list Job)) :
  concat (dict_set m [] d).*2 ≡ₚ concat d.*2 ∨ is_Some (dict_get m d).
Proof.
  induction d as [|[k q] d IH]; simpl; [by left|].
  destruct (decide (k = m)) as [->|Hne]; simpl; [by right|].
  destruct IH as [IH|IH]; [left; by rewrite IH | by right].
Qed.

Lemma schedule_head_conserves models st m :
  all_jobs (schedule_head models st m).1.1 ≡ₚ all_jobs st.1.1.
Proof.
  destruct st as [[s tasks] started]; simpl.
  destruct (dict_get m (queues s)) as [[|job rest]|] eqn:Hget; simpl; try done.
  destruct (ConcurrencyManager.can_run _ _ _ _); simpl; [|done].
  unfold all_jobs; simpl. rewrite (dict_set_pop_concat m job rest _ Hget).
  rewrite app_assoc, <- Permutation_cons_append.
  by rewrite <- app_comm_cons.
Qed.

Lemma schedule_loop_conserves models st cands :
  all_jobs (foldl (schedule_head models) st cands).1.1 ≡ₚ all_jobs st.1.1.
Proof.
  revert st. induction cands as [|m cands IH]; intros st; simpl; [done|].
  rewrite IH. apply schedule_head_conserves.
Qed.

(** X5.  Enqueuing adds exactly the new job to what the scheduler holds,
    and a scheduling pass only moves jobs from the queues to the active
    set: none is lost, none appears twice. *)
Theorem jobs_conserved
    (load_models : result (gmap string ModelScoreConfig))
    (default_model_score : ModelScoreConfig) (s : Scheduler) :
  (∀ job, all_jobs (enqueue_job job s) ≡ₚ job :: all_jobs s) ∧
  (∀ s' tasks started,
     _schedule_pending_jobs load_models default_model_score s
       = Ok (s', tasks, started) →
     all_jobs s' ≡ₚ all_jobs s).
Proof.
  split.
  - intros job. unfold all_jobs, enqueue_job; simpl.
    destruct (dict_get (resolved_model_id job) (queues s)) as [q|] eqn:Hget.
    + rewrite Hget. simpl. by rewrite (dict_set_push_concat _ _ q).
    + rewrite dict_get_set_eq. simpl.
      pose proof (dict_set_push_concat (resolved_model_id job) job []
                    (dict_set (resolved_model_id job) [] (queues s))
                    (dict_get_set_eq _ _ _)) as Hpush.
      simpl in Hpush. rewrite Hpush.
      destruct (dict_set_new_concat (resolved_model_id job) (queues s))
        as [Hp|[q Hq]]; [by rewrite Hp | congruence].
  - intros s' tasks started. unfold _schedule_pending_jobs.
    destruct (decide _); [by intros [= <- _ _]|].
    destruct load_models as [models|e]; [|done].
    intros [= Hpass]. unfold schedule_heads in Hpass.
    pose proof (schedule_loop_conserves models (s, [], 0)
                  (sorted_candidates models default_model_score s)) as H.
    by rewrite Hpass in H.
Qed.

Lemma jobs_conserved_witness : all_jobs gpu_running ≡ₚ all_jobs gpu_queued.
Proof.
  apply (proj2 (jobs_conserved (Ok gpu_models) ModelScoreConfig_default
                  gpu_queued)
           gpu_running
           (schedule_heads gpu_models ModelScoreConfig_default gpu_queued).1.2
           (schedule_heads gpu_models ModelScoreConfig_default gpu_queued).2).
  by apply schedule_pass_ok.
Defined.

(** ** Enqueuing *)

(** X6.  [enqueue_job] puts the job at the tail of its model's queue,
    creating the queue at the end of the dictionary when the model is new;
    the other queues and the active set stay as they are, and the new-job
    event is set. *)
Theorem enqueue_job_tail (job : Job) (s : Scheduler) :
  dict_get (resolved_model_id job) (queues (enqueue_job job s))
    = Some (default [] (dict_get (resolved_model_id job) (queues s)) ++ [job]) ∧
  (∀ m, m ≠ resolved_model_id job →
        dict_get m (queues (enqueue_job job s)) = dict_get m (queues s)) ∧
  dict_keys (queues (enqueue_job job s))
    = (match dict_get (resolved_model_id job) (queues s) with
       | Some _ => dict_keys (queues s)
       | None => dict_keys (queues s) ++ [resolved_model_id job]
       end) ∧
  active_jobs (enqueue_job job s) = active_jobs s ∧
  _new_job_event (enqueue_job job s) = true.
Proof.
  unfold enqueue_job; simpl. repeat split.
  - rewrite dict_get_set_eq.
    destruct (dict_get _ (queues s)) eqn:Hget; simpl.
    + by rewrite Hget.
    + by rewrite dict_get_set_eq.
  - intros m Hne. rewrite dict_get_set_ne by done.
    destruct (dict_get _ (queues s)); [done|]. by rewrite dict_get_set_ne.
  - destruct (dict_get _ (queues s)) eqn:Hget.
    + by rewrite dict_keys_set_present by (by rewrite Hget).
    + rewrite dict_keys_set_present by (by rewrite dict_get_set_eq).
      by rewrite dict_keys_set_absent.
Qed.

(** ** Completion *)

Lemma list_remove_absent job l :
  job_id job ∉ job_id <$> l → list_remove job l = l.
Proof.
  induction l as [|j l IH]; simpl; [done|].
  intros [Hne Hnin]%not_elem_of_cons.
  rewrite decide_False by done. by rewrite IH.
Qed.

Lemma list_remove_first job l :
  job_id job ∈ job_id <$> l →
  ∃ l1 j l2, l = l1 ++ j :: l2 ∧ job_id j = job_id job ∧
             (job_id job ∉ job_id <$> l1) ∧ list_remove job l = l1 ++ l2.
Proof.
  induction l as [|j l IH]; simpl.
  - intros H. by apply elem_of_nil in H.
  - destruct (decide (job_id j = job_id job)) as [Heq|Hne].
    + intros _. exists [], j, l. repeat split; [done|]. apply not_elem_of_nil.
    + intros [?|Hin]%elem_of_cons; [done|].
      destruct (IH Hin) as (l1 & j' & l2 & -> & Hj' & Hl1 & Hrem).
      exists (j :: l1), j', l2. repeat split; [done| |by rewrite Hrem].
      simpl. apply not_elem_of_cons. split; [congruence | done].
Qed.

(** X7.  When the jobs running under the finished job's id are that very
    job, the [finally] block takes exactly one job out of the active set,
    the first occurrence of the finished job, and keeps the others in
    order; when the job is not there the active set is left alone.  Either
    way the queues are untouched and the completion event is set. *)
Theorem finish_job_removes_one (job : Job) (s : Scheduler) :
  (∀ j, j ∈ active_jobs s → job_id j = job_id job → j = job) →
  (job ∉ active_jobs s →
   active_jobs (finish_job job s) = active_jobs s) ∧
  (job ∈ active_jobs s →
   ∃ l1 l2, active_jobs s = l1 ++ job :: l2 ∧ (job ∉ l1) ∧
            active_jobs (finish_job job s) = l1 ++ l2) ∧
  queues (finish_job job s) = queues s ∧
  _job_complete_event (finish_job job s) = true.
Proof.
  intros Hsame. unfold finish_job; simpl.
  split; [|split; [|done]].
  - intros Hnin. rewrite bool_decide_eq_false_2; [done|].
    intros (j & Hid & Hin)%list_elem_of_fmap.
    apply Hnin. by rewrite <- (Hsame j Hin (eq_sym Hid)).
  - intros Hin. rewrite bool_decide_eq_true_2
      by (apply list_elem_of_fmap; by exists job).
    destruct (list_remove_first job (active_jobs s))
      as (l1 & j & l2 & Hsplit & Hid & Hl1 & Hrem).
    { apply list_elem_of_fmap. by exists job. }
    assert (j = job) as ->.
    { apply Hsame; [|done]. rewrite Hsplit.
      apply elem_of_app. right. by left. }
    exists l1, l2. split; [done|]. split; [|done].
    intros Hin1. apply Hl1. apply list_elem_of_fmap. by exists job.
Qed.

Lemma finish_job_removes_one_witness :
  ∃ l1 l2,
    active_jobs gpu_running = l1 ++ (job_for "j1" "mA") :: l2 ∧
    (job_for "j1" "mA" ∉ l1) ∧
    active_jobs (finish_job (job_for "j1" "mA") gpu_running) = l1 ++ l2.
Proof.
  assert (active_jobs gpu_running = [job_for "j1" "mA"]) as Hactive
    by (vm_compute; reflexivity).
  apply (finish_job_removes_one (job_for "j1" "mA") gpu_running).
  - intros j Hin _. rewrite Hactive in Hin.
    by apply list_elem_of_singleton in Hin.
  - rewrite Hactive. by left.
Defined.

(** X8.  Dispatch then completion is a round trip on the active set: a job
    whose id is not yet among the running ones, once appended and finished,
    leaves the active set exactly as it was. *)
Theorem dispatch_finish_round_trip (job : Job) (s : Scheduler) :
  job_id job ∉ job_id <$> active_jobs s →
  active_jobs (finish_job job (set_active_jobs (active_jobs s ++ [job]) s))
  = active_jobs s.
Proof.
  intros Hfresh. unfold finish_job; simpl.
  rewrite bool_decide_eq_true_2.
  2:{ rewrite fmap_app. apply elem_of_app. right. simpl. by left. }
  clear -Hfresh. induction (active_jobs s) as [|j l IH]; simpl.
  - by rewrite decide_True.
  - apply not_elem_of_cons in Hfresh as [Hne Hfresh].
    rewrite decide_False by done. by rewrite IH.
Qed.

Lemma dispatch_finish_round_trip_witness :
  active_jobs (finish_job (job_for "j7" "mA")
                 (set_active_jobs (active_jobs gpu_running
                                   ++ [job_for "j7" "mA"]) gpu_running))
  = active_jobs gpu_running.
Proof.
  apply dispatch_finish_round_trip.
  apply (bool_decide_unpack _). vm_compute. reflexivity.
Defined.

(** ** A pass that starts nothing *)

Lemma schedule_head_counts models st m :
  schedule_head models st m = st ∨
  (schedule_head models st m).2 = S st.2.
Proof.
  destruct st as [[s tasks] started]; simpl.
  destruct (dict_get m (queues s)) as [[|job rest]|]; simpl; try by left.
  destruct (ConcurrencyManager.can_run _ _ _ _); simpl; [by right | by left].
Qed.

Lemma schedule_loop_counts models st cands :
  st.2 ≤ (foldl (schedule_head models) st cands).2 ∧
  ((foldl (schedule_head models) st cands).2 = st.2 →
   foldl (schedule_head models) st cands = st).
Proof.
  revert st. induction cands as [|m cands IH]; intros st; simpl; [done|].
  destruct (IH (schedule_head models st m)) as [Hle Heq].
  destruct (schedule_head_counts models st m) as [Hsame|Hmore].
  - rewrite Hsame in *. done.
  - split; [lia|]. intros H. lia.
Qed.

(** X9.  A pass that reports no job started has changed nothing: the
    scheduler is the one it was given and no execution task was created. *)
Theorem idle_pass_changes_nothing
    (load_models : result (gmap string ModelScoreConfig))
    (default_model_score : ModelScoreConfig)
    (s s' : Scheduler) (tasks : list Job) :
  _schedule_pending_jobs load_models default_model_score s
    = Ok (s', tasks, 0) →
  s' = s ∧ tasks = [].
Proof.
  unfold _schedule_pending_jobs.
  destruct (decide _); [by intros [= <- <-]|].
  destruct load_models as [models|e]; [|done].
  intros [= Hpass]. unfold schedule_heads in Hpass.
  destruct (schedule_loop_counts models (s, [], 0)
              (sorted_candidates models default_model_score s)) as [_ Heq].
  rewrite Hpass in Heq. simpl in Heq. specialize (Heq eq_refl).
  by injection Heq as -> ->.
Qed.

Lemma idle_pass_changes_nothing_witness :
  (schedule_heads gpu_models ModelScoreConfig_default gpu_running).1.1
  = gpu_running ∧
  (schedule_heads gpu_models ModelScoreConfig_default gpu_running).1.2 = [].
Proof.
  apply (idle_pass_changes_nothing (Ok gpu_models) ModelScoreConfig_default).
  rewrite schedule_pass_ok by (vm_compute; discriminate).
  refine (f_equal (λ n, Ok (_, _, n)) _). vm_compute. reflexivity.
Defined.

(** ** A model that asks for more than the whole machine *)




(** ** Loading the provider records *)

Lemma register_provider_cases c ps :
  register_or_skip c ps =
    if decide (registrable c)
    then dict_set (config_provider_id c) (provider_of c) ps
    else ps.
Proof.
  unfold register_or_skip, _register_provider, provider_of, new_provider.
  destruct (decide (registrable c))
    as [(Hid & Hty & [url Hurl] & [secs Hsecs])|Hn].
  - rewrite (bool_decide_eq_false_2 _ Hid), Hurl, Hsecs.
    destruct Hty as [Hty|Hty].
    + by rewrite !(bool_decide_eq_true_2 _ Hty).
    + rewrite (bool_decide_eq_false_2 (provider_type c = "ollama"))
        by (by rewrite Hty).
      by rewrite (bool_decide_eq_true_2 _ Hty).
  - case_bool_decide as Hid; [done|].
    destruct (api_base_url c) as [url|] eqn:Hurl;
      [destruct (health_timeout_seconds c) as [secs|] eqn:Hsecs|].
    + case_bool_decide as Ho;
        [exfalso; apply Hn; split; [done|]; split; [by left | by split]|].
      case_bool_decide as Hc; [|done].
      exfalso. apply Hn. split; [done|]. split; [by right | by split].
    + by repeat case_bool_decide.
    + by repeat case_bool_decide.
Qed.

Lemma load_providers_snoc cs c ps :
  foldl (λ ps config, register_or_skip config ps) ps (cs ++ [c])
  = register_or_skip c
      (foldl (λ ps config, register_or_skip config ps) ps cs).
Proof. by rewrite foldl_app. Qed.

Lemma load_providers_lookup cs k :
  dict_get k (foldl (λ ps config, register_or_skip config ps) [] cs)
  = provider_of <$>
      last (filter (λ c, registrable c ∧ config_provider_id c = k) cs).
Proof.
  induction cs as [|c cs IH] using rev_ind; [done|].
  rewrite load_providers_snoc, register_provider_cases, filter_app.
  rewrite filter_cons, filter_nil.
  destruct (decide (registrable c)) as [Hc|Hc].
  - destruct (decide (config_provider_id c = k)) as [<-|Hne].
    + rewrite dict_get_set_eq, decide_True by done. by rewrite last_snoc.
    + rewrite dict_get_set_ne by done.
      rewrite decide_False by (by intros [_ ?]). by rewrite app_nil_r.
  - rewrite decide_False by (by intros [? _]). by rewrite app_nil_r.
Qed.

Lemma load_providers_keys_NoDup cs :
  NoDup (dict_keys (foldl (λ ps config, register_or_skip config ps) [] cs)).
Proof.
  induction cs as [|c cs IH] using rev_ind; [apply NoDup_nil_2|].
  rewrite load_providers_snoc, register_provider_cases.
  destruct (decide _); [by apply dict_set_keys_NoDup | done].
Qed.

Lemma providers_loaded (w : World) (k : string) :
  let ps := load_providers_from_disk w [] in
  NoDup (dict_keys ps) ∧
  dict_get k ps
    = provider_of <$>
        last (filter (λ c, registrable c ∧ config_provider_id c = k)
                (provider_files w)) ∧
  (∀ p, dict_get k ps = Some p →
        config_provider_id (config p) = k ∧ k ≠ "" ∧
        config p ∈ provider_files w).
Proof.
  unfold load_providers_from_disk. split; [apply load_providers_keys_NoDup|].
  split; [apply load_providers_lookup|].
  intros p. rewrite load_providers_lookup.
  destruct (last _) as [c|] eqn:Hlast; [|done]. intros [= <-].
  apply last_Some_elem_of in Hlast.
  apply list_elem_of_filter in Hlast as [[[Hid _] Hk] Hin].
  simpl. by rewrite <- Hk.
Qed.

(** X11.  Loading the provider records keeps, for every provider id, the
    adapter built from the last record on disk that carries this id, a
    known type, and the keys [api.base_url] and
    [api.health.timeout_seconds] that the adapter's constructor reads;
    records without an id, with an unknown type, or on which the
    constructor raises are skipped.  No id occurs twice, and every adapter
    is filed under its own, non-empty, id. *)
Theorem providers_loaded_by_id (w : World) (k : string) :
  let ps := load_providers_from_disk w [] in
  NoDup (dict_keys ps) ∧
  dict_get k ps
    = provider_of <$>
        last (filter (λ c, registrable c ∧ config_provider_id c = k)
                (provider_files w)) ∧
  (∀ p, dict_get k ps = Some p →
        config_provider_id (config p) = k ∧ k ≠ "" ∧
        config p ∈ provider_files w).
Proof. apply providers_loaded. Qed.

Lemma providers_loaded_by_id_witness :
  config_provider_id (config (provider_of
     (provider_record "pA" "openai_compat" (Some ["m1"])))) = "pA" ∧
  "pA" ≠ "" ∧
  provider_record "pA" "openai_compat" (Some ["m1"])
    ∈ provider_files two_providers.
Proof.
  apply (proj2 (proj2 (providers_loaded_by_id two_providers "pA"))).
  vm_compute. reflexivity.
Defined.

(** ** Who owns a model *)

Lemma register_models_lookup p_id found (mm : gmap string string) m :
  register_models p_id found mm !! m
  = match mm !! m with
    | Some owner => Some owner
    | None => if bool_decide (m ∈ found) then Some p_id else None
    end.
Proof.
  unfold register_models. revert mm.
  induction found as [|m' found IH]; intros mm; simpl.
  - by destruct (mm !! m).
  - rewrite IH. destruct (mm !! m') as [owner'|] eqn:Hm'.
    + destruct (mm !! m) as [owner|] eqn:Hm; [done|].
      destruct (decide (m = m')) as [->|Hne]; [congruence|].
      by rewrite (bool_decide_ext (m ∈ m' :: found) (m ∈ found))
        by (rewrite elem_of_cons; split; [by intros [?|?] | by right]).
    + destruct (decide (m = m')) as [->|Hne].
      * rewrite lookup_insert_eq, Hm'.
        rewrite bool_decide_eq_true_2; [done | by left].
      * rewrite lookup_insert_ne by done.
        destruct (mm !! m); [done|].
        by rewrite (bool_decide_ext (m ∈ m' :: found) (m ∈ found))
          by (rewrite elem_of_cons; split; [by intros [?|?] | by right]).
Qed.

Lemma detect_provider_registers w p (mm : gmap string string) :
  (detect_provider w p mm).2
  = register_models (config_provider_id (config p)) (probed_models w p) mm.
Proof.
  unfold detect_provider, probed_models.
  destruct (_ && _ && is_managed p); [done|].
  by destruct (if negb (health_check w p) && is_managed p then _ else _).
Qed.

Lemma detect_loop_lookup w ps (mm : gmap string string) m :
  (detect_loop w ps mm).2 !! m
  = match mm !! m with
    | Some owner => Some owner
    | None =>
        (λ kp : string * Provider, config_provider_id (config kp.2))
          <$> head (filter (λ kp : string * Provider,
                              m ∈ probed_models w kp.2) ps)
    end.
Proof.
  revert mm. induction ps as [|[k p] ps IH]; intros mm; simpl.
  - by destruct (mm !! m).
  - pose proof (detect_provider_registers w p mm) as Hreg.
    destruct (detect_provider w p mm) as [seen mm'] eqn:Hp. simpl in Hreg.
    specialize (IH mm').
    destruct (detect_loop w ps mm') as [seen' final] eqn:Hl. simpl in *.
    rewrite IH, Hreg, register_models_lookup, filter_cons. simpl.
    destruct (mm !! m); [done|].
    case_bool_decide; by destruct (decide _).
Qed.


(** X13.  After a refresh every model of the map can be dispatched: the
    registry holds the adapter of the provider that the map names, so
    [get_provider_for_model] finds it. *)
Theorem refreshed_models_have_providers
    (w : World) (now : Q) (reg : Registry) (m k : string) :
  model_map (refresh w now reg).2 !! m = Some k →
  ∃ p, get_provider_for_model (refresh w now reg).2 m = Some p ∧
       config_provider_id (config p) = k ∧
       m ∈ probed_models w p.
Proof.
  rewrite refresh_unfold. unfold get_provider_for_model. simpl.
  rewrite detect_loop_lookup, lookup_empty.
  destruct (head _) as [[k' p]|] eqn:Hhead; [|done]. simpl. intros [= <-].
  apply head_Some_elem_of in Hhead.
  apply list_elem_of_filter in Hhead as [Hm Hin]. simpl in Hm.
  pose proof (providers_loaded w k') as (Hnd & _ & Hwf).
  apply (dict_get_NoDup _ _ _ Hnd) in Hin.
  destruct (Hwf p Hin) as (Hid & Hne & _).
  rewrite Hid, (bool_decide_eq_false_2 _ Hne).
  exists p. by repeat split.
Qed.

Lemma refreshed_models_have_providers_witness :
  ∃ p, get_provider_for_model (refresh two_providers 30 Registry_init).2 "m2"
       = Some p ∧
       config_provider_id (config p) = "pB" ∧
       "m2" ∈ probed_models two_providers p.
Proof.
  apply (refreshed_models_have_providers two_providers 30 Registry_init).
  vm_compute. reflexivity.
Defined.

(** ** What the adapters raise *)

Lemma chat_completion_outcomes
    (w : World) (p : Provider) (request : ChatCompletionRequest) :
  let pid := config_provider_id (config p) in
  (∀ r, chat_completion w p request = Ok r ↔
        ∃ text, chat_post w pid request = ChatReply 200 text (Some r)) ∧
  (∀ e, chat_completion w p request = Raise e →
        (normalized_code e = Some (PyStr "unreachable") ∧
         chat_post w pid request = ChatConnectError) ∨
        (normalized_code e = Some (PyStr "timeout") ∧
         chat_post w pid request = ChatReadTimeout) ∨
        (normalized_code e = Some (PyStr "other") ∧
         chat_post w pid request ≠ ChatConnectError ∧
         chat_post w pid request ≠ ChatReadTimeout)).
Proof.
  simpl. unfold chat_completion, OllamaProvider.chat_completion,
    OpenAICompatProvider.chat_completion.
  split.
  - intros r.
    destruct (class p);
      destruct (chat_post _ _ _) as [| | |code text body]; simpl.
    all: try (split; [discriminate | intros [? H]; discriminate H]).
    all: destruct (Z.eqb_spec code 200) as [->|Hne]; simpl.
    all: destruct body as [b|]; simpl.
    all: split; [intros H; simplify_eq; by eexists
                | intros [t H]; by simplify_eq].
  - intros e.
    destruct (class p);
      destruct (chat_post _ _ _) as [| | |code text body]; simpl.
    all: try destruct (negb _); try destruct body; simpl.
    all: intros H; simplify_eq; simpl.
    all: first [by left | by right; left | by right; right].
Qed.

(** X14.  Both adapters answer a chat request with the envelope exactly
    when the backend replied 200 with a body that decodes.  Every failure
    is a typed error: [unreachable] exactly for a connection error,
    [timeout] exactly for a read timeout, [other] for everything else; the
    codes [oom] and [context_length] are never produced. *)
Theorem chat_completion_errors
    (w : World) (p : Provider) (request : ChatCompletionRequest) :
  let pid := config_provider_id (config p) in
  (∀ r, chat_completion w p request = Ok r ↔
        ∃ text, chat_post w pid request = ChatReply 200 text (Some r)) ∧
  (∀ e, chat_completion w p request = Raise e →
        (normalized_code e = Some (PyStr "unreachable") ∧
         chat_post w pid request = ChatConnectError) ∨
        (normalized_code e = Some (PyStr "timeout") ∧
         chat_post w pid request = ChatReadTimeout) ∨
        (normalized_code e = Some (PyStr "other") ∧
         chat_post w pid request ≠ ChatConnectError ∧
         chat_post w pid request ≠ ChatReadTimeout)).
Proof. apply chat_completion_outcomes. Qed.

Lemma chat_completion_errors_witness :
  (normalized_code (ProviderTimeoutError "pA") = Some (PyStr "unreachable") ∧
   chat_post two_providers "pA" route_request = ChatConnectError) ∨
  (normalized_code (ProviderTimeoutError "pA") = Some (PyStr "timeout") ∧
   chat_post two_providers "pA" route_request = ChatReadTimeout) ∨
  (normalized_code (ProviderTimeoutError "pA") = Some (PyStr "other") ∧
   chat_post two_providers "pA" route_request ≠ ChatConnectError ∧
   chat_post two_providers "pA" route_request ≠ ChatReadTimeout).
Proof.
  apply (proj2 (chat_completion_errors two_providers
                  (provider_of (provider_record "pA" "openai_compat"
                                  (Some ["m1"])))
                  route_request)).
  vm_compute. reflexivity.
Defined.

(** ** The execution task *)

(** X15.  The execution task leaves every job in exactly one of the two
    terminal states: [completed] with a response and the provider's id, or
    [error] with a message.  It never leaves it pending or running, and it
    does not touch the job's id, its model ids or its request.  A failed
    job carries a normalized code, except when the failure is an exception
    without one (raised by [start()]): then the job's slot for the code is
    left as it was. *)
Theorem execute_job_terminal (w : World) (reg : Registry) (job : Job) :
  let job' := _execute_job w reg job in
  job_id job' = job_id job ∧
  original_model_id job' = original_model_id job ∧
  resolved_model_id job' = resolved_model_id job ∧
  request job' = request job ∧
  ((status job' = Completed ∧ is_Some (response job') ∧
    error job' = error job ∧
    ∃ p, get_provider_for_model reg (resolved_model_id job) = Some p ∧
         ensure_running w p = None ∧
         provider_id job' = Some (config_provider_id (config p)))
   ∨
   (status job' = Error ∧ is_Some (error job') ∧
    response job' = response job ∧
    (is_Some (normalized_error job') ∨
     ∃ p e, get_provider_for_model reg (resolved_model_id job) = Some p ∧
            ensure_running w p = Some e ∧
            normalized_code e = None ∧
            error job' = Some (exn_message e) ∧
            normalized_error job' = normalized_error job))).
Proof.
  simpl. unfold _execute_job. simpl.
  destruct (get_provider_for_model reg (resolved_model_id job)) as [p|]; simpl.
  - destruct (ensure_running w p) as [e|] eqn:Hup; simpl.
    + repeat split; try done. right. repeat split; eauto.
      destruct (normalized_code e) as [code|] eqn:Hcode; [by left; eauto|].
      right. by exists p, e.
    + destruct (chat_completion w p (request job)) as [r|e] eqn:Hchat; simpl.
      * repeat split; try done. left. repeat split; eauto.
      * repeat split; try done. right. repeat split; eauto. left.
        destruct (proj2 (chat_completion_outcomes w p (request job)) e Hchat)
          as [[-> _]|[[-> _]|[-> _]]]; eauto.
  - repeat split; try done. right. repeat split; eauto.
Qed.

(** ** The handler and unknown models *)

Section HandlerFacts.

Variable cfg : Config.
Variable w : World.
Variable t : Timing.
Variable await_job : Gateway → Job → Job.

Lemma candidate_body_missing candidates rn triggers i m h :
  auto_refresh_on_miss (runtime cfg) = false →
  model_map (registry (gateway h)) !! m = None →
  candidate_body cfg w t await_job candidates rn triggers i m h
  = ({| gateway := gateway h; shared_request := shared_request h;
        attempts_log := attempts_log h ++ [not_found_attempt m];
        last_error := Some ("Model " +:+ m +:+ " not found") |}, Continue).
Proof.
  intros Hauto Hmiss. unfold candidate_body, after_miss.
  rewrite Hauto, andb_false_r. by rewrite (bool_decide_eq_true_2 _ Hmiss).
Qed.

Lemma for_candidates_all_missing candidates rn triggers i remaining h :
  auto_refresh_on_miss (runtime cfg) = false →
  (∀ m, m ∈ remaining → model_map (registry (gateway h)) !! m = None) →
  let r := for_candidates cfg w t await_job candidates rn triggers i
             remaining h in
  r.2 = Break ∧ gateway r.1 = gateway h ∧
  attempts_log r.1 = attempts_log h ++ (not_found_attempt <$> remaining).
Proof.
  intros Hauto. revert i h.
  induction remaining as [|m remaining IH]; intros i h Hmiss; simpl.
  - by rewrite app_nil_r.
  - rewrite candidate_body_missing by (done || (apply Hmiss; by left)).
    destruct (IH (S i)
      {| gateway := gateway h; shared_request := shared_request h;
         attempts_log := attempts_log h ++ [not_found_attempt m];
         last_error := Some ("Model " +:+ m +:+ " not found") |})
      as (Hc & Hg & Hlog).
    { intros m' Hin. apply Hmiss. by right. }
    split; [exact Hc|]. split; [exact Hg|].
    rewrite Hlog. simpl. by rewrite <- app_assoc.
Qed.

(** X17.  With [auto_refresh_on_miss] off, a request none of whose
    candidates is in the model map fails with 500 and one "not found"
    record per candidate, in order; nothing is enqueued, nothing is
    refreshed.  Unknown candidates are walked through whether or not
    fallback is enabled and whatever the route's triggers are. *)
Theorem unknown_models_fail_without_jobs
    (request : ChatCompletionRequest) (g : Gateway) :
  auto_refresh_on_miss (runtime cfg) = false →
  (∀ m, m ∈ candidates_of cfg request →
        model_map (registry g) !! m = None) →
  chat_completions cfg w t await_job request g
  = (g, HTTPException 500 (not_found_attempt <$> candidates_of cfg request)).
Proof.
  intros Hauto Hmiss. unfold chat_completions, candidates_of in *.
  destruct (resolve_model cfg (model request))
    as [[[primary rn] fallbacks] triggers].
  destruct (for_candidates_all_missing (primary :: fallbacks) rn triggers 0
              (primary :: fallbacks)
              {| gateway := g; shared_request := request;
                 attempts_log := []; last_error := None |} Hauto Hmiss)
    as (Hc & Hg & Hlog).
  destruct (for_candidates _ _ _ _ _ _ _ _ _ _) as [h' c]. simpl in *.
  subst c. by rewrite Hg, Hlog.
Qed.

(** ** The jobs a request creates *)

Lemma after_miss_enqueued m g :
  enqueued (after_miss cfg w t m g) = enqueued g ∧
  (refresh_calls (after_miss cfg w t m g) = refresh_calls g ∨
   refresh_calls (after_miss cfg w t m g) = refresh_calls g ++ [clock g]).
Proof.
  unfold after_miss. destruct (_ && _); simpl; [|by split; [|left]].
  by split; [|right].
Qed.

Lemma candidate_body_enqueued candidates rn triggers i m h :
  let r := candidate_body cfg w t await_job candidates rn triggers i m h in
  (enqueued (gateway r.1) = enqueued (gateway h) ∨
   ∃ job, enqueued (gateway r.1) = enqueued (gateway h) ++ [job] ∧
          resolved_model_id job = m ∧ freshly_built rn job) ∧
  length (refresh_calls (gateway r.1))
    ≤ S (length (refresh_calls (gateway h))).
Proof.
  simpl. destruct (after_miss_enqueued m (gateway h)) as [Henq Href].
  assert (length (refresh_calls (after_miss cfg w t m (gateway h)))
          ≤ S (length (refresh_calls (gateway h)))) as Hlen.
  { destruct Href as [->| ->]; [lia|]. rewrite length_app. simpl. lia. }
  unfold candidate_body.
  destruct (bool_decide (model_map _ !! m = None)); simpl.
  { split; [by left | done]. }
  assert (∀ x : Handler * loop_control,
            gateway x.1 = gateway_enqueue t
              (new_job t rn m h (after_miss cfg w t m (gateway h)))
              (after_miss cfg w t m (gateway h)) →
            (enqueued (gateway x.1) = enqueued (gateway h) ∨
             ∃ job, enqueued (gateway x.1) = enqueued (gateway h) ++ [job] ∧
                    resolved_model_id job = m ∧ freshly_built rn job) ∧
            length (refresh_calls (gateway x.1))
              ≤ S (length (refresh_calls (gateway h)))) as Hgen.
  { intros x ->. simpl. split; [|done]. right. eexists.
    rewrite Henq. split; [reflexivity|]. by repeat split. }
  repeat case_match; by apply Hgen.
Qed.

Lemma for_candidates_enqueued candidates rn triggers i remaining h :
  let r := for_candidates cfg w t await_job candidates rn triggers i
             remaining h in
  ∃ new, enqueued (gateway r.1) = enqueued (gateway h) ++ new ∧
         resolved_model_id <$> new `sublist_of` remaining ∧
         Forall (freshly_built rn) new ∧
         length (refresh_calls (gateway r.1))
           ≤ length (refresh_calls (gateway h)) + length remaining.
Proof.
  simpl. revert i h.
  induction remaining as [|m remaining IH]; intros i h; simpl.
  - exists []. rewrite app_nil_r.
    split; [done|]. split; [done|]. split; [constructor | lia].
  - pose proof (candidate_body_enqueued candidates rn triggers i m h)
      as [Hbody Href]. simpl in *.
    destruct (candidate_body _ _ _ _ _ _ _ _ _ _) as [h1 c] eqn:Hb.
    simpl in *.
    assert (∃ new1, enqueued (gateway h1) = enqueued (gateway h) ++ new1 ∧
                    resolved_model_id <$> new1 `sublist_of` [m] ∧
                    Forall (freshly_built rn) new1) as (new1 & H1 & Hs1 & Hf1).
    { destruct Hbody as [Hsame|(job & Hnew & Hm & Hfresh)].
      - exists []. rewrite app_nil_r.
        split; [done|]. split; [apply sublist_nil_l | constructor].
      - exists [job]. split; [done|]. split; [|by constructor].
        simpl. by rewrite Hm. }
    assert (resolved_model_id <$> new1 `sublist_of` m :: remaining) as Hs1'.
    { etrans; [exact Hs1|]. apply sublist_skip, sublist_nil_l. }
    destruct c.
    + destruct (IH (S i) h1) as (new & Hnew & Hsub & Hfr & Hlen).
      exists (new1 ++ new). rewrite Hnew, H1, <- app_assoc.
      split; [done|]. split; [|split; [by apply Forall_app | lia]].
      rewrite fmap_app. change (m :: remaining) with ([m] ++ remaining).
      by apply sublist_app.
    + exists new1. split; [done|]. split; [done|]. split; [done|]. simpl. lia.
    + exists new1. split; [done|]. split; [done|]. split; [done|]. simpl. lia.
    + exists new1. split; [done|]. split; [done|]. split; [done|]. simpl. lia.
Qed.

(** X18.  The jobs one request hands to the scheduler are for candidates of
    that request, in candidate order and at most one per candidate.  Each
    is built pending, without provider or response, carries the route's
    name, and has its request's [model] rewritten to the model it was
    resolved to.  The request refreshes the registry at most once per
    candidate. *)
Theorem request_jobs_follow_candidates
    (request : ChatCompletionRequest) (g : Gateway) :
  let g' := (chat_completions cfg w t await_job request g).1 in
  ∃ new, enqueued g' = enqueued g ++ new ∧
         resolved_model_id <$> new `sublist_of` candidates_of cfg request ∧
         Forall (freshly_built (resolve_model cfg (model request)).1.1.2) new ∧
         length (refresh_calls g')
           ≤ length (refresh_calls g) + length (candidates_of cfg request).
Proof.
  cbv zeta. unfold chat_completions, candidates_of.
  destruct (resolve_model cfg (model request))
    as [[[primary rn] fallbacks] triggers]. cbn [fst snd].
  pose proof (for_candidates_enqueued (primary :: fallbacks) rn triggers 0
                (primary :: fallbacks)
                {| gateway := g; shared_request := request;
                   attempts_log := []; last_error := None |}) as H.
  cbv zeta in H.
  destruct (for_candidates cfg w t await_job (primary :: fallbacks) rn
              triggers 0 (primary :: fallbacks) _) as [h' c].
  destruct c; cbn [fst snd] in *; exact H.
Qed.

Lemma candidate_body_returns candidates rn triggers i m h h' r :
  candidate_body cfg w t await_job candidates rn triggers i m h
    = (h', Return r) →
  ∃ job, last (enqueued (gateway h')) = Some job ∧
         resolved_model_id job = m ∧
         status (await_job (gateway h') job) = Completed ∧
         response (await_job (gateway h') job) = Some r.
Proof.
  unfold candidate_body. cbv zeta.
  destruct (bool_decide (model_map _ !! m = None)); [done|].
  set (g := after_miss cfg w t m (gateway h)).
  set (job0 := new_job t rn m h g).
  set (g1 := gateway_enqueue t job0 g).
  intros H. repeat case_match; simplify_eq.
  exists job0. cbn [gateway]. subst g1. cbn [gateway_enqueue enqueued].
  rewrite last_snoc. split; [done|]. split; [done|].
  split; [|done].
  match goal with
  | Hc : bool_decide _ = true |- _ => by apply bool_decide_eq_true_1 in Hc
  end.
Qed.

Lemma for_candidates_returns candidates rn triggers i remaining h h' r :
  for_candidates cfg w t await_job candidates rn triggers i remaining h
    = (h', Return r) →
  ∃ job, last (enqueued (gateway h')) = Some job ∧
         resolved_model_id job ∈ remaining ∧
         status (await_job (gateway h') job) = Completed ∧
         response (await_job (gateway h') job) = Some r.
Proof.
  revert i h. induction remaining as [|m remaining IH]; intros i h; simpl;
    [done|].
  destruct (candidate_body cfg w t await_job candidates rn triggers i m h)
    as [h1 c] eqn:Hb.
  destruct c; intros H; simplify_eq.
  - destruct (IH _ _ H) as (job & Hlast & Hin & Hst & Hresp).
    exists job. split; [done|]. split; [by right | done].
  - destruct (candidate_body_returns _ _ _ _ _ _ _ _ Hb)
      as (job & Hlast & Hm & Hst & Hresp).
    exists job. split; [done|]. split; [rewrite Hm; by left | done].
Qed.

(** X19.  A response the handler returns is the response of the job it
    enqueued last, and that job ended [completed]: no earlier job's answer
    and no answer of a failed job is ever passed on. *)
Theorem response_comes_from_last_job
    (request : ChatCompletionRequest) (g g' : Gateway)
    (r : ChatCompletionResponse) :
  chat_completions cfg w t await_job request g = (g', Response r) →
  ∃ job, last (enqueued g') = Some job ∧
         resolved_model_id job ∈ candidates_of cfg request ∧
         status (await_job g' job) = Completed ∧
         response (await_job g' job) = Some r.
Proof.
  unfold chat_completions, candidates_of.
  destruct (resolve_model cfg (model request))
    as [[[primary rn] fallbacks] triggers].
  destruct (for_candidates cfg w t await_job (primary :: fallbacks) rn
              triggers 0 (primary :: fallbacks) _) as [h' c] eqn:Hloop.
  destruct c; intros H; simplify_eq.
  by eapply for_candidates_returns.
Qed.

End HandlerFacts.

Lemma unknown_models_fail_without_jobs_witness :
  chat_completions no_refresh_config no_providers timing
    (executed no_providers) route_request (gateway_at Registry_init 0)
  = (gateway_at Registry_init 0,
     HTTPException 500
       (not_found_attempt <$> candidates_of no_refresh_config route_request)).
Proof.
  apply unknown_models_fail_without_jobs.
  - reflexivity.
  - intros m _. apply lookup_empty.
Defined.

Lemma response_comes_from_last_job_witness :
  ∃ job,
    last (enqueued
            (chat_completions (route_config ["timeout"]) two_providers timing
               (executed two_providers) route_request
               (gateway_at two_providers_registry 0)).1) = Some job ∧
    resolved_model_id job
      ∈ candidates_of (route_config ["timeout"]) route_request ∧
    status (executed two_providers
              (chat_completions (route_config ["timeout"]) two_providers
                 timing (executed two_providers) route_request
                 (gateway_at two_providers_registry 0)).1 job) = Completed ∧
    response (executed two_providers
                (chat_completions (route_config ["timeout"]) two_providers
                   timing (executed two_providers) route_request
                   (gateway_at two_providers_registry 0)).1 job)
      = Some (hello "m2").
Proof.
  apply (response_comes_from_last_job (route_config ["timeout"]) two_providers
           timing (executed two_providers) route_request
           (gateway_at two_providers_registry 0)).
  vm_compute. reflexivity.
Defined.

(** ** Resolving model names *)

Lemma substring_all s : String.substring 0 (String.length s) s = s.
Proof. induction s as [|a s IH]; simpl; [done | by rewrite IH]. Qed.

Lemma route_prefix name : String.prefix "route:" ("route:" +:+ name) = true.
Proof. simpl. by destruct name. Qed.

Lemma route_suffix name :
  String.substring 6 (String.length ("route:" +:+ name) - 6)
    ("route:" +:+ name) = name.
Proof.
  simpl. rewrite Nat.sub_0_r. apply substring_all.
Qed.

Lemma resolve_model_spec (cfg : Config) :
  (∀ x, String.prefix "route:" x = false →
        resolve_model cfg x = (x, None, [], [])) ∧
  (∀ name rc, routes cfg !! name = Some rc →
        resolve_model cfg ("route:" +:+ name)
        = (primary_model rc, Some name, fallback_models rc, fallback_on rc)) ∧
  (∀ name, routes cfg !! name = None →
        resolve_model cfg ("route:" +:+ name)
        = ("route:" +:+ name, None, [], [])).
Proof.
  split; [|split].
  - intros x Hx. unfold resolve_model. by rewrite Hx.
  - intros name rc Hrc. unfold resolve_model.
    by rewrite route_prefix, route_suffix, Hrc.
  - intros name Hrc. unfold resolve_model.
    by rewrite route_prefix, route_suffix, Hrc.
Qed.

(** X20.  [resolve_model] leaves every name that does not start with
    [route:] alone, expands [route:<name>] to the route's primary model,
    fallbacks and triggers when the route exists, and otherwise hands the
    whole string back as a model name with no fallbacks.  The expansion is
    one level deep: the primary model of a route is returned as it is
    written. *)
Theorem resolve_model_cases (cfg : Config) :
  (∀ x, String.prefix "route:" x = false →
        resolve_model cfg x = (x, None, [], [])) ∧
  (∀ name rc, routes cfg !! name = Some rc →
        resolve_model cfg ("route:" +:+ name)
        = (primary_model rc, Some name, fallback_models rc, fallback_on rc)) ∧
  (∀ name, routes cfg !! name = None →
        resolve_model cfg ("route:" +:+ name)
        = ("route:" +:+ name, None, [], [])).
Proof. apply resolve_model_spec. Qed.

Lemma resolve_model_cases_witness :
  resolve_model (route_config ["timeout"]) ("route:" +:+ "r1")
  = ("m1", Some "r1", ["m2"], ["timeout"]).
Proof.
  apply (proj1 (proj2 (resolve_model_cases (route_config ["timeout"])))
           "r1" {| primary_model := "m1"; fallback_models := ["m2"];
                   fallback_on := ["timeout"] |}).
  vm_compute. reflexivity.
Defined.

(** ** The model listing *)

Lemma cards_NoDup {V} (card : string → ModelCard) (m : gmap string V) :
  (∀ x y, card x = card y → x = y) →
  NoDup ((λ kv : string * V, card kv.1) <$> map_to_list m).
Proof.
  intros Hinj. apply NoDup_fmap_2_strong; [|apply NoDup_map_to_list].
  intros [k1 v1] [k2 v2] H1 H2 Heq. simpl in Heq.
  apply Hinj in Heq. subst k2.
  apply elem_of_map_to_list in H1, H2. by simplify_eq.
Qed.

(** X21.  [GET /v1/models] lists one card per model of the map and one per
    route, and nothing else: every model and every route has its card, no
    card occurs twice, and every card is the card of a model or of a
    route.  The id of a route card, sent back as the [model] of a request,
    resolves to that very route. *)
Theorem listed_routes_resolve (cfg : Config) (reg : Registry) :
  length (list_models_handler cfg reg)
    = size (model_map reg) + size (routes cfg) ∧
  NoDup (list_models_handler cfg reg) ∧
  (∀ m, is_Some (model_map reg !! m) ↔
        {| card_id := m; owned_by := "local-ai-orchestrator" |}
          ∈ list_models_handler cfg reg) ∧
  (∀ name, is_Some (routes cfg !! name) ↔
           {| card_id := "route:" +:+ name;
              owned_by := "local-ai-orchestrator-route" |}
             ∈ list_models_handler cfg reg) ∧
  (∀ card, card ∈ list_models_handler cfg reg →
           (∃ m, is_Some (model_map reg !! m) ∧
                 card = {| card_id := m;
                           owned_by := "local-ai-orchestrator" |}) ∨
           (∃ name, is_Some (routes cfg !! name) ∧
                    card = {| card_id := "route:" +:+ name;
                              owned_by := "local-ai-orchestrator-route" |})) ∧
  (∀ card, card ∈ list_models_handler cfg reg →
           owned_by card = "local-ai-orchestrator-route" →
           ∃ name rc, routes cfg !! name = Some rc ∧
                      card_id card = "route:" +:+ name ∧
                      resolve_model cfg (card_id card)
                      = (primary_model rc, Some name,
                         fallback_models rc, fallback_on rc)).
Proof.
  unfold list_models_handler. split; [|split; [|split; [|split; [|split]]]].
  - by rewrite length_app, !length_fmap, !length_map_to_list.
  - apply NoDup_app. split; [|split].
    + apply (cards_NoDup
               (λ k, {| card_id := k; owned_by := "local-ai-orchestrator" |})).
      by intros x y [= ->].
    + intros card ([k v] & -> & _)%list_elem_of_fmap
        ([k' v'] & [=] & _)%list_elem_of_fmap.
    + apply (cards_NoDup
               (λ k, {| card_id := "route:" +:+ k;
                        owned_by := "local-ai-orchestrator-route" |})).
      intros x y [= Heq]. simpl in Heq. by simplify_eq.
  - intros m. rewrite elem_of_app, !list_elem_of_fmap. split.
    + intros [p Hp]. left. exists (m, p). split; [done|].
      by apply elem_of_map_to_list.
    + intros [([m' p] & [= ->] & Hin)|([name rc] & [=] & _)].
      apply elem_of_map_to_list in Hin. by exists p.
  - intros name. rewrite elem_of_app, !list_elem_of_fmap. split.
    + intros [rc Hrc]. right. exists (name, rc). split; [done|].
      by apply elem_of_map_to_list.
    + intros [([m' p] & [=] & _)|([name' rc] & [= Heq] & Hin)].
      simpl in Heq. simplify_eq.
      apply elem_of_map_to_list in Hin. by exists rc.
  - intros card [Hin|Hin]%elem_of_app;
      apply list_elem_of_fmap in Hin as ([k v] & -> & Hin);
      apply elem_of_map_to_list in Hin; [left | right]; by exists k.
  - intros card [Hin|Hin]%elem_of_app Hroute;
      apply list_elem_of_fmap in Hin as ([k v] & -> & Hin); [done|].
    apply elem_of_map_to_list in Hin. simpl. exists k, v.
    repeat split; [done|].
    by apply (proj1 (proj2 (resolve_model_spec cfg))).
Qed.

Lemma listed_routes_resolve_witness :
  ∃ name rc, routes (route_config []) !! name = Some rc ∧
             "route:r1" = "route:" +:+ name ∧
             resolve_model (route_config []) "route:r1"
             = (primary_model rc, Some name,
                fallback_models rc, fallback_on rc).
Proof.
  apply (proj2 (proj2 (proj2 (proj2 (proj2
           (listed_routes_resolve (route_config [])
              two_providers_registry)))))
           {| card_id := "route:r1";
              owned_by := "local-ai-orchestrator-route" |}).
  - vm_compute. right. right. left.
  - reflexivity.
Defined.

(** ** The single-active-model scheduler: which model is next *)

Lemma Qgt_bool_false x y : Qgt_bool x y = false ↔ (x <= y)%Q.
Proof.
  unfold Qgt_bool. rewrite negb_false_iff. apply Qle_bool_iff.
Qed.

Lemma Qgt_bool_true x y : Qgt_bool x y = true ↔ (y < x)%Q.
Proof.
  unfold Qgt_bool. rewrite negb_true_iff, <- not_true_iff_false, Qle_bool_iff.
  split; [apply Qnot_le_lt | apply Qlt_not_le].
Qed.

Section PickNextModel.

Variable score : string * Job → Q.

Lemma pick_step_best seen best c :
  pick_best score seen best →
  pick_best score (seen ++ [c]) (pick_step score best c).
Proof.
  destruct best as [bm [b|]]; unfold pick_best, pick_step; simpl.
  - intros (pre & c0 & post & -> & -> & -> & Hpre & Hpost).
    destruct (Qgt_bool (score c) (score c0)) eqn:Hgt; simpl.
    + apply Qgt_bool_true in Hgt.
      exists (pre ++ c0 :: post), c, []. split; [done|].
      split; [done|]. split; [done|]. split.
      * intros c' [Hin|[->|Hin]%elem_of_cons]%elem_of_app.
        -- specialize (Hpre _ Hin). lra.
        -- done.
        -- specialize (Hpost _ Hin). lra.
      * intros c' Hin. by apply elem_of_nil in Hin.
    + apply Qgt_bool_false in Hgt.
      exists pre, c0, (post ++ [c]). split; [by rewrite <- app_assoc|].
      split; [done|]. split; [done|]. split; [done|].
      intros c' [Hin| ->%list_elem_of_singleton]%elem_of_app;
        [by apply Hpost | done].
  - intros [-> ->]. exists [], c, []. split; [done|].
    split; [done|]. split; [done|].
    split; intros c' Hin; by apply elem_of_nil in Hin.
Qed.

Lemma pick_loop_best seen best cands :
  pick_best score seen best →
  pick_best score (seen ++ cands) (foldl (pick_step score) best cands).
Proof.
  revert seen best. induction cands as [|c cands IH]; intros seen best Hinv;
    simpl.
  - by rewrite app_nil_r.
  - replace (seen ++ c :: cands) with ((seen ++ [c]) ++ cands)
      by (by rewrite <- app_assoc).
    by apply IH, pick_step_best.
Qed.

End PickNextModel.

(** ** The request log *)

Section RequestLogFacts.

Context {V : Type}.

Lemma deque_append_drop (n : nat) (p : gmap string V) (f : list (gmap string V)) :
  deque_append n p (drop (length f - n) f)
  = drop (length (f ++ [p]) - n) (f ++ [p]).
Proof.
  unfold deque_append.
  destruct (decide (n ≤ length f)) as [Hn|Hn].
  - rewrite bool_decide_eq_true_2
      by (rewrite length_app, length_drop; simpl; lia).
    rewrite length_app. simpl.
    replace (length f + 1 - n) with ((length f - n) + 1) by lia.
    rewrite <- drop_drop. f_equal.
    by rewrite drop_app_le by lia.
  - rewrite bool_decide_eq_false_2
      by (rewrite length_app, length_drop; simpl; lia).
    rewrite length_app. simpl.
    replace (length f - n) with 0 by lia.
    replace (length f + 1 - n) with 0 by lia. done.
Qed.

Lemma logged_snoc calls (call : V * gmap string V) (l : RequestLogger V) :
  logged (calls ++ [call]) l = log_request call.1 call.2 (logged calls l).
Proof. unfold logged. by rewrite foldl_app. Qed.

(** X23.  After any sequence of [log_request] calls on a fresh logger, the
    log handlers were handed every record in call order and the memory
    buffer holds the most recent ones, at most
    [keep_last_n_requests_in_memory] of them, in the same order.  Every
    record carries a timestamp; one that came with a timestamp keeps it. *)
Theorem request_log_keeps_latest
    (keep_last_n : nat) (calls : list (V * gmap string V)) :
  let l := logged calls (RequestLogger_init keep_last_n) in
  let records := (λ call, with_timestamp call.1 call.2) <$> calls in
  log_file l = records ∧
  get_recent_requests l = drop (length calls - keep_last_n) records ∧
  length (get_recent_requests l) = length calls `min` keep_last_n ∧
  (∀ p, p ∈ log_file l → is_Some (p !! "timestamp")) ∧
  (∀ now p v, (now, p) ∈ calls → p !! "timestamp" = Some v →
              p ∈ log_file l).
Proof.
  simpl.
  assert (maxlen (logged calls (RequestLogger_init keep_last_n)) = keep_last_n
          ∧ log_file (logged calls (RequestLogger_init keep_last_n))
            = (λ call, with_timestamp call.1 call.2) <$> calls
          ∧ memory_buffer (logged calls (RequestLogger_init keep_last_n))
            = drop (length calls - keep_last_n)
                ((λ call, with_timestamp call.1 call.2) <$> calls))
    as (Hmax & Hfile & Hbuf).
  { induction calls as [|call calls IH] using rev_ind; [done|].
    destruct IH as (Hmax & Hfile & Hbuf).
    rewrite logged_snoc. unfold log_request; simpl.
    rewrite Hmax, Hfile, Hbuf, fmap_app. simpl.
    split; [done|]. split; [done|].
    rewrite <- (length_fmap (λ call, with_timestamp call.1 call.2) calls).
    rewrite deque_append_drop.
    by rewrite !length_app, !length_fmap. }
  unfold get_recent_requests. rewrite Hfile, Hbuf.
  repeat split.
  - rewrite length_drop, length_fmap. lia.
  - intros p ([now p0] & -> & _)%list_elem_of_fmap. unfold with_timestamp.
    simpl. destruct (p0 !! "timestamp") eqn:Hp; [by rewrite Hp|].
    rewrite lookup_insert_eq. done.
  - intros now p v Hin Hp. apply list_elem_of_fmap. exists (now, p).
    split; [|done]. unfold with_timestamp. simpl. by rewrite Hp.
Qed.

End RequestLogFacts.

Lemma request_log_keeps_latest_witness :
  length (get_recent_requests
            (logged [("09:00", {[ "job_id" := "j0" ]});
                     ("09:01", <[ "timestamp" := "08:59" ]>
                                 {[ "job_id" := "j1" ]});
                     ("09:02", ({[ "job_id" := "j2" ]} : gmap string string))]
                    (RequestLogger_init 2))) = 2.
Proof.
  exact (proj1 (proj2 (proj2
           (request_log_keeps_latest 2
              [("09:00", {[ "job_id" := "j0" ]});
               ("09:01", <[ "timestamp" := "08:59" ]> {[ "job_id" := "j1" ]});
               ("09:02", ({[ "job_id" := "j2" ]} : gmap string string))])))).
Defined.

(** ** The process supervisor *)

Lemma start_process_running plat id command args host pm :
  (start_process plat id command args host pm).1.1 = true →
  is_running id (start_process plat id command args host pm).1.2
                (start_process plat id command args host pm).2 = true.
Proof.
  unfold start_process.
  destruct (is_running id host pm) eqn:Hrun; [done|].
  destruct (match pm !! id with
            | Some _ => stop_process plat id host pm
            | None => (host, pm)
            end) as [host1 pm1].
  destruct (can_spawn plat (command :: args)); [|done]. simpl. intros _.
  unfold is_running. rewrite lookup_insert_eq. simpl.
  apply bool_decide_eq_true_2. set_solver.
Qed.

(** X24.  Starting is idempotent: once [start_process] has returned true
    for an id, and as long as that child has not exited, a further
    [start_process] for the id spawns nothing and changes nothing, whatever
    command it is given. *)
Theorem start_process_idempotent
    (plat : Platform) (id command command' : string)
    (args args' : list string) (host : Host) (processes : gmap string nat) :
  (start_process plat id command args host processes).1.1 = true →
  let host1 := (start_process plat id command args host processes).1.2 in
  let processes1 := (start_process plat id command args host processes).2 in
  start_process plat id command' args' host1 processes1
  = (true, host1, processes1).
Proof.
  intros Hok host1 processes1.
  pose proof (start_process_running _ _ _ _ _ _ Hok) as Hrun.
  fold host1 processes1 in Hrun.
  unfold start_process at 1. by rewrite Hrun.
Qed.

Lemma start_process_idempotent_witness :
  start_process friendly_platform "pA" "ollama" ["serve"]
    (start_process friendly_platform "pA" "ollama" ["serve"]
       {| alive := ∅; children := 0 |} ∅).1.2
    (start_process friendly_platform "pA" "ollama" ["serve"]
       {| alive := ∅; children := 0 |} ∅).2
  = (true,
     (start_process friendly_platform "pA" "ollama" ["serve"]
        {| alive := ∅; children := 0 |} ∅).1.2,
     (start_process friendly_platform "pA" "ollama" ["serve"]
        {| alive := ∅; children := 0 |} ∅).2).
Proof.
  apply (start_process_idempotent friendly_platform "pA" "ollama" "ollama"
           ["serve"] ["serve"]).
  reflexivity.
Defined.

Lemma stop_process_tracked plat id host pm :
  (∀ h, signal_fails plat h = false) →
  all_tracked host pm →
  all_tracked (stop_process plat id host pm).1 (stop_process plat id host pm).2
  ∧ (stop_process plat id host pm).2 = delete id pm
  ∧ children (stop_process plat id host pm).1 = children host
  ∧ (∀ h, pm !! id = Some h → h ∉ alive (stop_process plat id host pm).1)
  ∧ (∀ h', h' ∈ alive (stop_process plat id host pm).1 → h' ∈ alive host).
Proof.
  intros Hsig (Htr & Hbound & Hinj). unfold stop_process.
  destruct (pm !! id) as [h|] eqn:Hid; simpl.
  2:{ repeat split; try done. by rewrite delete_id. }
  assert (∀ host', children host' = children host →
            (h ∉ alive host') → (∀ h', h' ∈ alive host' → h' ∈ alive host) →
            all_tracked host' (delete id pm)) as Hgen.
  { intros host' Hch Hdead Hsub. repeat split.
    - intros h' Hin. destruct (Htr h' (Hsub _ Hin)) as [id' Hid'].
      exists id'. rewrite lookup_delete_ne; [done|].
      intros <-. rewrite Hid in Hid'. injection Hid' as ->. done.
    - intros id' h'. rewrite Hch. intros H.
      apply lookup_delete_Some in H as [_ H]. by eapply Hbound.
    - intros id1 id2 h' H1 H2.
      apply lookup_delete_Some in H1 as [_ H1].
      apply lookup_delete_Some in H2 as [_ H2]. by eapply Hinj. }
  case_bool_decide as Hdead; simpl.
  - split; [by apply Hgen|]. split; [done|]. split; [done|].
    split; [by intros ? [= <-] | done].
  - rewrite Hsig. unfold child_exits. simpl.
    split; [apply Hgen; simpl; [done| |]|].
    + intros Hin. apply elem_of_difference in Hin as [_ Hin].
      apply Hin. by apply elem_of_singleton.
    + intros h' Hin. by apply elem_of_difference in Hin as [Hin _].
    + split; [done|]. split; [done|]. split.
      * intros ? [= <-] Hin. apply elem_of_difference in Hin as [_ Hin].
        apply Hin. by apply elem_of_singleton.
      * intros h' Hin. by apply elem_of_difference in Hin as [Hin _].
Qed.

Lemma spawn_tracked id host pm :
  all_tracked host pm → pm !! id = None →
  all_tracked {| alive := alive host ∪ {[children host]};
                 children := S (children host) |}
              (<[id := children host]> pm).
Proof.
  intros (Htr & Hbound & Hinj) Hid. repeat split; simpl.
  - intros h [Hin| ->%elem_of_singleton]%elem_of_union.
    + destruct (Htr h Hin) as [id' Hid']. exists id'.
      rewrite lookup_insert_ne; [done|]. intros <-. congruence.
    + exists id. by rewrite lookup_insert_eq.
  - intros id' h. rewrite lookup_insert. case_decide.
    + intros [= <-]. lia.
    + intros H'. specialize (Hbound _ _ H'). lia.
  - intros id1 id2 h. rewrite !lookup_insert.
    repeat case_decide; subst; try done.
    + intros [= <-] H2. specialize (Hbound _ _ H2). lia.
    + intros H1 [= <-]. specialize (Hbound _ _ H1). lia.
    + apply Hinj.
Qed.

Lemma start_process_tracked plat id command args host pm :
  (∀ h, signal_fails plat h = false) →
  all_tracked host pm →
  all_tracked (start_process plat id command args host pm).1.2
              (start_process plat id command args host pm).2.
Proof.
  intros Hsig Hinv. unfold start_process.
  destruct (is_running id host pm); [done|].
  destruct (pm !! id) as [h|] eqn:Hid.
  - destruct (stop_process_tracked plat id host pm Hsig Hinv)
      as (Hinv' & Hpm & _).
    destruct (stop_process plat id host pm) as [host1 pm1]. simpl in *.
    destruct (can_spawn plat (command :: args)); [|done]. simpl.
    apply spawn_tracked; [done|]. subst pm1. apply lookup_delete_eq.
  - destruct (can_spawn plat (command :: args)); [|done]. simpl.
    by apply spawn_tracked.
Qed.

(** X25.  On a platform where stopping a child works, the supervisor never
    loses track of a live child: through any sequence of starts, stops and
    children exiting on their own, every child still alive is filed in the
    table, under exactly one id. *)
Theorem no_untracked_child
    (plat : Platform) (host : Host) (processes : gmap string nat) :
  (∀ h, signal_fails plat h = false) →
  supervised plat host processes →
  ∀ h, h ∈ alive host →
       ∃ id, processes !! id = Some h ∧
             ∀ id', processes !! id' = Some h → id' = id.
Proof.
  intros Hsig Hsup.
  assert (all_tracked host processes) as (Htr & _ & Hinj).
  { induction Hsup as [|id command args host pm _ IH|id host pm _ IH
                       |h host pm _ IH].
    - repeat split; [|done..].
      intros h Hin. by apply elem_of_empty in Hin.
    - by apply start_process_tracked.
    - by apply stop_process_tracked.
    - destruct IH as (Htr & Hbound & Hinj). repeat split; try done.
      intros h' Hin. apply Htr. unfold child_exits in Hin. simpl in Hin.
      by apply elem_of_difference in Hin as [Hin _]. }
  intros h Hin. destruct (Htr h Hin) as [id Hid]. exists id.
  split; [done|]. intros id' Hid'. by eapply Hinj.
Qed.

(** X26.  Start, start again, stop is a round trip: for an id that was not
    in the table, on a host in order, the table ends as it began and so
    does the set of live children, whether the spawns succeed or not. *)
Theorem start_start_stop_round_trip
    (plat : Platform) (id command command' : string)
    (args args' : list string) (host : Host) (processes : gmap string nat) :
  (∀ h, signal_fails plat h = false) →
  all_tracked host processes →
  processes !! id = None →
  let s1 := start_process plat id command args host processes in
  let s2 := start_process plat id command' args' s1.1.2 s1.2 in
  let s3 := stop_process plat id s2.1.2 s2.2 in
  s3.2 = processes ∧ alive s3.1 = alive host.
Proof.
  intros Hsig Hinv Hid s1 s2 s3.
  assert (children host ∉ alive host) as Hfresh.
  { intros Hin. destruct Hinv as (Htr & Hbound & _).
    destruct (Htr _ Hin) as [id' Hid']. specialize (Hbound _ _ Hid'). lia. }
  assert (∀ host2 pm2,
            (host2 = host ∧ pm2 = processes) ∨
            (alive host2 = alive host ∪ {[children host]} ∧
             pm2 = <[id := children host]> processes) →
            (stop_process plat id host2 pm2).2 = processes ∧
            alive (stop_process plat id host2 pm2).1 = alive host) as Hstop.
  { intros host2 pm2 [[-> ->]|[Halive ->]]; unfold stop_process.
    - by rewrite Hid.
    - rewrite lookup_insert_eq.
      rewrite bool_decide_eq_false_2
        by (rewrite Halive; intros Hn; apply Hn, elem_of_union_r;
            by apply elem_of_singleton).
      rewrite Hsig. simpl. split.
      + rewrite delete_insert_eq. by apply delete_id.
      + rewrite Halive. apply set_eq. intros x.
        rewrite elem_of_difference, elem_of_union, elem_of_singleton.
        split.
        * by intros [[?|?] ?].
        * intros Hx. split; [by left|]. by intros ->. }
  assert (start_process plat id command args host processes
          = if can_spawn plat (command :: args)
            then (true,
                  {| alive := alive host ∪ {[children host]};
                     children := S (children host) |},
                  <[id := children host]> processes)
            else (false, host, processes)) as Hs1.
  { unfold start_process, is_running. by rewrite Hid. }
  subst s3 s2 s1. apply Hstop. rewrite Hs1.
  destruct (can_spawn plat (command :: args)) eqn:Hspawn; simpl.
  - (* the first start created the child; the second finds it running *)
    unfold start_process, is_running. rewrite lookup_insert_eq. simpl.
    rewrite bool_decide_eq_true_2
      by (apply elem_of_union_r; by apply elem_of_singleton).
    simpl. by right.
  - unfold start_process, is_running. rewrite Hid.
    destruct (can_spawn plat (command' :: args')); simpl; [by right | by left].
Qed.

Lemma no_untracked_child_witness :
  ∃ id, (start_process friendly_platform "pA" "ollama" ["serve"]
           {| alive := ∅; children := 0 |} ∅).2 !! id = Some 0 ∧
        ∀ id', (start_process friendly_platform "pA" "ollama" ["serve"]
                  {| alive := ∅; children := 0 |} ∅).2 !! id' = Some 0 →
               id' = id.
Proof.
  apply (no_untracked_child friendly_platform
           (start_process friendly_platform "pA" "ollama" ["serve"]
              {| alive := ∅; children := 0 |} ∅).1.2).
  - reflexivity.
  - apply supervised_start, supervised_init.
  - apply (bool_decide_unpack _). vm_compute. reflexivity.
Defined.

Lemma start_start_stop_round_trip_witness :
  let s1 := start_process friendly_platform "pB" "llama-server" ["--port"]
              {| alive := ∅; children := 0 |} ∅ in
  let s2 := start_process friendly_platform "pB" "llama-server" [] s1.1.2 s1.2 in
  let s3 := stop_process friendly_platform "pB" s2.1.2 s2.2 in
  s3.2 = ∅ ∧ alive s3.1 = ∅.
Proof.
  apply (start_start_stop_round_trip friendly_platform "pB" "llama-server"
           "llama-server" ["--port"] [] {| alive := ∅; children := 0 |} ∅).
  - intros h. reflexivity.
  - split; [|split].
    + intros h Hin. by apply elem_of_empty in Hin.
    + intros id h Hid. by rewrite lookup_empty in Hid.
    + intros id1 id2 h Hid. by rewrite lookup_empty in Hid.
  - apply lookup_empty.
Defined.

(** ** The single-active-model scheduler: the processing loop *)

Lemma legacy_candidates_elem queues m oldest :
  (m, oldest) ∈ legacy_candidates queues ↔
  ∃ rest, (m, oldest :: rest) ∈ queues.
Proof.
  unfold legacy_candidates. induction queues as [|[k q] queues IH]; simpl.
  - split; [intros H; by apply elem_of_nil in H|].
    intros [rest H]. by apply elem_of_nil in H.
  - destruct q as [|j q]; simpl.
    + rewrite IH. split.
      * intros [rest H]. exists rest. by right.
      * intros [rest [[=]|H]%elem_of_cons]. by exists rest.
    + rewrite elem_of_cons, IH. split.
      * intros [[= -> ->]|[rest H]]; [exists q; by left | exists rest; by right].
      * intros [rest [[= -> -> ->]|H]%elem_of_cons];
          [by left | right; by exists rest].
Qed.

Lemma legacy_candidates_none queues :
  legacy_candidates queues = [] → concat queues.*2 = [].
Proof.
  unfold legacy_candidates. induction queues as [|[k q] queues IH]; simpl;
    [done|].
  destruct q as [|j q]; simpl; [done | discriminate].
Qed.

Lemma dict_get_concat_nil (m : string) (q : list Job)
    (d : list (string * list Job)) :
  dict_get m d = Some q → concat d.*2 = [] → q = [].
Proof.
  induction d as [|[k q'] d IH]; simpl; [done|].
  intros Hget [-> Hnil]%app_eq_nil.
  destruct (decide (k = m)); [by injection Hget as <- | by apply IH].
Qed.

Lemma pick_next_model_waiting models default_model_score
    aging_bonus_per_second created_at now s :
  match pick_next_model models default_model_score aging_bonus_per_second
          created_at now s with
  | None => legacy_candidates (legacy_queues s) = []
  | Some m => ∃ oldest, (m, oldest) ∈ legacy_candidates (legacy_queues s)
  end.
Proof.
  unfold pick_next_model.
  pose proof (pick_loop_best
                (legacy_score models default_model_score
                   aging_bonus_per_second created_at now)
                [] (None, None) (legacy_candidates (legacy_queues s)))
    as Hbest.
  rewrite app_nil_l in Hbest. specialize (Hbest (conj eq_refl eq_refl)).
  destruct (foldl _ _ _) as [bm [b|]]; unfold pick_best in Hbest;
    simpl in *.
  - destruct Hbest as (pre & [m oldest] & post & Hsplit & -> & _).
    exists oldest. rewrite Hsplit. apply elem_of_app. right. by left.
  - by destruct Hbest as [Hnil ->].
Qed.

Section ProcessQueueFacts.

Variable default_model_score : ModelScoreConfig.
Variable aging_bonus_per_second : Q.
Variable created_at : Job → Q.

Local Abbreviation determine_active_model :=
  (determine_active_model default_model_score aging_bonus_per_second
     created_at).
Local Abbreviation process_turn :=
  (process_turn default_model_score aging_bonus_per_second created_at).
Local Abbreviation process_queue :=
  (process_queue default_model_score aging_bonus_per_second created_at).

(** Step 1 finds no model when nothing waits, and otherwise a model with a
    waiting job: the current one if it has jobs. *)
Lemma determine_active_model_cases o s :
  NoDup (dict_keys (legacy_queues s)) →
  (determine_active_model o s = None ∧ concat (legacy_queues s).*2 = [])
  ∨
  (∃ m job rest,
     determine_active_model o s = Some m ∧
     dict_get m (legacy_queues s) = Some (job :: rest) ∧
     (str_truthy (active_model_id s) = true →
      queue_truthy (active_model_id s ≫= λ m, dict_get m (legacy_queues s))
        = true →
      active_model_id s = Some m)).
Proof.
  intros Hnd. unfold determine_active_model.
  destruct (str_truthy (active_model_id s)) eqn:Hs;
    [destruct (queue_truthy _) eqn:Hq|]; simpl.
  - right. destruct (active_model_id s) as [m0|]; [|discriminate Hs].
    simpl in Hq. destruct (dict_get m0 (legacy_queues s)) as [[|job rest]|]
      eqn:Hget; try discriminate Hq.
    by exists m0, job, rest.
  - pose proof (pick_next_model_waiting (loaded_models o) default_model_score
                  aging_bonus_per_second created_at (time_now o) s) as Hpick.
    destruct (pick_next_model _ _ _ _ _ _) as [m|].
    + right. destruct Hpick as [oldest [rest Hin]%legacy_candidates_elem].
      exists m, oldest, rest. split; [done|].
      split; [by apply dict_get_NoDup | discriminate].
    + left. split; [done | by apply legacy_candidates_none].
  - pose proof (pick_next_model_waiting (loaded_models o) default_model_score
                  aging_bonus_per_second created_at (time_now o) s) as Hpick.
    destruct (pick_next_model _ _ _ _ _ _) as [m|].
    + right. destruct Hpick as [oldest [rest Hin]%legacy_candidates_elem].
      exists m, oldest, rest. split; [done|].
      split; [by apply dict_get_NoDup | discriminate].
    + left. split; [done | by apply legacy_candidates_none].
Qed.

(** A turn on a workable dictionary: it returns when nothing waits, and
    otherwise pops and ends the head of the chosen queue. *)
Lemma adapters_calm w p :
  no_adapter_raises w → start_error w p = None ∧ stop_error w p = None.
Proof.
  intros Hcalm. unfold start_error, stop_error.
  destruct (Hcalm (config_provider_id (config p))) as [-> ->].
  by destruct (negb (is_managed p)).
Qed.

Lemma stop_previous_calm o s :
  no_adapter_raises (the_world o) → stop_previous o s = None.
Proof.
  intros Hcalm. unfold stop_previous.
  destruct (str_truthy _); [|done].
  destruct (dict_get _ _) as [prev|]; [|done].
  apply (adapters_calm _ prev Hcalm).
Qed.

Lemma start_next_calm o provider :
  no_adapter_raises (the_world o) → start_next o provider = None.
Proof.
  intros Hcalm. unfold start_next.
  destruct (health_check _ _); [done|].
  apply (adapters_calm _ provider Hcalm).
Qed.

Lemma if_same_none (b : bool) :
  (if b then None else None) = (None : option exn).
Proof. by destruct b. Qed.

Lemma process_turn_cases o s :
  no_adapter_raises (the_world o) →
  workable (legacy_queues s) →
  (concat (legacy_queues s).*2 = [] ∧
   process_turn o s
   = Returns {| legacy_queues := legacy_queues s; active_model_id := None;
                active_provider_id := None |})
  ∨
  (∃ m job rest job' p,
     m ≠ "" ∧
     dict_get m (legacy_queues s) = Some (job :: rest) ∧
     process_turn o s
     = Continues {| legacy_queues := dict_set m rest (legacy_queues s);
                    active_model_id := Some m;
                    active_provider_id := p |}
                 (Some (m, job')) ∧
     served job job' ∧
     (str_truthy (active_model_id s) = true →
      queue_truthy (active_model_id s ≫= λ m, dict_get m (legacy_queues s))
        = true →
      active_model_id s = Some m)).
Proof.
  intros Hcalm [Hnd Hempty]. unfold process_turn.
  destruct (determine_active_model_cases o s Hnd)
    as [[-> Hnil]|(m & job & rest & -> & Hget & Hsticky)]; simpl.
  - by left.
  - right.
    assert (m ≠ "") as Hm.
    { intros ->. by rewrite Hget in Hempty. }
    rewrite (bool_decide_eq_false_2 _ Hm). simpl. rewrite Hget.
    destruct (get_provider_for_model (the_registry o) m) as [provider|].
    + rewrite (stop_previous_calm o s Hcalm),
        (start_next_calm o provider Hcalm).
      rewrite !if_same_none.
      destruct (negb (bool_decide (active_provider_id s = Some _))
                && negb (health_check (the_world o) provider)
                && negb (health_after_start (the_world o) _)).
      * eexists m, job, rest, _, _. split; [done|]. split; [done|].
        split; [reflexivity|]. split; [|done].
        unfold served. simpl. by repeat split; try right.
      * eexists m, job, rest, _, _. split; [done|]. split; [done|].
        split; [reflexivity|]. split; [|done].
        unfold served.
        destruct (chat_completion _ _ _); simpl.
        -- split; [done|]. split; [done|]. split; [done|]. split; [done|].
           by left.
        -- split; [done|]. split; [done|]. split; [done|]. split; [done|].
           by right.
    + eexists m, job, rest, _, _. split; [done|]. split; [done|].
      split; [reflexivity|]. split; [|done].
      unfold served. simpl.
      split; [done|]. split; [done|]. split; [done|]. split; [done|].
      by right.
Qed.

(** The whole run, with what the induction needs. *)
Lemma process_queue_run outside fuel : ∀ turn s,
  (∀ k, no_adapter_raises (the_world (outside k))) →
  workable (legacy_queues s) →
  length (concat (legacy_queues s).*2) < fuel →
  ∃ s' done,
    process_queue outside fuel turn s = Some (Ok (s', done)) ∧
    active_model_id s' = None ∧ active_provider_id s' = None ∧
    dict_keys (legacy_queues s') = dict_keys (legacy_queues s) ∧
    concat (legacy_queues s').*2 = [] ∧
    length done = length (concat (legacy_queues s).*2) ∧
    (∀ m q, dict_get m (legacy_queues s) = Some q →
            Forall2 served q (filter (λ e, e.1 = m) done).*2) ∧
    (∀ m, m ∈ done.*1 →
          queue_truthy (dict_get m (legacy_queues s)) = true) ∧
    (str_truthy (active_model_id s) = true →
     queue_truthy (active_model_id s ≫= λ m, dict_get m (legacy_queues s))
       = true →
     head done.*1 = active_model_id s) ∧
    (∀ l1 m l2, done.*1 = l1 ++ m :: l2 → m ∈ l1 → last l1 = Some m).
Proof.
  induction fuel as [|fuel IH]; intros turn s Hcalm Hwf Hfuel; [lia|].
  simpl.
  destruct (process_turn_cases (outside turn) s (Hcalm turn) Hwf)
    as [[Hnil ->]
       |(m & job & rest & job' & p & Hm & Hget & -> & Hserved & Hsticky)].
  - eexists _, []. split; [reflexivity|]. simpl.
    split; [done|]. split; [done|]. split; [done|]. split; [done|].
    split; [by rewrite Hnil|]. split; [|split; [|split]].
    + intros m q Hq. rewrite (dict_get_concat_nil _ _ _ Hq Hnil).
      constructor.
    + intros m Hin. by apply elem_of_nil in Hin.
    + intros Hs Hq. destruct (active_model_id s) as [m0|];
        [|discriminate Hs]. simpl in Hq.
      destruct (dict_get m0 (legacy_queues s)) as [[|j r]|] eqn:Hget;
        try discriminate Hq.
      by pose proof (dict_get_concat_nil _ _ _ Hget Hnil).
    + intros l1 m l2 Heq. by destruct l1.
  - destruct Hwf as [Hnd Hempty].
    pose proof (Permutation_length (dict_set_pop_concat m job rest _ Hget))
      as Hlen. simpl in Hlen.
    destruct (IH (S turn)
                {| legacy_queues := dict_set m rest (legacy_queues s);
                   active_model_id := Some m; active_provider_id := p |})
      as (s' & done1 & -> & Hmodel & Hprov & Hkeys & Hnone & Hcount & Hfifo
          & Hwaiting & Hfirst & Hruns).
    { done. }
    { split; simpl; [by apply dict_set_keys_NoDup|].
      by rewrite dict_get_set_ne. }
    { simpl. lia. }
    simpl in *.
    assert (head done1.*1 = Some m ∨ m ∉ done1.*1) as Hnext.
    { destruct (decide (m ∈ done1.*1)) as [Hin|Hout]; [left | by right].
      apply Hfirst.
      - by rewrite (bool_decide_eq_false_2 _ Hm).
      - by apply Hwaiting. }
    exists s', ((m, job') :: done1). split; [done|].
    split; [done|]. split; [done|].
    split; [by rewrite Hkeys, dict_keys_set_present by (by rewrite Hget)|].
    split; [done|]. split; [simpl; lia|].
    split; [|split; [|split]].
    + intros m0 q Hq. rewrite filter_cons. simpl.
      destruct (decide (m = m0)) as [<-|Hne].
      * rewrite Hget in Hq. injection Hq as <-. simpl.
        constructor; [done|]. apply Hfifo. by rewrite dict_get_set_eq.
      * apply Hfifo. by rewrite dict_get_set_ne.
    + intros m0 Hin. destruct (decide (m = m0)) as [<-|Hne];
        [by rewrite Hget|].
      apply elem_of_cons in Hin as [Heq|Hin]; [by symmetry in Heq|].
      specialize (Hwaiting _ Hin).
      by rewrite dict_get_set_ne in Hwaiting.
    + intros Hs Hq. simpl. symmetry. by apply Hsticky.
    + intros l1 m0 l2 Heq Hin.
      destruct l1 as [|k l1]; [by apply elem_of_nil in Hin|].
      simpl in Heq. injection Heq as Hk Heq. subst k.
      assert (m0 ∈ l1 → last (m :: l1) = Some m0) as Hlater.
      { intros Hin'. specialize (Hruns l1 m0 l2 Heq Hin').
        destruct l1; [by apply elem_of_nil in Hin' | done]. }
      apply elem_of_cons in Hin as [->|Hin]; [|by apply Hlater].
      destruct l1 as [|k l1]; [done|]. apply Hlater.
      destruct Hnext as [Hhead|Hout].
      * assert (head ((k :: l1) ++ m :: l2) = Some m) as Hh.
        { rewrite <- Hhead. f_equal. symmetry. exact Heq. }
        simpl in Hh. injection Hh as Hk. subst k. by left.
      * exfalso. apply Hout.
        assert (m ∈ (k :: l1) ++ m :: l2) as Hel
          by (apply elem_of_app; right; by left).
        exact (eq_ind_r (λ l, m ∈ l) Hel Heq).
Qed.

(** X27.  While no job arrives, the model records load with finite scores
    and no adapter raises on [start()] or [stop()], [process_queue] empties
    the scheduler:
    on a dictionary with no job under the empty model id it returns after
    one turn per waiting job and one more, with every queue empty (the keys
    stay), no active model and no active provider.  Every job was popped
    once, ended [completed] or [error], with its id, model ids and request
    untouched, and the jobs of one queue were served first in, first
    out. *)
Theorem process_queue_drains
    (outside : nat → Outside) (fuel turn : nat) (s : LegacyScheduler) :
  (∀ k, no_adapter_raises (the_world (outside k))) →
  workable (legacy_queues s) →
  length (concat (legacy_queues s).*2) < fuel →
  ∃ s' done,
    process_queue outside fuel turn s = Some (Ok (s', done)) ∧
    active_model_id s' = None ∧ active_provider_id s' = None ∧
    dict_keys (legacy_queues s') = dict_keys (legacy_queues s) ∧
    concat (legacy_queues s').*2 = [] ∧
    length done = length (concat (legacy_queues s).*2) ∧
    (∀ m q, dict_get m (legacy_queues s) = Some q →
            Forall2 served q (filter (λ e, e.1 = m) done).*2).
Proof.
  intros Hcalm Hwf Hfuel.
  destruct (process_queue_run outside fuel turn s Hcalm Hwf Hfuel)
    as (s' & done & Hrun & Hmodel & Hprov & Hkeys & Hnone & Hcount & Hfifo
        & _).
  exists s', done. split; [done|]. split; [done|]. split; [done|].
  split; [done|]. split; [done|]. by split.
Qed.

(** X28.  While no job arrives, the model records load with finite scores
    and no adapter raises on [start()] or [stop()], the loop stays with a
    model until its queue is empty and never comes back to it: a model that was served
    before is served again only in the very next turn, so the jobs of one
    model are served in one uninterrupted run.  The run of the model that
    was active when the loop started, if it had jobs, comes first. *)
Theorem process_queue_sticky
    (outside : nat → Outside) (fuel turn : nat) (s : LegacyScheduler) :
  (∀ k, no_adapter_raises (the_world (outside k))) →
  workable (legacy_queues s) →
  length (concat (legacy_queues s).*2) < fuel →
  ∃ s' done,
    process_queue outside fuel turn s = Some (Ok (s', done)) ∧
    (str_truthy (active_model_id s) = true →
     queue_truthy (active_model_id s ≫= λ m, dict_get m (legacy_queues s))
       = true →
     head done.*1 = active_model_id s) ∧
    (∀ l1 m l2, done.*1 = l1 ++ m :: l2 → m ∈ l1 → last l1 = Some m).
Proof.
  intros Hcalm Hwf Hfuel.
  destruct (process_queue_run outside fuel turn s Hcalm Hwf Hfuel)
    as (s' & done & Hrun & _ & _ & _ & _ & _ & _ & _ & Hfirst & Hruns).
  exists s', done. split; [done|]. by split.
Qed.

(** X29.  A job queued under the empty model id stalls the loop: when only
    that queue has jobs, [pick_next_model] returns the empty string, the
    loop takes it for "no work left" and returns at once, leaving the jobs
    where they are. *)
Theorem empty_model_id_stalls
    (outside : nat → Outside) (fuel turn : nat) (s : LegacyScheduler)
    (job : Job) (rest : list Job) :
  NoDup (dict_keys (legacy_queues s)) →
  dict_get "" (legacy_queues s) = Some (job :: rest) →
  (∀ m, m ≠ "" → queue_truthy (dict_get m (legacy_queues s)) = false) →
  process_queue outside (S fuel) turn s
  = Some (Ok ({| legacy_queues := legacy_queues s;
                 active_model_id := Some "";
                 active_provider_id := None |}, [])).
Proof.
  intros Hnd Hget Hothers. simpl. unfold process_turn.
  destruct (determine_active_model_cases (outside turn) s Hnd)
    as [[_ Hnil]|(m & job0 & rest0 & -> & Hget0 & _)].
  - by pose proof (dict_get_concat_nil _ _ _ Hget Hnil).
  - destruct (decide (m = "")) as [->|Hm]; [done|].
    specialize (Hothers m Hm). by rewrite Hget0 in Hothers.
Qed.

End ProcessQueueFacts.

Lemma process_queue_drains_witness :
  ∃ s' done,
    process_queue ModelScoreConfig_default (1 # 100) (λ _, 0%Q)
      quiet_outside 3 0 legacy_two_waiting = Some (Ok (s', done)) ∧
    active_model_id s' = None ∧ active_provider_id s' = None ∧
    dict_keys (legacy_queues s') = dict_keys (legacy_queues legacy_two_waiting) ∧
    concat (legacy_queues s').*2 = [] ∧
    length done = length (concat (legacy_queues legacy_two_waiting).*2) ∧
    (∀ m q, dict_get m (legacy_queues legacy_two_waiting) = Some q →
            Forall2 served q (filter (λ e, e.1 = m) done).*2).
Proof.
  apply (process_queue_drains ModelScoreConfig_default (1 # 100) (λ _, 0%Q)
           quiet_outside 3 0 legacy_two_waiting).
  - intros k pid. split; reflexivity.
  - split; [|reflexivity].
    apply (bool_decide_unpack _). vm_compute. reflexivity.
  - simpl. lia.
Defined.

Lemma process_queue_sticky_witness :
  ∃ s' done,
    process_queue ModelScoreConfig_default 0 (λ _, 0%Q)
      quiet_outside 5 7 legacy_two_waiting = Some (Ok (s', done)) ∧
    (str_truthy (active_model_id legacy_two_waiting) = true →
     queue_truthy (active_model_id legacy_two_waiting
                   ≫= λ m, dict_get m (legacy_queues legacy_two_waiting))
       = true →
     head done.*1 = active_model_id legacy_two_waiting) ∧
    (∀ l1 m l2, done.*1 = l1 ++ m :: l2 → m ∈ l1 → last l1 = Some m).
Proof.
  apply (process_queue_sticky ModelScoreConfig_default 0 (λ _, 0%Q)
           quiet_outside 5 7 legacy_two_waiting).
  - intros k pid. split; reflexivity.
  - split; [|reflexivity].
    apply (bool_decide_unpack _). vm_compute. reflexivity.
  - simpl. lia.
Defined.

Lemma empty_model_id_stalls_witness :
  process_queue ModelScoreConfig_default (1 # 100) (λ _, 0%Q)
    quiet_outside 1 0 legacy_nameless_waiting
  = Some (Ok ({| legacy_queues := legacy_queues legacy_nameless_waiting;
                 active_model_id := Some "";
                 active_provider_id := None |}, [])).
Proof.
  apply (empty_model_id_stalls ModelScoreConfig_default (1 # 100) (λ _, 0%Q)
           quiet_outside 0 0 legacy_nameless_waiting
           (job_for "j0" "") []).
  - apply (bool_decide_unpack _). vm_compute. reflexivity.
  - reflexivity.
  - intros m Hm. simpl. rewrite decide_False by done.
    by destruct (decide ("m2" = m)).
Defined.

(** ** The log tail *)

(** X30.  [GET /admin/logs] returns the last [limit] lines of the log file
    only for a positive [limit]; with [limit = 0] it returns the whole
    file, and with a negative [limit] everything but the first [-limit]
    lines.  A missing or unreadable file gives the empty list. *)
Theorem get_logs_tail (limit : Z) (lines : list string) :
  ((0 < limit)%Z →
   get_logs limit (Some lines)
   = drop (length lines - Z.to_nat limit) lines) ∧
  get_logs 0 (Some lines) = lines ∧
  ((limit < 0)%Z →
   get_logs limit (Some lines) = drop (Z.to_nat (- limit)) lines) ∧
  get_logs limit None = [].
Proof.
  unfold get_logs, slice_from_end. split; [|split; [|split]].
  - intros Hpos. destruct (Z.ltb_spec (- limit) 0) as [_|Hge]; [|lia].
    f_equal. lia.
  - simpl. by rewrite Z.min_l by lia.
  - intros Hneg. destruct (Z.ltb_spec (- limit) 0) as [Hlt|_]; [lia|].
    destruct (decide (- limit ≤ Z.of_nat (length lines))%Z) as [Hle|Hgt].
    + by rewrite Z.min_l by lia.
    + rewrite Z.min_r by lia. rewrite Nat2Z.id.
      by rewrite !drop_ge by lia.
  - done.
Qed.
